(** * Verification of infinitunes' [src/lib/utils.ts]

    Part I embeds the helpers of [src/lib/utils.ts] together with the
    ECMAScript and browser built-ins they call.  Part II states and proves
    the properties of the embedded functions. *)

From Stdlib Require Import String Ascii ZArith List Bool Lia.
From Stdlib Require Import SpecFloat DecimalString.
Import ListNotations.
Local Open Scope Z_scope.

(** * Part I: the embedding *)

(** ** ECMAScript values and built-ins *)

Module JS.

(** A JavaScript string is a sequence of UTF-16 code units. *)
Definition jsstring := list Z.

Definition code_unit (c : Z) : Prop := 0 <= c < 65536.

(** [js "abc"] is the JavaScript string literal with the same ASCII text. *)
Definition js (s : string) : jsstring :=
  map (fun a => Z.of_N (N_of_ascii a)) (list_ascii_of_string s).

Fixpoint str_eqb (a b : jsstring) : bool :=
  match a, b with
  | [], [] => true
  | x :: a', y :: b' => (x =? y) && str_eqb a' b'
  | _, _ => false
  end.

(** Exceptions the modelled built-ins can raise. *)
Inductive exn :=
| URIError
| InvalidCharacterError
| TypeError
| HostError (what : string).

(** Completion of an evaluation: a value, or a thrown exception. *)
Inductive completion (A : Type) :=
| Normal (a : A)
| Throw (e : exn).
Arguments Normal {A} a.
Arguments Throw {A} e.

Definition bind {A B} (c : completion A) (k : A -> completion B) : completion B :=
  match c with
  | Normal a => k a
  | Throw e => Throw e
  end.

(** *** String.prototype helpers *)

Fixpoint starts_with (p s : jsstring) : bool :=
  match p, s with
  | [], _ => true
  | a :: p', b :: s' => (a =? b) && starts_with p' s'
  | _ :: _, [] => false
  end.

(** [split_from sep s skip cur] scans [s] left to right.  [cur] is the piece
    being collected (reversed) and [skip] counts the code units of an already
    recognised separator that are still to be stepped over. *)
Fixpoint split_from (sep s : jsstring) (skip : nat) (cur : jsstring)
  : list jsstring :=
  match s with
  | [] => [rev cur]
  | c :: s' =>
    match skip with
    | S k => split_from sep s' k cur
    | O =>
      if starts_with sep s
      then rev cur :: split_from sep s' (length sep - 1) []
      else split_from sep s' 0 (c :: cur)
    end
  end.

(** [String.prototype.split] with a string separator.  An empty separator
    splits between all code units. *)
Definition split (sep s : jsstring) : list jsstring :=
  match sep with
  | [] => map (fun c => [c]) s
  | _ :: _ => split_from sep s 0 []
  end.

(** [Array.prototype.join] on an array of strings. *)
Fixpoint join (sep : jsstring) (l : list jsstring) : jsstring :=
  match l with
  | [] => []
  | [x] => x
  | x :: rest => x ++ sep ++ join sep rest
  end.

Fixpoint replaceAll_from (pat rep s : jsstring) (skip : nat) : jsstring :=
  match s with
  | [] => []
  | c :: s' =>
    match skip with
    | S k => replaceAll_from pat rep s' k
    | O =>
      if starts_with pat s
      then rep ++ replaceAll_from pat rep s' (length pat - 1)
      else c :: replaceAll_from pat rep s' 0
    end
  end.

(** [String.prototype.replaceAll] with a string pattern: the occurrences are
    found in one left-to-right pass and do not overlap; the result is not
    scanned again. *)
Definition replaceAll (pat rep s : jsstring) : jsstring :=
  match pat with
  | [] => rep ++ flat_map (fun c => c :: rep) s
  | _ :: _ => replaceAll_from pat rep s 0
  end.

(** *** Set of strings

    A [Set] keeps its elements in insertion order; membership is
    SameValueZero, which on strings is equality of the code unit
    sequences. *)
Module StrSet.
Definition t := list jsstring.
Definition empty : t := [].
Definition has (x : jsstring) (s : t) : bool := existsb (str_eqb x) s.
Definition add (x : jsstring) (s : t) : t := if has x s then s else s ++ [x].
(** [Array.from(set)] *)
Definition to_array (s : t) : list jsstring := s.
End StrSet.

End JS.

(** ** Regular expressions (the fragment used by [utils.ts]) *)

Module RegExp.
Import JS.

(** LineTerminator: LF, CR, LS, PS. *)
Definition isLineTerminator (c : Z) : bool :=
  (c =? 10) || (c =? 13) || (c =? 8232) || (c =? 8233).

(** WhiteSpace: TAB, VT, FF, ZWNBSP and the Unicode space separators. *)
Definition isWhiteSpace (c : Z) : bool :=
  (c =? 9) || (c =? 11) || (c =? 12) || (c =? 32) || (c =? 160) ||
  (c =? 5760) || ((8192 <=? c) && (c <=? 8202)) || (c =? 8239) ||
  (c =? 8287) || (c =? 12288) || (c =? 65279).

(** The class [\s]. *)
Definition class_s (c : Z) : bool := isWhiteSpace c || isLineTerminator c.

(** The class [\w]: ASCII letters, digits and the underscore. *)
Definition class_w (c : Z) : bool :=
  ((65 <=? c) && (c <=? 90)) || ((97 <=? c) && (c <=? 122)) ||
  ((48 <=? c) && (c <=? 57)) || (c =? 95).

(** The atom [.] without the [s] flag. *)
Definition class_dot (c : Z) : bool := negb (isLineTerminator c).

(** Patterns without captures, look-around or back-references.  A
    quantifier is applied to a one-character class only, which is all the
    source needs ([.+]). *)
Inductive regex :=
| Empty
| Char (c : Z)
| Class (p : Z -> bool)
| Seq (r1 r2 : regex)
| Alt (r1 r2 : regex)
| Opt (r : regex)
| PlusClass (p : Z -> bool)
| Bol
| Eol.

(** A literal run of characters. *)
Fixpoint lit_units (l : jsstring) : regex :=
  match l with
  | [] => Empty
  | [c] => Char c
  | c :: l' => Seq (Char c) (lit_units l')
  end.
Definition lit (s : string) : regex := lit_units (js s).

(** A matcher state is the index reached and the input that is left. *)
Definition mstate := (nat * jsstring)%type.

(** Greedy repetition of a class, zero or more times, then the
    continuation. *)
Fixpoint star_class (p : Z -> bool) (i : nat) (s : jsstring)
  (k : mstate -> bool) : bool :=
  match s with
  | [] => k (i, s)
  | c :: s' => (p c && star_class p (S i) s' k) || k (i, s)
  end.

(** Backtracking matcher in continuation-passing style, after the
    specification's matcher/continuation semantics: [matcher r x k] tries
    [r] at state [x] and hands every way of matching it to [k] until one
    succeeds. *)
Fixpoint matcher (r : regex) (x : mstate) (k : mstate -> bool) : bool :=
  match r with
  | Empty => k x
  | Char c =>
    match snd x with
    | d :: s' => (d =? c) && k (S (fst x), s')
    | [] => false
    end
  | Class p =>
    match snd x with
    | d :: s' => p d && k (S (fst x), s')
    | [] => false
    end
  | Seq r1 r2 => matcher r1 x (fun y => matcher r2 y k)
  | Alt r1 r2 => matcher r1 x k || matcher r2 x k
  | Opt r1 => matcher r1 x k || k x
  | PlusClass p =>
    match snd x with
    | d :: s' => p d && star_class p (S (fst x)) s' k
    | [] => false
    end
  | Bol => (fst x =? 0)%nat && k x
  | Eol => match snd x with [] => k x | _ :: _ => false end
  end.

(** [RegExp.prototype.test] for a pattern without the [g] and [y] flags:
    the match is attempted at every start index from 0. *)
Fixpoint search (r : regex) (i : nat) (s : jsstring) : bool :=
  matcher r (i, s) (fun _ => true) ||
  match s with
  | [] => false
  | _ :: s' => search r (S i) s'
  end.

Definition test (r : regex) (s : jsstring) : bool := search r 0 s.

(** What a pattern matches, as a relation: [matches r x y] when [r] can
    take the matcher from state [x] to state [y].  The matcher above is
    compared with it in Part II. *)
Fixpoint matches (r : regex) (x y : mstate) : Prop :=
  match r with
  | Empty => y = x
  | Char c => snd x = c :: snd y /\ fst y = S (fst x)
  | Class p => exists d, p d = true /\ snd x = d :: snd y /\ fst y = S (fst x)
  | Seq r1 r2 => exists z, matches r1 x z /\ matches r2 z y
  | Alt r1 r2 => matches r1 x y \/ matches r2 x y
  | Opt r1 => matches r1 x y \/ y = x
  | PlusClass p =>
    exists run, run <> [] /\ Forall (fun d => p d = true) run /\
                snd x = run ++ snd y /\
                fst y = (fst x + List.length run)%nat
  | Bol => fst x = 0%nat /\ y = x
  | Eol => snd x = [] /\ y = x
  end.

(** The strings a pattern without anchors matches. *)
Fixpoint lang (r : regex) (w : jsstring) : Prop :=
  match r with
  | Empty => w = []
  | Char c => w = [c]
  | Class p => exists d, p d = true /\ w = [d]
  | Seq r1 r2 => exists w1 w2, w = w1 ++ w2 /\ lang r1 w1 /\ lang r2 w2
  | Alt r1 r2 => lang r1 w \/ lang r2 w
  | Opt r1 => lang r1 w \/ w = []
  | PlusClass p => w <> [] /\ Forall (fun d => p d = true) w
  | Bol => w = []
  | Eol => w = []
  end.

Fixpoint anchorFree (r : regex) : bool :=
  match r with
  | Seq r1 r2 | Alt r1 r2 => anchorFree r1 && anchorFree r2
  | Opt r1 => anchorFree r1
  | Bol | Eol => false
  | _ => true
  end.

(** [s.replace(/[...]/g, rep)] for a pattern that is a single character
    class with the global flag: every code unit in the class is replaced. *)
Definition replaceClassGlobal (p : Z -> bool) (rep s : jsstring) : jsstring :=
  flat_map (fun c => if p c then rep else [c]) s.

End RegExp.

(** ** Case conversion *)

Module Case.
Import JS.

Definition isASCII (c : Z) : bool := (0 <=? c) && (c <? 128).

Definition asciiLower (c : Z) : Z :=
  if (65 <=? c) && (c <=? 90) then c + 32 else c.

(** [String.prototype.toLowerCase].  On a string of ASCII code units the
    Unicode default case conversion maps A-Z to a-z and leaves the rest.
    Any other string is handed to [unicodeLower], the host's Unicode
    lower-casing, which this development leaves uninterpreted. *)
Definition toLowerCase (unicodeLower : jsstring -> jsstring) (s : jsstring)
  : jsstring :=
  if forallb isASCII s then map asciiLower s else unicodeLower s.

End Case.

(** ** URI component coding ([encodeURIComponent], [decodeURIComponent]) *)

Module URI.
Import JS.

Definition isLeadingSurrogate (c : Z) : bool := (55296 <=? c) && (c <=? 56319).
Definition isTrailingSurrogate (c : Z) : bool := (56320 <=? c) && (c <=? 57343).

(** [String.prototype.isWellFormed]: every surrogate code unit is part of a
    leading/trailing pair. *)
Fixpoint isWellFormed (s : jsstring) : bool :=
  match s with
  | [] => true
  | c :: rest =>
    if isLeadingSurrogate c then
      match rest with
      | d :: rest' => isTrailingSurrogate d && isWellFormed rest'
      | [] => false
      end
    else negb (isTrailingSurrogate c) && isWellFormed rest
  end.

(** The code point of a surrogate pair. *)
Definition pairCodePoint (hi lo : Z) : Z :=
  (hi - 55296) * 1024 + (lo - 56320) + 65536.

(** UTF16EncodeCodePoint *)
Definition utf16 (cp : Z) : jsstring :=
  if cp <=? 65535 then [cp]
  else [(cp - 65536) / 1024 + 55296; (cp - 65536) mod 1024 + 56320].

(** The UTF-8 octets of a code point. *)
Definition utf8 (cp : Z) : list Z :=
  if cp <? 128 then [cp]
  else if cp <? 2048 then [192 + cp / 64; 128 + cp mod 64]
  else if cp <? 65536 then
    [224 + cp / 4096; 128 + (cp / 64) mod 64; 128 + cp mod 64]
  else
    [240 + cp / 262144; 128 + (cp / 4096) mod 64;
     128 + (cp / 64) mod 64; 128 + cp mod 64].

Definition isContinuation (b : Z) : bool := (128 <=? b) && (b <? 192).

(** The code point of a well-formed UTF-8 sequence of two to four octets:
    continuation octets are 10xxxxxx, the encoding is the shortest one, and
    the result is neither a surrogate nor above U+10FFFF. *)
Definition utf8_decode (octets : list Z) : option Z :=
  match octets with
  | [b0; b1] =>
    let v := (b0 - 192) * 64 + (b1 - 128) in
    if isContinuation b1 && (128 <=? v) then Some v else None
  | [b0; b1; b2] =>
    let v := (b0 - 224) * 4096 + (b1 - 128) * 64 + (b2 - 128) in
    if isContinuation b1 && isContinuation b2 && (2048 <=? v) &&
       negb ((55296 <=? v) && (v <=? 57343))
    then Some v else None
  | [b0; b1; b2; b3] =>
    let v := (b0 - 240) * 262144 + (b1 - 128) * 4096 +
             (b2 - 128) * 64 + (b3 - 128) in
    if isContinuation b1 && isContinuation b2 && isContinuation b3 &&
       (65536 <=? v) && (v <=? 1114111)
    then Some v else None
  | _ => None
  end.

(** Upper-case hexadecimal digit of a value below 16. *)
Definition hexdigit (d : Z) : Z := if d <? 10 then 48 + d else 55 + d.

Definition hexval (c : Z) : option Z :=
  if (48 <=? c) && (c <=? 57) then Some (c - 48)
  else if (65 <=? c) && (c <=? 70) then Some (c - 55)
  else if (97 <=? c) && (c <=? 102) then Some (c - 87)
  else None.

(** ["%XX"] for one octet. *)
Definition percent (b : Z) : jsstring :=
  [37; hexdigit (b / 16); hexdigit (b mod 16)].

(** Characters [encodeURIComponent] leaves alone: the ASCII word characters
    and [-.!~*'()]. *)
Definition isUnescaped (c : Z) : bool :=
  RegExp.class_w c ||
  (c =? 45) || (c =? 46) || (c =? 33) || (c =? 126) ||
  (c =? 42) || (c =? 39) || (c =? 40) || (c =? 41).

(** Encode: unescaped code units are copied; any other code point is
    replaced by the escapes of its UTF-8 octets; an unpaired surrogate
    raises URIError. *)
Fixpoint encodeURIComponent (s : jsstring) : completion jsstring :=
  match s with
  | [] => Normal []
  | c :: rest =>
    if isUnescaped c then
      bind (encodeURIComponent rest) (fun r => Normal (c :: r))
    else if isTrailingSurrogate c then Throw URIError
    else if isLeadingSurrogate c then
      match rest with
      | d :: rest' =>
        if isTrailingSurrogate d then
          bind (encodeURIComponent rest')
               (fun r => Normal (flat_map percent (utf8 (pairCodePoint c d)) ++ r))
        else Throw URIError
      | [] => Throw URIError
      end
    else
      bind (encodeURIComponent rest)
           (fun r => Normal (flat_map percent (utf8 c) ++ r))
  end.

(** ParseHexOctet on the two code units that follow a [%]. *)
Definition parseHexOctet (s : jsstring) : option (Z * jsstring) :=
  match s with
  | h :: l :: rest =>
    match hexval h, hexval l with
    | Some a, Some b => Some (16 * a + b, rest)
    | _, _ => None
    end
  | _ => None
  end.

(** [n] further escapes ["%XX"], as the octets that continue a sequence. *)
Fixpoint readEscapes (n : nat) (s : jsstring) : option (list Z * jsstring) :=
  match n with
  | O => Some ([], s)
  | S n' =>
    match s with
    | c :: s1 =>
      if c =? 37 then
        match parseHexOctet s1 with
        | Some (b, s2) =>
          match readEscapes n' s2 with
          | Some (bs, s3) => Some (b :: bs, s3)
          | None => None
          end
        | None => None
        end
      else None
    | [] => None
    end
  end.

(** Number of leading 1 bits of an octet (5 stands for five or more). *)
Definition leadingOnes (b : Z) : nat :=
  if b <? 128 then 0
  else if b <? 192 then 1
  else if b <? 224 then 2
  else if b <? 240 then 3
  else if b <? 248 then 4
  else 5.

(** Decode with an empty reserved set.  Each iteration consumes at least
    one code unit, so the loop is run with the length of the input as
    fuel. *)
Fixpoint decode_loop (fuel : nat) (s : jsstring) : completion jsstring :=
  match s with
  | [] => Normal []
  | c :: rest =>
    match fuel with
    | O => Throw URIError
    | S fuel' =>
      if negb (c =? 37) then
        bind (decode_loop fuel' rest) (fun r => Normal (c :: r))
      else
        match parseHexOctet rest with
        | None => Throw URIError
        | Some (b, rest1) =>
          match leadingOnes b with
          | O => bind (decode_loop fuel' rest1) (fun r => Normal (b :: r))
          | 1%nat => Throw URIError
          | S (S (S (S (S _)))) => Throw URIError
          | S n1 =>
            match readEscapes n1 rest1 with
            | None => Throw URIError
            | Some (bs, rest2) =>
              match utf8_decode (b :: bs) with
              | None => Throw URIError
              | Some v =>
                bind (decode_loop fuel' rest2)
                     (fun r => Normal (utf16 v ++ r))
              end
            end
          end
        end
    end
  end.

Definition decodeURIComponent (s : jsstring) : completion jsstring :=
  decode_loop (List.length s) s.

End URI.

(** ** Base64 ([btoa], [atob]) *)

Module Base64.
Import JS.

(** The character of a 6-bit value in the alphabet A-Z a-z 0-9 + /. *)
Definition b64char (i : Z) : Z :=
  if i <? 26 then 65 + i
  else if i <? 52 then 71 + i
  else if i <? 62 then i - 4
  else if i =? 62 then 43
  else 47.

Definition b64val (c : Z) : option Z :=
  if (65 <=? c) && (c <=? 90) then Some (c - 65)
  else if (97 <=? c) && (c <=? 122) then Some (c - 71)
  else if (48 <=? c) && (c <=? 57) then Some (c + 4)
  else if c =? 43 then Some 62
  else if c =? 47 then Some 63
  else None.

(** Three octets give four characters; a final group of one or two octets
    is padded with [=]. *)
Fixpoint encode (bytes : list Z) : jsstring :=
  match bytes with
  | [] => []
  | [a] => [b64char (a / 4); b64char ((a mod 4) * 16); 61; 61]
  | [a; b] =>
    [b64char (a / 4); b64char ((a mod 4) * 16 + b / 16);
     b64char ((b mod 16) * 4); 61]
  | a :: b :: c :: rest =>
    b64char (a / 4) :: b64char ((a mod 4) * 16 + b / 16) ::
    b64char ((b mod 16) * 4 + c / 64) :: b64char (c mod 64) :: encode rest
  end.

(** [btoa]: the argument must consist of code units up to U+00FF. *)
Definition btoa (s : jsstring) : completion jsstring :=
  if forallb (fun c => (0 <=? c) && (c <=? 255)) s
  then Normal (encode s)
  else Throw InvalidCharacterError.

(** ASCII whitespace: TAB, LF, FF, CR, SPACE. *)
Definition isAsciiWhitespace (c : Z) : bool :=
  (c =? 9) || (c =? 10) || (c =? 12) || (c =? 13) || (c =? 32).

(** One or two trailing [=] are dropped when the length is a multiple of
    four. *)
Definition stripPadding (d : jsstring) : jsstring :=
  if (Z.of_nat (List.length d) mod 4 =? 0) then
    match rev d with
    | x :: y :: r =>
      if x =? 61 then (if y =? 61 then rev r else rev (y :: r)) else d
    | [x] => if x =? 61 then [] else d
    | [] => d
    end
  else d.

Fixpoint sextets (d : jsstring) : option (list Z) :=
  match d with
  | [] => Some []
  | c :: d' =>
    match b64val c, sextets d' with
    | Some v, Some vs => Some (v :: vs)
    | _, _ => None
    end
  end.

(** Four 6-bit values give three octets; of a final group of two or three
    values the surplus low bits are discarded. *)
Fixpoint decode (v : list Z) : list Z :=
  match v with
  | w :: x :: y :: z :: rest =>
    (w * 4 + x / 16) :: ((x mod 16) * 16 + y / 4) :: ((y mod 4) * 64 + z) ::
    decode rest
  | [w; x; y] => [w * 4 + x / 16; (x mod 16) * 16 + y / 4]
  | [w; x] => [w * 4 + x / 16]
  | _ => []
  end.

(** [atob]: forgiving-base64 decode. *)
Definition atob (s : jsstring) : completion jsstring :=
  let d := stripPadding (filter (fun c => negb (isAsciiWhitespace c)) s) in
  if Z.of_nat (List.length d) mod 4 =? 1 then Throw InvalidCharacterError
  else
    match sextets d with
    | Some v => Normal (decode v)
    | None => Throw InvalidCharacterError
    end.

End Base64.

(** ** Numbers

    A Number is an IEEE 754 binary64 value; the arithmetic is the one of the
    standard library's [SpecFloat] at precision 53 and maximal exponent
    1024, rounding to nearest, ties to even. *)

Module Num.
Import JS.

Definition number := spec_float.

Definition prec : Z := 53.
Definition emax : Z := 1024.

(** The Number nearest to an integer: the value of an integer literal. *)
Definition ofZ (z : Z) : number := binary_normalize prec emax z 0 false.

(** [x / y] *)
Definition div (x y : number) : number := SFdiv prec emax x y.

(** [x < y] *)
Definition ltb (x y : number) : bool := SFltb x y.

(** [n % d]: the exact value [n - d * q] where [q] is [n / d] truncated
    towards zero; a zero result has the sign of the dividend. *)
Definition remainder (n d : number) : number :=
  match n, d with
  | S754_nan, _ | _, S754_nan => S754_nan
  | S754_infinity _, _ => S754_nan
  | _, S754_infinity _ => n
  | _, S754_zero _ => S754_nan
  | S754_zero _, _ => n
  | S754_finite sn mn en, S754_finite _ md ed =>
    let e := Z.min en ed in
    let a := Zpos mn * 2 ^ (en - e) in
    let b := Zpos md * 2 ^ (ed - e) in
    binary_normalize prec emax (cond_Zopp sn (a mod b)) e sn
  end.

(** [Math.floor] *)
Definition floor (x : number) : number :=
  match x with
  | S754_finite s m e =>
    if 0 <=? e then x
    else binary_normalize prec emax (cond_Zopp s (Zpos m) / 2 ^ (- e)) 0 s
  | _ => x
  end.

(** The mathematical value of a Number that is an integer. *)
Definition integerValue (x : number) : option Z :=
  match x with
  | S754_zero _ => Some 0
  | S754_finite s m e =>
    if 0 <=? e then Some (cond_Zopp s (Zpos m * 2 ^ e))
    else if Zpos m mod 2 ^ (- e) =? 0
         then Some (cond_Zopp s (Zpos m / 2 ^ (- e)))
         else None
  | _ => None
  end.

(** Decimal digits of an integer, with a minus sign when negative. *)
Definition decimal (z : Z) : jsstring :=
  js (NilZero.string_of_int (Z.to_int z)).

(** [Number::toString] in radix 10.  An integer of magnitude at most 2^53
    prints as its decimal digits.  Every other finite value (a fraction, or
    a larger magnitude, printed with the shortest digits that round-trip)
    is left to [other], which this development does not interpret. *)
Definition toString (other : number -> jsstring) (x : number) : jsstring :=
  match x with
  | S754_nan => js "NaN"
  | S754_infinity false => js "Infinity"
  | S754_infinity true => js "-Infinity"
  | _ =>
    match integerValue x with
    | Some z => if Z.abs z <=? 2 ^ 53 then decimal z else other x
    | None => other x
    end
  end.

End Num.

(** ** Stateful evaluation

    A computation over a world [W] that returns normally or throws; an
    [await] of a promise is its completion at the point of the call. *)

Module Eff.
Import JS.

Definition M (W A : Type) : Type := W -> completion A * W.

Definition ret {W A} (a : A) : M W A := fun w => (Normal a, w).

Definition throw {W A} (e : exn) : M W A := fun w => (Throw e, w).

Definition seq {W A B} (c : M W A) (k : A -> M W B) : M W B :=
  fun w =>
    match c w with
    | (Normal a, w') => k a w'
    | (Throw e, w') => (Throw e, w')
    end.

(** [try { body } catch (error) { handler }] *)
Definition try_catch {W A} (body : M W A) (handler : exn -> M W A) : M W A :=
  fun w =>
    match body w with
    | (Normal a, w') => (Normal a, w')
    | (Throw e, w') => handler e w'
    end.

Definition lift {W A} (c : completion A) : M W A := fun w => (c, w).

End Eff.

Declare Scope eff_scope.
Delimit Scope eff_scope with eff.
Notation "x <- c ;; k" := (Eff.seq c (fun x => k))
  (at level 61, c at next level, right associativity) : eff_scope.
Notation "c ;;; k" := (Eff.seq c (fun _ => k))
  (at level 61, right associativity) : eff_scope.

(** ** [src/lib/utils.ts] *)

Module Utils.
Import JS.

(** *** Types of [@/types] used by the helpers *)

(** An entry of an [image] or [downloadUrl] array. *)
Record QualityLink := { quality : jsstring; link : jsstring }.

(** [Image]: the array of variants, or a boolean when there is none. *)
Inductive Image :=
| ImageFlag (b : bool)
| ImageList (l : list QualityLink).

Record AlbumArtist := { name : jsstring; url : jsstring }.

(** An artist-bearing field: a string, an array of [AlbumArtist], or not
    there at all ([undefined] or [null]). *)
Inductive ArtistField :=
| ArtistString (s : jsstring)
| ArtistList (l : list AlbumArtist)
| ArtistMissing.

(** The fields of a [Song | Album] the artist helpers read. *)
Record Item := {
  artists : ArtistField;
  primaryArtists : ArtistField;
  featuredArtists : ArtistField;
  primaryArtistsId : jsstring
}.

(** *** [clearUrl] *)

Section ClearUrl.
(** Host lower-casing of strings that are not pure ASCII. *)
Variable unicodeLower : jsstring -> jsstring.

(** The class [[^\w\s]] under the flags [gi].  Without the [u] flag the
    case-insensitive comparison never identifies a code unit outside
    ASCII with an ASCII one, so the [i] flag leaves this class as it
    is. *)
Definition notWordNorSpace (c : Z) : bool :=
  negb (RegExp.class_w c || RegExp.class_s c).

Definition clearUrl (url : jsstring) : jsstring :=
  replaceAll (js "--") (js "-")
    (replaceAll (js " ") (js "-")
      (RegExp.replaceClassGlobal notWordNorSpace []
        (Case.toLowerCase unicodeLower url))).
End ClearUrl.

(** *** [strToBase64], [base64ToStr] *)

Definition strToBase64 (str : jsstring) : completion jsstring :=
  bind (URI.encodeURIComponent str) (fun encodedStr =>
  Base64.btoa encodedStr).

Definition base64ToStr (base64 : jsstring) : completion jsstring :=
  bind (Base64.atob base64) (fun decodedStr =>
  URI.decodeURIComponent decodedStr).

(** *** [isJioSaavnLink] *)

Import RegExp.

(** [/^(https?:\/\/)?(www.)?jiosaavn\.com\/(song|shows|album|artist|featured)\/(.+)$/],
    group by group.  No flag is given: the letters are compared as they
    are. *)

(** [(https?:\/\/)?] *)
Definition protocolGroup : regex :=
  Opt (Seq (lit "http") (Seq (Opt (Char 115)) (lit "://"))).

(** [(www.)?] *)
Definition wwwGroup : regex := Opt (Seq (lit "www") (Class class_dot)).

(** [jiosaavn\.com\/] *)
Definition hostLiteral : regex :=
  Seq (lit "jiosaavn") (Seq (Char 46) (Seq (lit "com") (Char 47))).

(** [(song|shows|album|artist|featured)] *)
Definition sectionGroup : regex :=
  Alt (lit "song") (Alt (lit "shows") (Alt (lit "album")
      (Alt (lit "artist") (lit "featured")))).

(** [(.+)] *)
Definition restGroup : regex := PlusClass class_dot.

Definition linkBody : regex :=
  Seq protocolGroup (Seq wwwGroup (Seq hostLiteral
      (Seq sectionGroup (Seq (Char 47) restGroup)))).

Definition linkRegex : regex := Seq Bol (Seq linkBody Eol).

Definition isJioSaavnLink (url : jsstring) : bool := test linkRegex url.

(** *** [formatTime] *)

Section FormatTime.
(** [Number(s)] for a string argument, and the printing of Numbers that
    are not integers of magnitude up to 2^53: both left to the host. *)
Variable stringToNumber : jsstring -> Num.number.
Variable numberToStringOther : Num.number -> jsstring.

(** [Number(time)] for [time : number | string]. *)
Definition toNumber (time : Num.number + jsstring) : Num.number :=
  match time with
  | inl n => n
  | inr s => stringToNumber s
  end.

Definition formatTime (time : Num.number + jsstring) : jsstring :=
  let minutes := Num.floor (Num.div (toNumber time) (Num.ofZ 60)) in
  let seconds := Num.floor (Num.remainder (toNumber time) (Num.ofZ 60)) in
  Num.toString numberToStringOther minutes ++ js ":" ++
  (if Num.ltb seconds (Num.ofZ 10)
   then js "0" ++ Num.toString numberToStringOther seconds
   else Num.toString numberToStringOther seconds).
End FormatTime.

(** *** [getHomeData] *)

Section HomeData.
(** The catalog entries are opaque to the helper. *)
Variables Album Song Playlist Chart : Type.

(** The payload of [api.getHomeData()]. *)
Record Trending := { t_albums : list Album; t_songs : list Song }.
Record HomeData := {
  hd_trending : Trending;
  hd_albums : list Album;
  hd_playlists : list Playlist;
  hd_charts : list Chart
}.

(** What [getHomeData] returns. *)
Record HomeView := {
  trending : list (Album + Song);
  albums : list Album;
  playlists : list Playlist;
  charts : list Chart
}.

(** [store.getState().root] *)
Record RootSlice := { homeData : option HomeData }.

(** The world: the store, and the calls made to the catalog API so far.
    [api n] is the completion of call number [n] of
    [api.getHomeData()]: a payload, nothing, or a rejection. *)
Record World := { root : RootSlice; apiCalls : nat }.
Variable api : nat -> completion (option HomeData).

Import Eff.
Local Open Scope eff_scope.

Definition getState : M World RootSlice := fun w => (Normal (root w), w).

Definition api_getHomeData : M World (option HomeData) :=
  fun w => (api (apiCalls w), {| root := root w; apiCalls := S (apiCalls w) |}).

(** Modelled from the spec: the reducer of [setHomeData] in
    [@/store/root-slice], which is not among the sources; it stores the
    raw payload into the process-wide state. *)
Definition setHomeData (payload : HomeData) (s : RootSlice) : RootSlice :=
  {| homeData := Some payload |}.

Definition dispatch (reducer : RootSlice -> RootSlice) : M World unit :=
  fun w => (Normal tt, {| root := reducer (root w); apiCalls := apiCalls w |}).

Definition reshape (h : HomeData) : HomeView :=
  {| trending := map inl (t_albums (hd_trending h)) ++
                 map inr (t_songs (hd_trending h));
     albums := hd_albums h;
     playlists := hd_playlists h;
     charts := hd_charts h |}.

Definition getHomeData : M World (option HomeView) :=
  rootSlice <- getState ;;
  h <- match homeData rootSlice with
       | Some cached => ret (Some cached)
       | None => api_getHomeData
       end ;;
  match h with
  | Some payload =>
    match homeData rootSlice with
    | Some _ => ret tt
    | None => dispatch (setHomeData payload)
    end
  | None => ret tt
  end ;;;
  ret (match h with
       | Some payload => Some (reshape payload)
       | None => None
       end).
End HomeData.

Arguments t_albums {Album Song}.
Arguments t_songs {Album Song}.
Arguments hd_trending {Album Song Playlist Chart}.
Arguments hd_albums {Album Song Playlist Chart}.
Arguments hd_playlists {Album Song Playlist Chart}.
Arguments hd_charts {Album Song Playlist Chart}.
Arguments trending {Album Song Playlist Chart}.
Arguments albums {Album Song Playlist Chart}.
Arguments playlists {Album Song Playlist Chart}.
Arguments charts {Album Song Playlist Chart}.
Arguments homeData {Album Song Playlist Chart}.
Arguments root {Album Song Playlist Chart}.
Arguments apiCalls {Album Song Playlist Chart}.
Arguments getState {Album Song Playlist Chart}.
Arguments api_getHomeData {Album Song Playlist Chart}.
Arguments setHomeData {Album Song Playlist Chart}.
Arguments dispatch {Album Song Playlist Chart}.
Arguments reshape {Album Song Playlist Chart}.
Arguments getHomeData {Album Song Playlist Chart}.

(** *** [getImage] *)

(** [image[i].link]; reading [link] of a missing entry throws. *)
Definition linkAt (image : list QualityLink) (i : nat) : completion jsstring :=
  match nth_error image i with
  | Some v => Normal (link v)
  | None => Throw TypeError
  end.

(** [quality] is [None] for an argument left out. *)
Definition getImage (image : Image) (quality : option jsstring)
  : completion jsstring :=
  match image with
  | ImageFlag _ => Normal (js "/images/logo512.png")
  | ImageList image =>
    match quality with
    | Some q =>
      if str_eqb q (js "large") then linkAt image 2
      else if str_eqb q (js "medium") then linkAt image 1
      else if str_eqb q (js "small") then linkAt image 0
      else linkAt image 2
    | None => linkAt image 2
    end
  end.

(** *** [getArtists] *)

Definition getArtistsFromList (artists : ArtistField) : option (list jsstring) :=
  match artists with
  | ArtistString s =>
    Some (match s with
          | _ :: _ => split (js ", ") s
          | [] => []
          end)
  | ArtistList l => Some (map name l)
  | ArtistMissing => None
  end.

(** [artists?.forEach((artist) => uniqueArtists.add(artist))] *)
Definition addArtistsToList (artists : option (list jsstring))
  (uniqueArtists : StrSet.t) : StrSet.t :=
  match artists with
  | Some l => fold_left (fun set artist => StrSet.add artist set) l uniqueArtists
  | None => uniqueArtists
  end.

Definition getArtists (item : Item) : jsstring :=
  let uniqueArtists := StrSet.empty in
  let uniqueArtists :=
    addArtistsToList (getArtistsFromList (artists item)) uniqueArtists in
  let uniqueArtists :=
    addArtistsToList (getArtistsFromList (primaryArtists item)) uniqueArtists in
  let uniqueArtists :=
    addArtistsToList (getArtistsFromList (featuredArtists item)) uniqueArtists in
  join (js ", ") (StrSet.to_array uniqueArtists).

(** *** [getArtistIds] *)

Definition getArtistIdsFromList (artists : ArtistField) : option (list jsstring) :=
  match artists with
  | ArtistString _ => None
  | ArtistList l => Some (map url l)
  | ArtistMissing => None
  end.

(** [x ?? []] *)
Definition orEmpty (x : option (list jsstring)) : list jsstring :=
  match x with
  | Some l => l
  | None => []
  end.

Definition getArtistIds (item : Item) : list jsstring :=
  split (js ", ") (primaryArtistsId item) ++
  orEmpty (getArtistIdsFromList (primaryArtists item)) ++
  orEmpty (getArtistIdsFromList (featuredArtists item)).

(** *** [downloadSong] *)

Inductive SongQuality := low | medium | high | best | lossless.

Definition qualitySuffix (q : SongQuality) : jsstring :=
  match q with
  | low => js "_12"
  | medium => js "_48"
  | high => js "_96"
  | best => js "_160"
  | lossless => js "_320"
  end.

(** The fields of a [Song] the download reads. *)
Record Song := {
  song_name : jsstring;
  song_year : jsstring;
  downloadUrl : list QualityLink
}.

(** [String.prototype.replace] with a string pattern and a replacement
    without [$]: the first occurrence is replaced. *)
Fixpoint replaceFirst (pat rep s : jsstring) : jsstring :=
  if starts_with pat s then rep ++ skipn (List.length pat) s
  else
    match s with
    | [] => []
    | c :: s' => c :: replaceFirst pat rep s'
    end.

Section Download.
(** The browser: network and document, with a state [Browser] of its
    own.  Every operation may throw. *)
Variables Browser Response Blob Anchor : Type.

Record Host := {
  fetch : jsstring -> Eff.M Browser Response;
  response_blob : Response -> Eff.M Browser Blob;
  createObjectURL : Blob -> Eff.M Browser jsstring;
  (** [new DOMParser().parseFromString(str, "text/html")
        .documentElement.textContent] *)
  parseTextContent : jsstring -> Eff.M Browser (option jsstring);
  (** [document.createElement(tagName)] *)
  createElement : jsstring -> Eff.M Browser Anchor;
  (** [Object.assign(target, {href, style, download})]: the three
      properties are set on [target], which is returned. *)
  assign : Anchor -> jsstring -> jsstring -> jsstring -> Eff.M Browser Anchor;
  appendChild : Anchor -> Eff.M Browser unit;
  click : Anchor -> Eff.M Browser unit;
  revokeObjectURL : jsstring -> Eff.M Browser unit;
  remove : Anchor -> Eff.M Browser unit
}.

Variable host : Host.

(** The page: the browser, the console, and the notifications shown to
    the user. *)
Record Page := {
  browser : Browser;
  console : list (jsstring * exn);
  toasts : list jsstring
}.

Import Eff.
Local Open Scope eff_scope.

(** A browser operation run on the page. *)
Definition onBrowser {A} (op : M Browser A) : M Page A :=
  fun p =>
    let (r, b) := op (browser p) in
    (r, {| browser := b; console := console p; toasts := toasts p |}).

Definition console_error (msg : jsstring) (e : exn) : M Page unit :=
  fun p =>
    (Normal tt,
     {| browser := browser p;
        console := console p ++ [(msg, e)];
        toasts := toasts p |}).

Definition decodeHtml (str : jsstring) : M Page (option jsstring) :=
  onBrowser (parseTextContent host str).

(** A [string | null] inside a template literal. *)
Definition showNullable (x : option jsstring) : jsstring :=
  match x with
  | Some s => s
  | None => js "null"
  end.

(** The body of the [try] block.  The arguments of [Object.assign] are
    evaluated from left to right: the element is created, then the
    object literal is built, which calls [decodeHtml], and then the
    properties are assigned. *)
Definition downloadAttempt (song : Song) (downloadLink : jsstring)
  : M Page unit :=
  response <- onBrowser (fetch host downloadLink) ;;
  blob <- onBrowser (response_blob host response) ;;
  url <- onBrowser (createObjectURL host blob) ;;
  element <- onBrowser (createElement host (js "a")) ;;
  title <- decodeHtml (song_name song) ;;
  anchor <- onBrowser
    (assign host element url (js "display:none")
       (showNullable title ++ js " " ++ song_year song ++ js ".mp3")) ;;
  onBrowser (appendChild host anchor) ;;;
  onBrowser (click host anchor) ;;;
  onBrowser (revokeObjectURL host url) ;;;
  onBrowser (remove host anchor).

Definition errorMessage : jsstring := js "Error occurred during download:".

Definition downloadSong (song : Song) (quality : SongQuality) : M Page unit :=
  downloadLink <-
    lift (bind (linkAt (downloadUrl song) 0) (fun l =>
          Normal (replaceFirst (js "_12.mp4")
                               (qualitySuffix quality ++ js ".mp4") l))) ;;
  try_catch
    (downloadAttempt song downloadLink)
    (fun error => console_error errorMessage error).
End Download.

Arguments fetch {Browser Response Blob Anchor}.
Arguments response_blob {Browser Response Blob Anchor}.
Arguments createObjectURL {Browser Response Blob Anchor}.
Arguments parseTextContent {Browser Response Blob Anchor}.
Arguments createElement {Browser Response Blob Anchor}.
Arguments assign {Browser Response Blob Anchor}.
Arguments appendChild {Browser Response Blob Anchor}.
Arguments click {Browser Response Blob Anchor}.
Arguments revokeObjectURL {Browser Response Blob Anchor}.
Arguments remove {Browser Response Blob Anchor}.
Arguments browser {Browser}.
Arguments console {Browser}.
Arguments toasts {Browser}.
Arguments onBrowser {Browser A}.
Arguments console_error {Browser}.
Arguments decodeHtml {Browser Response Blob Anchor}.
Arguments downloadAttempt {Browser Response Blob Anchor}.
Arguments downloadSong {Browser Response Blob Anchor}.

End Utils.

(** ** The specification's wording, as definitions

    These follow the sentences of the specification, not the code; Part II
    compares them with the functions of [Utils]. *)

Module Spec.
Import JS Utils.

(** *** Artist Resolver *)


(** "Splitting the string on [", "], or empty list if the string is empty;
    mapping the structured list to its [.name] field." *)
Definition fieldNames (f : ArtistField) : list jsstring :=
  match f with
  | ArtistString [] => []
  | ArtistString s => split (js ", ") s
  | ArtistList l => map name l
  | ArtistMissing => []
  end.

(** Deduplication "by exact string equality, preserving first-seen
    order": an element stays at its first occurrence and its later
    occurrences go. *)
Fixpoint dedupFirst (l : list jsstring) : list jsstring :=
  match l with
  | [] => []
  | x :: l' => x :: filter (fun y => negb (str_eqb x y)) (dedupFirst l')
  end.

Definition resolveArtists (item : Item) : jsstring :=
  join (js ", ")
    (dedupFirst (fieldNames (artists item) ++
                 fieldNames (primaryArtists item) ++
                 fieldNames (featuredArtists item))).

(** "Identifiers extracted from structured lists (via each entry's [.url]
    field)"; a plain string contributes none. *)
Definition structuredUrls (f : ArtistField) : list jsstring :=
  match f with
  | ArtistList l => map url l
  | _ => []
  end.

(** [pat] occurs somewhere in [s]. *)
Fixpoint includes (pat s : jsstring) : bool :=
  starts_with pat s ||
  match s with
  | [] => false
  | _ :: s' => includes pat s'
  end.

Definition separatorFree (x : jsstring) : Prop := includes (js ", ") x = false.

(** "The identifier string split on [", "]": the pieces, at least one,
    none of them holding the separator, which joined by the separator
    give the string. *)
Definition splitOn (s : jsstring) (pieces : list jsstring) : Prop :=
  pieces <> [] /\ Forall separatorFree pieces /\ join (js ", ") pieces = s.

(** *** Catalog links *)

Definition protocols : list jsstring := [[]; js "http://"; js "https://"].

Definition segments : list jsstring :=
  [js "song"; js "shows"; js "album"; js "artist"; js "featured"].

(** The optional group [(www.)]: nothing, or [www] and one more character
    that is not a line terminator. *)
Definition wwwPrefix (w : jsstring) : Prop :=
  w = [] \/ exists c, RegExp.class_dot c = true /\ w = js "www" ++ [c].

(** The group [(.+)]: one or more characters, none a line terminator. *)
Definition remainderGroup (r : jsstring) : Prop :=
  r <> [] /\ Forall (fun c => RegExp.class_dot c = true) r.

(** A string as a whole matches
    [^(https?://)?(www.)?jiosaavn\.com/(song|shows|album|artist|featured)/(.+)$],
    every literal compared exactly. *)
Definition matchesLinkPattern (u : jsstring) : Prop :=
  exists proto www seg rest,
    u = proto ++ www ++ js "jiosaavn.com/" ++ seg ++ js "/" ++ rest /\
    In proto protocols /\ wwwPrefix www /\ In seg segments /\
    remainderGroup rest.

(** The same with "the protocol and host matched case-insensitively": the
    letters of the protocol, of [www] and of [jiosaavn.com] are compared
    up to ASCII case. *)
Definition sameUpToCase (a b : jsstring) : Prop :=
  map Case.asciiLower a = map Case.asciiLower b.

Definition matchesLinkPatternAnyCase (u : jsstring) : Prop :=
  exists proto www host seg rest,
    u = proto ++ www ++ host ++ js "/" ++ seg ++ js "/" ++ rest /\
    (exists p, In p protocols /\ sameUpToCase proto p) /\
    (www = [] \/
     exists w c, RegExp.class_dot c = true /\ www = w ++ [c] /\
                 sameUpToCase w (js "www")) /\
    sameUpToCase host (js "jiosaavn.com") /\
    In seg segments /\ remainderGroup rest.

(** *** Durations *)

(** Seconds "zero-padded to two digits when below 10". *)
Definition twoDigits (r : Z) : jsstring := [48 + r / 10; 48 + r mod 10].

(** ["<minutes>:<seconds>"] with [minutes = floor(s/60)] unpadded. *)
Definition formatDuration (s : Z) : jsstring :=
  Num.decimal (s / 60) ++ js ":" ++ twoDigits (s mod 60).

(** *** Download Resolver *)

(** A page computation that leaves the console and the notifications
    alone. *)
Definition quiet {Browser A} (c : Eff.M (Page Browser) A) : Prop :=
  forall p, console (snd (c p)) = console p /\ toasts (snd (c p)) = toasts p.

(** "Rewrite the song's base (lowest-quality) download URL by literal
    substring substitution of the lowest-quality file suffix with the
    requested quality's suffix." *)
Definition linkFor (first : QualityLink) (quality : SongQuality) : jsstring :=
  replaceFirst (js "_12.mp4") (qualitySuffix quality ++ js ".mp4") (link first).

(** A browser whose network is down: [fetch] rejects. *)
Definition offline : Host unit unit unit unit :=
  {| fetch := fun _ => Eff.throw (HostError "Failed to fetch");
     response_blob := fun _ => Eff.ret tt;
     createObjectURL := fun _ => Eff.ret (js "blob:1");
     parseTextContent := fun s => Eff.ret (Some s);
     createElement := fun _ => Eff.ret tt;
     assign := fun target _ _ _ => Eff.ret target;
     appendChild := fun _ => Eff.ret tt;
     click := fun _ => Eff.ret tt;
     revokeObjectURL := fun _ => Eff.ret tt;
     remove := fun _ => Eff.ret tt |}.

(** A browser whose network works and whose document does not: creating
    an element throws, and so does parsing. *)
Definition brokenDocument : Host unit unit unit unit :=
  {| fetch := fun _ => Eff.ret tt;
     response_blob := fun _ => Eff.ret tt;
     createObjectURL := fun _ => Eff.ret (js "blob:1");
     parseTextContent := fun _ => Eff.throw (HostError "parse");
     createElement := fun _ => Eff.throw (HostError "createElement");
     assign := fun target _ _ _ => Eff.ret target;
     appendChild := fun _ => Eff.ret tt;
     click := fun _ => Eff.ret tt;
     revokeObjectURL := fun _ => Eff.ret tt;
     remove := fun _ => Eff.ret tt |}.

End Spec.

(** ** Auxiliary definitions for the proofs of Part II *)

Module Aux.
Import JS.

(** The characters of [Base64.encode] before the padding. *)
Fixpoint encodeUnpadded (bytes : list Z) : jsstring :=
  match bytes with
  | [] => []
  | [a] => [Base64.b64char (a / 4); Base64.b64char ((a mod 4) * 16)]
  | [a; b] =>
    [Base64.b64char (a / 4); Base64.b64char ((a mod 4) * 16 + b / 16);
     Base64.b64char ((b mod 16) * 4)]
  | a :: b :: c :: rest =>
    Base64.b64char (a / 4) :: Base64.b64char ((a mod 4) * 16 + b / 16) ::
    Base64.b64char ((b mod 16) * 4 + c / 64) :: Base64.b64char (c mod 64) ::
    encodeUnpadded rest
  end.

Definition isByte (c : Z) : bool := (0 <=? c) && (c <=? 255).

End Aux.

(** ** [src/components/auth/oauth-buttons.tsx] *)

Module OAuth.
Import JS Eff.
Local Open Scope eff_scope.

(** The argument of [toast]: the variant when given, the title, the
    description and the text of the action. *)
Record Toast := {
  variant : option jsstring;
  title : jsstring;
  description : jsstring;
  action : jsstring
}.

Inductive ToastMode := welcome | error.

Section Buttons.
(** The identity provider: [signIn(provider)] of [next-auth/react], with a
  state [Auth] of its own; its promise may reject. *)
Variable Auth : Type.
Variable signIn : jsstring -> M Auth unit.

(** The component: the provider, the two [useState] flags and the toasts
  shown so far. *)
Record Component := {
auth : Auth;
isGithubLoading : bool;
isGoogleLoading : bool;
toasts : list Toast
}.

Definition onAuth {A} (op : M Auth A) : M Component A :=
fun c =>
  let (r, a) := op (auth c) in
  (r, {| auth := a; isGithubLoading := isGithubLoading c;
         isGoogleLoading := isGoogleLoading c; toasts := toasts c |}).

Definition setIsGithubLoading (b : bool) : M Component unit :=
fun c =>
  (Normal tt,
   {| auth := auth c; isGithubLoading := b;
      isGoogleLoading := isGoogleLoading c; toasts := toasts c |}).

Definition setIsGoogleLoading (b : bool) : M Component unit :=
fun c =>
  (Normal tt,
   {| auth := auth c; isGithubLoading := isGithubLoading c;
      isGoogleLoading := b; toasts := toasts c |}).

(** [toast({...})] of [../ui/use-toast]: the toast is shown. *)
Definition toast (t : Toast) : M Component unit :=
fun c =>
  (Normal tt,
   {| auth := auth c; isGithubLoading := isGithubLoading c;
      isGoogleLoading := isGoogleLoading c; toasts := toasts c ++ [t] |}).

Definition welcomeToast : Toast :=
{| variant := None;
   title := js "Welcome!";
   description := js "You've successfully signed in.";
   action := js "Dismiss" |}.

Definition errorToast : Toast :=
{| variant := Some (js "destructive");
   title := js "Uh oh! Something went wrong.";
   description := js "There was a problem with your request.";
   action := js "Try again" |}.

(** [mode] is [None] for an argument left out; the default is
  ["welcome"]. *)
Definition toastNotifier (mode : option ToastMode) : M Component unit :=
match mode with
| None | Some welcome => toast welcomeToast
| Some error => toast errorToast
end.

Definition googleSignInHandler : M Component unit :=
setIsGoogleLoading true ;;;
try_catch
  (onAuth (signIn (js "google")) ;;; toastNotifier None)
  (fun _ => toastNotifier (Some error)) ;;;
setIsGoogleLoading false.

Definition githubSignInHandler : M Component unit :=
setIsGithubLoading true ;;;
try_catch
  (onAuth (signIn (js "github")) ;;; toastNotifier None)
  (fun _ => toastNotifier (Some error)) ;;;
setIsGithubLoading false.
End Buttons.

Arguments auth {Auth}.
Arguments isGithubLoading {Auth}.
Arguments isGoogleLoading {Auth}.
Arguments toasts {Auth}.
Arguments googleSignInHandler {Auth}.
Arguments githubSignInHandler {Auth}.

End OAuth.

(** ** Further definitions for Part II *)

Module More.
Import JS Utils.

(** The characters a slug can hold: a word character, a hyphen, or
    whitespace other than the space. *)
Definition slugChar (c : Z) : bool :=
  RegExp.class_w c || (c =? 45) || (RegExp.class_s c && negb (c =? 32)).

Definition isUpper (c : Z) : bool := (65 <=? c) && (c <=? 90).

(** A character of the Base64 alphabet, or the padding. *)
Definition base64Char (c : Z) : bool :=
  match Base64.b64val c with
  | Some _ => true
  | None => c =? 61
  end.

(** The index [getImage] reads for a quality. *)
Definition imageIndex (quality : option jsstring) : nat :=
  match quality with
  | Some q =>
    if str_eqb q (js "small") then 0
    else if str_eqb q (js "medium") then 1
    else 2
  | None => 2
  end.

(** [pat] occurs in [s] at no index below [k]. *)
Definition noOccurrenceBefore (pat s : jsstring) (k : nat) : Prop :=
  forall i, (i < k)%nat -> starts_with pat (skipn i s) = false.

(** [n] calls of [getHomeData] in a row: the results, oldest first, and
    the world they leave. *)
Fixpoint getHomeDataTimes {Album Song Playlist Chart : Type}
  (api : nat -> completion (option (HomeData Album Song Playlist Chart)))
  (n : nat) (w : World Album Song Playlist Chart)
  : list (completion (option (HomeView Album Song Playlist Chart))) *
    World Album Song Playlist Chart :=
  match n with
  | O => ([], w)
  | S n' =>
    let (r, w1) := getHomeData api w in
    let (rs, w2) := getHomeDataTimes api n' w1 in
    (r :: rs, w2)
  end.

(** *** [getHomeData] around its [await]

    A call runs at once up to the [await].  On a hit there is none: the
    call has then returned.  On a miss the request to the API has been
    made and the call is suspended until the answer to that request is
    there; it resumes in the world the other calls have left, with the
    [rootSlice] it read at its start, in which [homeData] is [null]. *)

Section Await.
Variables Album Song Playlist Chart : Type.
Variable api : nat -> completion (option (HomeData Album Song Playlist Chart)).

(** Where a call stands after its first step: it has returned, or it
  awaits the answer to request number [ticket]. *)
Inductive Started :=
| Returned (r : completion (option (HomeView Album Song Playlist Chart)))
| Awaiting (ticket : nat).

Definition getHomeData_start (w : World Album Song Playlist Chart)
: Started * World Album Song Playlist Chart :=
match homeData (root w) with
| Some cached => (Returned (Normal (Some (reshape cached))), w)
| None =>
  (Awaiting (apiCalls w), {| root := root w; apiCalls := S (apiCalls w) |})
end.

Definition getHomeData_resume (ticket : nat)
: Eff.M (World Album Song Playlist Chart)
        (option (HomeView Album Song Playlist Chart)) :=
(h <- Eff.lift (api ticket) ;;
 match h with
 | Some payload => dispatch (setHomeData payload)
 | None => Eff.ret tt
 end ;;;
 Eff.ret (match h with
          | Some payload => Some (reshape payload)
          | None => None
          end))%eff.
End Await.

Arguments Returned {Album Song Playlist Chart}.
Arguments Awaiting {Album Song Playlist Chart}.
Arguments getHomeData_start {Album Song Playlist Chart}.
Arguments getHomeData_resume {Album Song Playlist Chart}.

(** A provider that accepts every sign-in, and one that rejects every
    sign-in. *)
Definition accepting : jsstring -> Eff.M unit unit := fun _ => Eff.ret tt.
Definition rejecting : jsstring -> Eff.M unit unit :=
  fun _ => Eff.throw (HostError "OAuthSignin").

End More.

(** * Part II: verification *)

(** ** Strings and sets of strings *)

Module StringFacts.
Import JS.

Lemma str_eqb_eq (a b : jsstring) : str_eqb a b = true <-> a = b.
Proof.
  revert b; induction a as [|x a IH]; intros [|y b]; simpl;
    try (split; [discriminate | intros E; inversion E]); try tauto.
  rewrite andb_true_iff, Z.eqb_eq, IH.
  split; [intros [-> ->]; reflexivity | intros E; inversion E; auto].
Qed.

Lemma str_eqb_refl (a : jsstring) : str_eqb a a = true.
Proof. apply str_eqb_eq; reflexivity. Qed.

Lemma str_eqb_sym (a b : jsstring) : str_eqb a b = str_eqb b a.
Proof.
  destruct (str_eqb a b) eqn:E1, (str_eqb b a) eqn:E2; auto.
  - apply str_eqb_eq in E1; subst. rewrite str_eqb_refl in E2; discriminate.
  - apply str_eqb_eq in E2; subst. rewrite str_eqb_refl in E1; discriminate.
Qed.

Lemma str_eqb_neq (a b : jsstring) : str_eqb a b = false <-> a <> b.
Proof.
  rewrite <- str_eqb_eq. destruct (str_eqb a b); split; congruence.
Qed.

Lemma has_In (x : jsstring) (s : StrSet.t) : StrSet.has x s = true <-> In x s.
Proof.
  unfold StrSet.has. rewrite existsb_exists. split.
  - intros [y [Hy E]]. apply str_eqb_eq in E; subst; assumption.
  - intros H. exists x. split; [assumption | apply str_eqb_refl].
Qed.

Lemma has_app (x : jsstring) (s1 s2 : StrSet.t) :
  StrSet.has x (s1 ++ s2) = StrSet.has x s1 || StrSet.has x s2.
Proof. unfold StrSet.has. apply existsb_app. Qed.

(** *** [split] and [join] *)

Lemma starts_with_app (p s : jsstring) :
  starts_with p s = true -> exists s2, s = p ++ s2.
Proof.
  revert s; induction p as [|a p IH]; intros s H.
  - exists s; reflexivity.
  - destruct s as [|b s]; simpl in H; [discriminate|].
    apply andb_true_iff in H as [E H]. apply Z.eqb_eq in E; subst b.
    destruct (IH _ H) as [s2 ->]. exists s2; reflexivity.
Qed.

Lemma split_from_skip (sep t s2 cur : jsstring) :
  split_from sep (t ++ s2) (List.length t) cur = split_from sep s2 0 cur.
Proof.
  induction t as [|c t IH]; simpl; [reflexivity | exact IH].
Qed.

Lemma split_from_nonempty (sep s : jsstring) (k : nat) (cur : jsstring) :
  split_from sep s k cur <> [].
Proof.
  revert k cur; induction s as [|c s IH]; intros k cur; simpl.
  - discriminate.
  - destruct k; [destruct (starts_with sep (c :: s))|]; try discriminate;
      apply IH.
Qed.

Lemma join_cons (sep x : jsstring) (l : list jsstring) :
  l <> [] -> join sep (x :: l) = x ++ sep ++ join sep l.
Proof. destruct l; [congruence | reflexivity]. Qed.

Lemma join_split_from (sep : jsstring) (n : nat) :
  sep <> [] ->
  forall s cur, (List.length s <= n)%nat ->
    join sep (split_from sep s 0 cur) = rev cur ++ s.
Proof.
  intros Hsep. induction n as [|n IH]; intros s cur Hlen.
  - destruct s; [|simpl in Hlen; lia]. simpl. rewrite app_nil_r; reflexivity.
  - destruct s as [|c s]; [simpl; rewrite app_nil_r; reflexivity|].
    cbn [split_from]. destruct (starts_with sep (c :: s)) eqn:E.
    + destruct (starts_with_app _ _ E) as [s2 E2].
      destruct sep as [|a t]; [congruence|].
      simpl in E2. inversion E2; subst a s.
      replace (List.length (c :: t) - 1)%nat with (List.length t)
        by (simpl; lia).
      rewrite split_from_skip.
      rewrite join_cons by apply split_from_nonempty.
      rewrite IH by (simpl in Hlen; rewrite length_app in Hlen; lia).
      simpl. reflexivity.
    + rewrite IH by (simpl in Hlen; lia). simpl.
      rewrite <- app_assoc. reflexivity.
Qed.

(** Joining the pieces of a split with the separator gives the string
    back. *)
Lemma join_split (sep s : jsstring) :
  sep <> [] -> join sep (split sep s) = s.
Proof.
  intros Hsep. unfold split. destruct sep as [|a t]; [congruence|].
  apply (join_split_from (a :: t) (List.length s) Hsep s []). lia.
Qed.

End StringFacts.

(** ** Artist Resolver *)

Module ArtistFacts.
Import JS Utils Spec StringFacts.

Lemma filter_filter {A} (f g : A -> bool) (l : list A) :
  filter f (filter g l) = filter (fun x => g x && f x) l.
Proof.
  induction l as [|x l IH]; simpl; [reflexivity|].
  destruct (g x); simpl; [destruct (f x)|]; rewrite IH; reflexivity.
Qed.

Lemma filter_all {A} (f : A -> bool) (l : list A) :
  (forall x, In x l -> f x = true) -> filter f l = l.
Proof.
  induction l as [|x l IH]; intros H; simpl; [reflexivity|].
  rewrite (H x (or_introl eq_refl)), IH; auto.
  intros y Hy; apply H; right; assumption.
Qed.

(** Adding the elements of [l] one by one to a set [acc] appends, in
    order, the first occurrences that [acc] does not have. *)
Lemma fold_add (l : list jsstring) :
  forall acc : StrSet.t,
    fold_left (fun set artist => StrSet.add artist set) l acc =
    acc ++ filter (fun y => negb (StrSet.has y acc)) (dedupFirst l).
Proof.
  induction l as [|x l IH]; intros acc; simpl.
  - rewrite app_nil_r; reflexivity.
  - unfold StrSet.add at 2. destruct (StrSet.has x acc) eqn:Hx; simpl.
    + rewrite IH, filter_filter. f_equal. apply filter_ext. intros y.
      destruct (str_eqb x y) eqn:E; simpl; [|reflexivity].
      apply str_eqb_eq in E; subst y. rewrite Hx; reflexivity.
    + rewrite IH, <- app_assoc, filter_filter. simpl. do 2 f_equal.
      apply filter_ext. intros y. rewrite has_app. simpl.
      rewrite orb_false_r, negb_orb, (str_eqb_sym y x). apply andb_comm.
Qed.

Lemma fold_add_empty (l : list jsstring) :
  fold_left (fun set artist => StrSet.add artist set) l StrSet.empty =
  dedupFirst l.
Proof.
  rewrite fold_add. simpl. apply filter_all. reflexivity.
Qed.

Lemma addArtistsToList_fold (f : ArtistField) (acc : StrSet.t) :
  addArtistsToList (getArtistsFromList f) acc =
  fold_left (fun set artist => StrSet.add artist set) (fieldNames f) acc.
Proof. destruct f as [[|c s]|l|]; reflexivity. Qed.

(** *** What [dedupFirst] is *)

Lemma dedupFirst_In (x : jsstring) (l : list jsstring) :
  In x (dedupFirst l) <-> In x l.
Proof.
  induction l as [|y l IH]; simpl; [tauto|].
  rewrite filter_In, IH, negb_true_iff, str_eqb_neq.
  destruct (list_eq_dec Z.eq_dec y x); [tauto|]. intuition congruence.
Qed.

Lemma NoDup_filter {A} (f : A -> bool) (l : list A) :
  NoDup l -> NoDup (filter f l).
Proof.
  induction 1 as [|x l Hx Hl IH]; simpl; [constructor|].
  destruct (f x); [constructor|]; auto.
  rewrite filter_In; tauto.
Qed.

Lemma dedupFirst_NoDup (l : list jsstring) : NoDup (dedupFirst l).
Proof.
  induction l as [|x l IH]; simpl; constructor.
  - rewrite filter_In, str_eqb_refl. simpl. intros [_ H]; discriminate.
  - apply NoDup_filter; assumption.
Qed.

(** A list without repetitions is left as it is: nothing is reordered. *)
Lemma dedupFirst_id (l : list jsstring) : NoDup l -> dedupFirst l = l.
Proof.
  induction 1 as [|x l Hx Hl IH]; simpl; [reflexivity|].
  rewrite IH. f_equal. apply filter_all. intros y Hy.
  apply negb_true_iff, str_eqb_neq. congruence.
Qed.

(** The first occurrence decides the position: what comes before the
    first occurrence of [x] is deduplicated on its own, then comes [x]. *)
Lemma dedupFirst_app (l1 l2 : list jsstring) :
  dedupFirst (l1 ++ l2) =
  dedupFirst l1 ++
  filter (fun y => negb (StrSet.has y (dedupFirst l1))) (dedupFirst l2).
Proof.
  rewrite <- fold_add_empty, fold_left_app, fold_add_empty, fold_add.
  reflexivity.
Qed.

End ArtistFacts.

(** ** What splitting on [", "] is *)

Module SplitFacts.
Import JS Spec StringFacts.

Lemma separator : js ", " = [44; 32].
Proof. reflexivity. Qed.

Lemma starts_with_separator (c : Z) (s : jsstring) :
  starts_with [44; 32] (c :: s) =
  (44 =? c) && match s with
               | d :: _ => 32 =? d
               | [] => false
               end.
Proof. destruct s as [|d s]; simpl; [|rewrite andb_true_r]; reflexivity. Qed.

Lemma includes_cons (c : Z) (x : jsstring) :
  includes [44; 32] (c :: x) = starts_with [44; 32] (c :: x) || includes [44; 32] x.
Proof. reflexivity. Qed.

Lemma separatorFree_tail (c : Z) (x : jsstring) :
  separatorFree (c :: x) -> separatorFree x.
Proof.
  unfold separatorFree. rewrite separator, includes_cons.
  intros H. apply orb_false_iff in H. tauto.
Qed.

(** A piece that holds no separator stays so with one more character,
    unless a comma gets its space. *)
Lemma separatorFree_snoc (x : jsstring) (c : Z) :
  separatorFree x ->
  (forall y, x = y ++ [44] -> c <> 32) ->
  separatorFree (x ++ [c]).
Proof.
  unfold separatorFree. rewrite separator.
  induction x as [|d x IH]; intros Hx Hlast.
  - simpl. rewrite andb_false_r. reflexivity.
  - cbn [app]. rewrite includes_cons in *. apply orb_false_iff in Hx as [H1 H2].
    apply orb_false_iff. split.
    + rewrite starts_with_separator in *. destruct x as [|e x]; [|exact H1].
      cbn [app]. destruct (Z.eqb_spec 44 d) as [<- | Hd]; [|reflexivity].
      cbn [andb]. apply Z.eqb_neq. intros E. apply (Hlast []); auto.
    + apply IH; [exact H2|]. intros y ->. apply (Hlast (d :: y)). reflexivity.
Qed.

(** Every piece that [split] gives is free of the separator. *)
Lemma split_from_free (s : jsstring) :
  forall (skip : nat) (cur : jsstring),
    separatorFree (rev cur) ->
    match skip with
    | O => forall cur' d s', cur = 44 :: cur' -> s = d :: s' -> d <> 32
    | S _ => cur = []
    end ->
    Forall separatorFree (split_from (js ", ") s skip cur).
Proof.
  rewrite separator.
  induction s as [|c s IH]; intros skip cur Hfree Hinv.
  - destruct skip; repeat constructor; assumption.
  - cbn [split_from]. destruct skip as [|k].
    + destruct (starts_with [44; 32] (c :: s)) eqn:E.
      * constructor; [assumption|]. apply IH; reflexivity.
      * apply IH.
        -- cbn [rev]. apply separatorFree_snoc; [assumption|].
           intros y Hy. apply (f_equal (@rev Z)) in Hy.
           rewrite rev_involutive, rev_app_distr in Hy. cbn in Hy.
           eapply Hinv; [exact Hy | reflexivity].
        -- intros cur' d s' Hc Hs. injection Hc as Hc _. subst c s.
           rewrite starts_with_separator, Z.eqb_refl in E. cbn [andb] in E.
           apply Z.eqb_neq in E. congruence.
    + subst cur. apply IH; [reflexivity|]. destruct k; [|reflexivity].
      intros cur' d s' Hc. discriminate Hc.
Qed.

Lemma split_free (s : jsstring) : Forall separatorFree (split (js ", ") s).
Proof.
  apply (split_from_free s 0 []); [reflexivity|].
  intros cur' d s' Hc. discriminate Hc.
Qed.

(** The scan goes through a piece that is free of the separator, when
    what follows does not begin with a space. *)
Lemma split_from_piece (x : jsstring) :
  forall (r cur : jsstring),
    separatorFree x ->
    (forall r', r <> 32 :: r') ->
    split_from (js ", ") (x ++ r) 0 cur =
    split_from (js ", ") r 0 (rev x ++ cur).
Proof.
  rewrite separator.
  induction x as [|c x IH]; intros r cur Hfree Hr; [reflexivity|].
  cbn [app split_from].
  assert (E : starts_with [44; 32] (c :: x ++ r) = false).
  { unfold separatorFree in Hfree. rewrite separator, includes_cons in Hfree.
    apply orb_false_iff in Hfree as [H1 _].
    rewrite starts_with_separator in *. destruct x as [|e x]; [|exact H1].
    cbn [app]. destruct r as [|d r]; [apply andb_false_r|].
    destruct (Z.eqb_spec 32 d) as [<- | Hd]; [|apply andb_false_r].
    exfalso. apply (Hr r). reflexivity. }
  rewrite E, IH by (try assumption; eapply separatorFree_tail; eassumption).
  cbn [rev]. rewrite <- app_assoc. reflexivity.
Qed.

Lemma split_from_join (l : list jsstring) :
  forall (x cur : jsstring),
    Forall separatorFree (x :: l) ->
    split_from (js ", ") (join (js ", ") (x :: l)) 0 cur = (rev cur ++ x) :: l.
Proof.
  induction l as [|y l IH]; intros x cur Hfree.
  - cbn [join]. rewrite <- (app_nil_r x) at 1.
    rewrite split_from_piece;
      [|inversion Hfree; assumption | intros r' Hr; discriminate Hr].
    cbn [split_from]. rewrite rev_app_distr, rev_involutive. reflexivity.
  - rewrite join_cons by discriminate.
    rewrite split_from_piece;
      [|inversion Hfree; assumption | intros r' Hr; discriminate Hr].
    rewrite separator at 1 2. cbn [app split_from starts_with].
    rewrite !Z.eqb_refl. cbn [andb List.length Nat.sub].
    rewrite <- separator, IH by (inversion Hfree; assumption).
    rewrite rev_app_distr, rev_involutive. reflexivity.
Qed.

(** Splitting undoes joining: pieces that are free of the separator are
    given back as they are. *)
Lemma split_join (l : list jsstring) :
  l <> [] -> Forall separatorFree l ->
  split (js ", ") (join (js ", ") l) = l.
Proof.
  intros Hne Hfree. destruct l as [|x l]; [congruence|].
  apply (split_from_join l x [] Hfree).
Qed.

(** So [split] is the one way of splitting on the separator. *)
Lemma splitOn_split (s : jsstring) : splitOn s (split (js ", ") s).
Proof.
  split; [apply split_from_nonempty|].
  split; [apply split_free | apply join_split; discriminate].
Qed.

Lemma splitOn_unique (s : jsstring) (pieces : list jsstring) :
  splitOn s pieces -> split (js ", ") s = pieces.
Proof.
  intros (Hne & Hfree & <-). apply split_join; assumption.
Qed.

End SplitFacts.

Module ArtistProps.
Import JS Utils Spec StringFacts ArtistFacts SplitFacts.

(** The three [addArtistsToList] calls build the set of the concatenated
    names, whatever the shape of the fields. *)
Lemma getArtists_eq_resolveArtists (item : Item) :
  getArtists item = resolveArtists item.
Proof.
  unfold getArtists, resolveArtists, StrSet.to_array.
  rewrite !addArtistsToList_fold, <- !fold_left_app, fold_add_empty.
  reflexivity.
Qed.



(** [getArtistIds] as the spread of its three parts. *)
Lemma getArtistIds_parts (item : Item) :
  getArtistIds item =
  split (js ", ") (primaryArtistsId item) ++
  structuredUrls (primaryArtists item) ++
  structuredUrls (featuredArtists item).
Proof.
  destruct item as [a p f ids]. unfold getArtistIds. simpl.
  destruct p, f; reflexivity.
Qed.

(** C2.  [getArtistIds] does not read [artists]; it returns the pieces of
    [primaryArtistsId] split on [", "], then the urls of [primaryArtists]
    when that is a list, then the urls of [featuredArtists] when that is a
    list, all occurrences kept; a field that is a string gives no id.
    The pieces are stated without the code's [split]: they are the one
    non-empty list of strings holding no [", "] that joined by [", "] give
    [primaryArtistsId], and every string has such a list.  So "1, 2, 1"
    with the urls u1, u2 and again u1 gives 1, 2, 1, u1, u2, u1, and
    "1,2", which has no separator, stays one id. *)
Theorem getArtistIds_concatenates :
  (forall (item : Item) (pieces : list jsstring),
     splitOn (primaryArtistsId item) pieces ->
     getArtistIds item =
     pieces ++
     structuredUrls (primaryArtists item) ++
     structuredUrls (featuredArtists item)) /\
  (forall ids : jsstring, exists pieces, splitOn ids pieces) /\
  (forall (a a' p f : ArtistField) (ids : jsstring),
     getArtistIds {| artists := a; primaryArtists := p;
                     featuredArtists := f; primaryArtistsId := ids |} =
     getArtistIds {| artists := a'; primaryArtists := p;
                     featuredArtists := f; primaryArtistsId := ids |}) /\
  (forall (a : ArtistField) (lp lf : list AlbumArtist)
          (ids : jsstring) (pieces : list jsstring),
     splitOn ids pieces ->
     getArtistIds {| artists := a; primaryArtists := ArtistList lp;
                     featuredArtists := ArtistList lf;
                     primaryArtistsId := ids |} =
     pieces ++ map url lp ++ map url lf) /\
  (forall (a : ArtistField) (sp sf : jsstring)
          (ids : jsstring) (pieces : list jsstring),
     splitOn ids pieces ->
     getArtistIds {| artists := a; primaryArtists := ArtistString sp;
                     featuredArtists := ArtistString sf;
                     primaryArtistsId := ids |} =
     pieces) /\
  (forall a : ArtistField,
     getArtistIds
       {| artists := a;
          primaryArtists := ArtistList [ {| name := js "A"; url := js "u1" |};
                                         {| name := js "B"; url := js "u2" |} ];
          featuredArtists := ArtistList [ {| name := js "A"; url := js "u1" |} ];
          primaryArtistsId := js "1, 2, 1" |} =
     [js "1"; js "2"; js "1"; js "u1"; js "u2"; js "u1"]) /\
  (forall a : ArtistField,
     getArtistIds
       {| artists := a;
          primaryArtists := ArtistString (js "u1, u2");
          featuredArtists := ArtistList [ {| name := js "C"; url := js "u3" |} ];
          primaryArtistsId := js "1,2" |} =
     [js "1,2"; js "u3"]).
Proof.
  assert (Hparts : forall (item : Item) (pieces : list jsstring),
             splitOn (primaryArtistsId item) pieces ->
             getArtistIds item =
             pieces ++
             structuredUrls (primaryArtists item) ++
             structuredUrls (featuredArtists item)).
  { intros item pieces H. rewrite getArtistIds_parts.
    rewrite (splitOn_unique _ _ H). reflexivity. }
  split; [exact Hparts|].
  split; [intros ids; exists (split (js ", ") ids); apply splitOn_split|].
  split; [intros; rewrite !getArtistIds_parts; reflexivity|].
  split.
  { intros a lp lf ids pieces H.
    apply (Hparts {| artists := a; primaryArtists := ArtistList lp;
                     featuredArtists := ArtistList lf;
                     primaryArtistsId := ids |} pieces H). }
  split.
  - intros a sp sf ids pieces H.
    rewrite (Hparts {| artists := a; primaryArtists := ArtistString sp;
                       featuredArtists := ArtistString sf;
                       primaryArtistsId := ids |} pieces H).
    cbn. apply app_nil_r.
  - split; intros a; reflexivity.
Qed.

Lemma getArtistIds_concatenates_witness :
  getArtistIds
    {| artists := ArtistMissing;
       primaryArtists := ArtistList [ {| name := js "Pritam"; url := js "/p" |} ];
       featuredArtists := ArtistString (js "Arijit Singh");
       primaryArtistsId := js "456323, 459320" |} =
  [js "456323"; js "459320"; js "/p"].
Proof.
  apply (proj1 getArtistIds_concatenates
           {| artists := ArtistMissing;
              primaryArtists := ArtistList [ {| name := js "Pritam"; url := js "/p" |} ];
              featuredArtists := ArtistString (js "Arijit Singh");
              primaryArtistsId := js "456323, 459320" |}
           [js "456323"; js "459320"]).
  split; [discriminate|]. split; [|reflexivity].
  repeat constructor.
Defined.

End ArtistProps.

(** ** Image Selector *)

Module ImageProps.
Import JS Utils StringFacts.

(** C8.  A boolean image gives the placeholder path.  For a list of three
    variants, [getImage] returns the link at index 0 for "small", at index
    1 for "medium", and at index 2 for "large", for a quality that is left
    out and for any other quality. *)
Theorem getImage_selects :
  (forall (b : bool) (q : option jsstring),
     getImage (ImageFlag b) q = Normal (js "/images/logo512.png")) /\
  (forall v0 v1 v2 : QualityLink,
     getImage (ImageList [v0; v1; v2]) (Some (js "small")) = Normal (link v0) /\
     getImage (ImageList [v0; v1; v2]) (Some (js "medium")) = Normal (link v1) /\
     getImage (ImageList [v0; v1; v2]) (Some (js "large")) = Normal (link v2) /\
     getImage (ImageList [v0; v1; v2]) None = Normal (link v2) /\
     (forall q : jsstring,
        q <> js "small" -> q <> js "medium" -> q <> js "large" ->
        getImage (ImageList [v0; v1; v2]) (Some q) = Normal (link v2))).
Proof.
  split; [reflexivity|].
  intros v0 v1 v2. repeat split.
  intros q Hs Hm Hl. unfold getImage.
  apply str_eqb_neq in Hs, Hm, Hl. rewrite Hs, Hm, Hl. reflexivity.
Qed.

Lemma getImage_selects_witness :
  getImage
    (ImageList [ {| quality := js "50x50"; link := js "s" |};
                 {| quality := js "150x150"; link := js "m" |};
                 {| quality := js "500x500"; link := js "l" |} ])
    (Some (js "huge")) = Normal (js "l").
Proof.
  apply (proj2 getImage_selects); intros E; discriminate E.
Defined.

End ImageProps.

(** ** Slugs *)

Module ClearUrlProps.
Import JS Utils.

(** C6, as the specification states it, fails: two spaces give two hyphens
    and these are collapsed into one.  The string is ASCII, so the host's
    Unicode lower-casing plays no part. *)
Lemma clearUrl_two_spaces_not_double_hyphen :
  clearUrl (fun s => s) (js "A  B") <> js "a--b".
Proof. vm_compute. intros E; discriminate E. Qed.

(** C6, amended.  [clearUrl] maps "Hello, World!" to "hello-world" and
    "A  B" (two spaces) to "a-b"; it is with three spaces, "A   B", that
    the single pass over the hyphens leaves a double hyphen, "a--b". *)
Theorem clearUrl_examples :
  forall unicodeLower : jsstring -> jsstring,
    clearUrl unicodeLower (js "Hello, World!") = js "hello-world" /\
    clearUrl unicodeLower (js "A  B") = js "a-b" /\
    clearUrl unicodeLower (js "A   B") = js "a--b".
Proof. intros; repeat split; reflexivity. Qed.

End ClearUrlProps.

(** ** Runs of spaces in a slug *)

Module ClearUrlFacts.
Import JS Utils.

(** Hyphens are collapsed pairwise in one pass: a run of [n] becomes a run
    of [n/2] rounded up. *)
Lemma collapse_hyphen_run (k : nat) :
  forall (n : nat) (rest : jsstring),
    (n <= k)%nat ->
    starts_with (js "-") rest = false ->
    replaceAll (js "--") (js "-") (repeat 45 n ++ rest) =
    repeat 45 ((n + 1) / 2) ++ replaceAll (js "--") (js "-") rest.
Proof.
  induction k as [|k IH]; intros n rest Hn Hrest.
  { assert (n = 0%nat) by lia. subst n. reflexivity. }
  destruct n as [|[|n]].
  - reflexivity.
  - unfold replaceAll. cbn [js list_ascii_of_string map].
    cbn [repeat app replaceAll_from].
    change (Z.of_N (N_of_ascii "-")) with 45 in *.
    cbn [starts_with]. cbn [js list_ascii_of_string map starts_with] in Hrest.
    change (Z.of_N (N_of_ascii "-")) with 45 in *.
    destruct rest as [|c rest]; [reflexivity|].
    rewrite Hrest. reflexivity.
  - specialize (IH n rest ltac:(lia) Hrest).
    replace ((S (S n) + 1) / 2)%nat with (S ((n + 1) / 2))
      by (replace (S (S n) + 1)%nat with ((n + 1) + 1 * 2)%nat by lia;
          rewrite Nat.div_add by lia; lia).
    cbn [repeat app]. rewrite <- IH. reflexivity.
Qed.

Lemma flat_map_repeat {A B} (f : A -> list B) (x : A) (n : nat) (y : B) :
  f x = [y] -> flat_map f (repeat x n) = repeat y n.
Proof. intros E. induction n; simpl; [reflexivity|]. rewrite E, IHn. reflexivity. Qed.

Lemma replace_spaces_run (n : nat) (rest : jsstring) :
  replaceAll (js " ") (js "-") (repeat 32 n ++ rest) =
  repeat 45 n ++ replaceAll (js " ") (js "-") rest.
Proof.
  induction n as [|n IH]; [reflexivity|].
  cbn [repeat app]. rewrite <- IH. reflexivity.
Qed.

(** A run of [n] spaces between two letters becomes [n/2] rounded up
    hyphens: one for one or two spaces, two for three or four. *)
Lemma clearUrl_space_run (unicodeLower : jsstring -> jsstring) (n : nat) :
  clearUrl unicodeLower (js "A" ++ repeat 32 n ++ js "B") =
  js "a" ++ repeat 45 ((n + 1) / 2) ++ js "b".
Proof.
  unfold clearUrl, Case.toLowerCase.
  assert (Hascii : forallb Case.isASCII (js "A" ++ repeat 32 n ++ js "B") = true).
  { rewrite !forallb_app. cbn [js list_ascii_of_string map forallb].
    replace (forallb Case.isASCII (repeat 32 n)) with true; [reflexivity|].
    symmetry. apply forallb_forall. intros c Hc.
    apply repeat_spec in Hc. subst c. reflexivity. }
  rewrite Hascii, !map_app, map_repeat.
  unfold RegExp.replaceClassGlobal. rewrite !flat_map_app.
  rewrite (flat_map_repeat _ _ n 32) by reflexivity.
  change (map Case.asciiLower (js "A")) with (js "a").
  change (map Case.asciiLower (js "B")) with (js "b").
  change (Case.asciiLower 32) with 32.
  change (flat_map _ (js "a")) with (js "a").
  change (flat_map _ (js "b")) with (js "b").
  change (js "a" ++ repeat 32 n ++ js "b") with (97 :: (repeat 32 n ++ js "b")).
  change (replaceAll (js " ") (js "-") (97 :: repeat 32 n ++ js "b"))
    with (97 :: replaceAll (js " ") (js "-") (repeat 32 n ++ js "b")).
  rewrite replace_spaces_run.
  change (replaceAll (js " ") (js "-") (js "b")) with (js "b").
  change (replaceAll (js "--") (js "-") (97 :: repeat 45 n ++ js "b"))
    with (97 :: replaceAll (js "--") (js "-") (repeat 45 n ++ js "b")).
  rewrite (collapse_hyphen_run n) by (reflexivity || lia).
  reflexivity.
Qed.

End ClearUrlFacts.

(** ** Home-Data Cache Accessor *)

Module HomeDataProps.
Import JS Utils.

Section Cache.
Context {Album Song Playlist Chart : Type}.
Variable api : nat -> completion (option (HomeData Album Song Playlist Chart)).

Let world := World Album Song Playlist Chart.

(** A miss calls the API once, whatever comes back. *)
Lemma getHomeData_miss_calls_once (w : world) :
  homeData (root w) = None ->
  apiCalls (snd (getHomeData api w)) = S (apiCalls w).
Proof.
  intros Hmiss. unfold getHomeData, Eff.seq, getState, api_getHomeData.
  rewrite Hmiss. simpl. destruct (api (apiCalls w)) as [[p|]|e]; reflexivity.
Qed.

(** A rejected call leaves the store as it was and the rejection goes to
    the caller. *)
Lemma getHomeData_miss_rejected (w : world) (e : exn) :
  homeData (root w) = None ->
  api (apiCalls w) = Throw e ->
  getHomeData api w =
  (Throw e, {| root := root w; apiCalls := S (apiCalls w) |}).
Proof.
  intros Hmiss Hapi. unfold getHomeData, Eff.seq, getState, api_getHomeData.
  rewrite Hmiss, Hapi. reflexivity.
Qed.

(** C3.  With an empty cache a call performs exactly one API fetch and,
    the payload being there, stores it in the cache; with the cache
    populated a call performs no fetch; in both cases the result is the
    payload reshaped: [trending] is the trending albums followed by the
    trending songs, and [albums], [playlists], [charts] are passed
    through.  Hence a first and a second call fetch once in all and
    return the same view. *)
Theorem getHomeData_cache :
  (forall w : world,
     homeData (root w) = None ->
     apiCalls (snd (getHomeData api w)) = S (apiCalls w) /\
     forall payload,
       api (apiCalls w) = Normal (Some payload) ->
       getHomeData api w =
       (Normal (Some (reshape payload)),
        {| root := {| homeData := Some payload |};
           apiCalls := S (apiCalls w) |})) /\
  (forall (w : world) payload,
     homeData (root w) = Some payload ->
     getHomeData api w = (Normal (Some (reshape payload)), w)) /\
  (forall payload : HomeData Album Song Playlist Chart,
     trending (reshape payload) =
       map inl (t_albums (hd_trending payload)) ++
       map inr (t_songs (hd_trending payload)) /\
     albums (reshape payload) = hd_albums payload /\
     playlists (reshape payload) = hd_playlists payload /\
     charts (reshape payload) = hd_charts payload) /\
  (forall (w : world) payload,
     homeData (root w) = None ->
     api (apiCalls w) = Normal (Some payload) ->
     let (first, w1) := getHomeData api w in
     let (second, w2) := getHomeData api w1 in
     first = Normal (Some (reshape payload)) /\
     second = Normal (Some (reshape payload)) /\
     homeData (root w1) = Some payload /\
     apiCalls w1 = S (apiCalls w) /\
     apiCalls w2 = apiCalls w1).
Proof.
  assert (Hit : forall (w : world) payload,
             homeData (root w) = Some payload ->
             getHomeData api w = (Normal (Some (reshape payload)), w)).
  { intros w payload Hhit. unfold getHomeData, Eff.seq, getState.
    rewrite Hhit. reflexivity. }
  assert (Miss : forall (w : world) payload,
             homeData (root w) = None ->
             api (apiCalls w) = Normal (Some payload) ->
             getHomeData api w =
             (Normal (Some (reshape payload)),
              {| root := {| homeData := Some payload |};
                 apiCalls := S (apiCalls w) |})).
  { intros w payload Hmiss Hapi.
    unfold getHomeData, Eff.seq, getState, api_getHomeData.
    rewrite Hmiss, Hapi. reflexivity. }
  repeat split.
  - apply getHomeData_miss_calls_once; assumption.
  - intros payload Hapi. apply Miss; assumption.
  - exact Hit.
  - intros w payload Hmiss Hapi. rewrite (Miss w payload Hmiss Hapi).
    rewrite Hit with (payload := payload) by reflexivity.
    simpl. repeat split.
Qed.
End Cache.

Lemma getHomeData_cache_witness :
  let payload : HomeData nat nat nat nat :=
    {| hd_trending := {| t_albums := [1%nat]; t_songs := [2%nat; 3%nat] |};
       hd_albums := [4%nat]; hd_playlists := []; hd_charts := [5%nat] |} in
  let api := fun _ : nat => Normal (Some payload) in
  let w0 := {| root := {| homeData := None |}; apiCalls := 0 |} in
  getHomeData api w0 =
    (Normal (Some {| trending := [inl 1%nat; inr 2%nat; inr 3%nat];
                     albums := [4%nat]; playlists := []; charts := [5%nat] |}),
     {| root := {| homeData := Some payload |}; apiCalls := 1 |}) /\
  getHomeData api {| root := {| homeData := Some payload |}; apiCalls := 1 |} =
    (Normal (Some (reshape payload)),
     {| root := {| homeData := Some payload |}; apiCalls := 1 |}).
Proof.
  intros payload api w0. split.
  - apply (proj2 (proj1 (getHomeData_cache api) w0 eq_refl) payload eq_refl).
  - apply (proj1 (proj2 (getHomeData_cache api))). reflexivity.
Defined.

End HomeDataProps.

(** ** Download Resolver *)

Module DownloadProps.
Import JS Utils Eff Spec.

Section Frame.
Context {Browser Response Blob Anchor : Type}.
Variable host : Host Browser Response Blob Anchor.

Lemma quiet_onBrowser {A} (op : M Browser A) : quiet (onBrowser op).
Proof.
  intros p. unfold onBrowser. destruct (op (browser p)); simpl; auto.
Qed.

Lemma quiet_seq {A B} (c : M (Page Browser) A) (k : A -> M (Page Browser) B) :
  quiet c -> (forall a, quiet (k a)) -> quiet (seq c k).
Proof.
  intros Hc Hk p. unfold seq. specialize (Hc p).
  destruct (c p) as [[a|e] p1]; simpl in *; [|assumption].
  destruct (Hk a p1) as [H1 H2]. destruct Hc as [H3 H4].
  split; congruence.
Qed.

Lemma quiet_downloadAttempt (song : Song) (l : jsstring) :
  quiet (downloadAttempt host song l).
Proof.
  unfold downloadAttempt, decodeHtml.
  repeat (apply quiet_seq; [apply quiet_onBrowser | intros ?]).
  apply quiet_onBrowser.
Qed.

(** C9.  For a song that has its lowest-quality download link, whatever
    the fetch, the blob decoding and the saving steps do, [downloadSong]
    completes normally: a failure of the attempt is caught and logged on
    the console, once, with the exception; without a failure nothing is
    logged; and no notification is shown to the user. *)
Theorem downloadSong_absorbs_failures :
  forall (song : Song) (quality : SongQuality) (p : Page Browser)
         (first : QualityLink) (others : list QualityLink),
    downloadUrl song = first :: others ->
    exists p',
      downloadSong host song quality p = (Normal tt, p') /\
      toasts p' = toasts p /\
      match downloadAttempt host song (linkFor first quality) p with
      | (Normal _, p1) => p' = p1 /\ console p' = console p
      | (Throw e, p1) =>
        browser p' = browser p1 /\
        console p' = console p ++ [(errorMessage, e)]
      end.
Proof.
  intros song quality p first others Hurl.
  unfold downloadSong, seq, lift, try_catch, linkAt. rewrite Hurl. simpl.
  fold (linkFor first quality).
  destruct (quiet_downloadAttempt song (linkFor first quality) p) as [Hc Ht].
  destruct (downloadAttempt host song (linkFor first quality) p)
    as [[[]|e] p1]; simpl in *.
  - exists p1. auto.
  - eexists. split; [reflexivity|]. simpl. rewrite Hc. auto.
Qed.

(** Reading the first download link is outside the [try]: without one the
    exception reaches the caller. *)
Lemma downloadSong_without_link (song : Song) (quality : SongQuality)
      (p : Page Browser) :
  downloadUrl song = [] ->
  downloadSong host song quality p = (Throw TypeError, p).
Proof.
  intros Hurl. unfold downloadSong, seq, lift, linkAt. rewrite Hurl.
  reflexivity.
Qed.

(** The element is created before the name is decoded: when
    [document.createElement] throws, [decodeHtml] is not reached, and the
    exception that is logged is the one of [createElement]. *)
Lemma downloadSong_createElement_first (song : Song) (quality : SongQuality)
      (p : Page Browser) (first : QualityLink) (others : list QualityLink)
      (response : Response) (blob : Blob) (url : jsstring) (e : exn)
      (b1 b2 b3 b4 : Browser) :
  downloadUrl song = first :: others ->
  fetch host (linkFor first quality) (browser p) = (Normal response, b1) ->
  response_blob host response b1 = (Normal blob, b2) ->
  createObjectURL host blob b2 = (Normal url, b3) ->
  createElement host (js "a") b3 = (Throw e, b4) ->
  downloadSong host song quality p =
  (Normal tt,
   {| browser := b4;
      console := console p ++ [(errorMessage, e)];
      toasts := toasts p |}).
Proof.
  intros Hurl Hfetch Hblob Hurl' Helem.
  unfold downloadSong, seq, lift, try_catch, linkAt. rewrite Hurl. simpl.
  fold (linkFor first quality).
  unfold downloadAttempt, seq, onBrowser. cbn [browser console toasts].
  rewrite Hfetch. cbn [browser console toasts].
  rewrite Hblob. cbn [browser console toasts].
  rewrite Hurl'. cbn [browser console toasts].
  rewrite Helem. reflexivity.
Qed.
End Frame.

(** With a document in which both [createElement] and the parser throw,
    it is the failure of [createElement] that is logged. *)
Lemma downloadSong_logs_createElement :
  downloadSong brokenDocument
    {| song_name := js "Tum Hi Ho"; song_year := js "2013";
       downloadUrl := [ {| quality := js "12kbps";
                           link := js "https://aac.saavncdn.com/1_12.mp4" |} ] |}
    high {| browser := tt; console := []; toasts := [] |} =
  (Normal tt,
   {| browser := tt;
      console := [(errorMessage, HostError "createElement")];
      toasts := [] |}).
Proof. reflexivity. Qed.

Lemma downloadSong_absorbs_failures_witness :
  exists p',
    downloadSong offline
      {| song_name := js "Tum Hi Ho"; song_year := js "2013";
         downloadUrl := [ {| quality := js "12kbps";
                             link := js "https://aac.saavncdn.com/1_12.mp4" |} ] |}
      high {| browser := tt; console := []; toasts := [] |} = (Normal tt, p') /\
    toasts p' = [] /\
    console p' = [(errorMessage, HostError "Failed to fetch")].
Proof.
  destruct (downloadSong_absorbs_failures offline
              {| song_name := js "Tum Hi Ho"; song_year := js "2013";
                 downloadUrl := [ {| quality := js "12kbps";
                                     link := js "https://aac.saavncdn.com/1_12.mp4" |} ] |}
              high {| browser := tt; console := []; toasts := [] |}
              _ _ eq_refl) as [p' [Hrun [Ht Hc]]].
  exists p'. simpl in Hc. destruct Hc as [_ Hc]. auto.
Defined.

End DownloadProps.

(** ** The matcher and what a pattern matches *)

Module RegExpFacts.
Import JS RegExp.

Lemma star_class_spec (p : Z -> bool) (s : jsstring) :
  forall (i : nat) (k : mstate -> bool),
    star_class p i s k = true <->
    exists run s', Forall (fun d => p d = true) run /\ s = run ++ s' /\
                   k ((i + List.length run)%nat, s') = true.
Proof.
  induction s as [|c s IH]; intros i k; simpl.
  - split.
    + intros H. exists [], []. simpl. rewrite Nat.add_0_r. auto.
    + intros (run & s' & _ & E & H).
      symmetry in E. apply app_eq_nil in E as [-> ->].
      simpl in H. rewrite Nat.add_0_r in H. exact H.
  - rewrite orb_true_iff, andb_true_iff, IH. split.
    + intros [[Hc (run & s' & Hrun & -> & H)] | H].
      * exists (c :: run), s'. simpl. rewrite Nat.add_succ_r. auto.
      * exists [], (c :: s). simpl. rewrite Nat.add_0_r. auto.
    + intros (run & s' & Hrun & E & H). destruct run as [|d run]; simpl in *.
      * subst s'. rewrite Nat.add_0_r in H. auto.
      * inversion E; subst d s. inversion Hrun; subst. left. split; [assumption|].
        exists run, s'. rewrite Nat.add_succ_r in H. auto.
Qed.

(** The backtracking matcher succeeds exactly when the pattern matches up
    to a state the continuation accepts. *)
Theorem matcher_matches (r : regex) :
  forall (x : mstate) (k : mstate -> bool),
    matcher r x k = true <-> exists y, matches r x y /\ k y = true.
Proof.
  induction r as [|c|p|r1 IH1 r2 IH2|r1 IH1 r2 IH2|r1 IH1|p| |];
    intros [i s] k; simpl.
  - split; [intros H; eauto | intros (y & -> & H); exact H].
  - destruct s as [|d s].
    + split; [discriminate | intros ([j t] & [E _] & _); discriminate E].
    + rewrite andb_true_iff, Z.eqb_eq. split.
      * intros [-> H]. exists (S i, s). auto.
      * intros ([j t] & [E Ej] & H). simpl in *. inversion E; subst. auto.
  - destruct s as [|d s].
    + split; [discriminate | intros ([j t] & (d & _ & E & _) & _); discriminate E].
    + rewrite andb_true_iff. split.
      * intros [Hp H]. exists (S i, s). split; [exists d|]; auto.
      * intros ([j t] & (d' & Hp & E & Ej) & H). simpl in *.
        inversion E; subst. auto.
  - rewrite IH1. split.
    + intros (z & Hz & H). apply IH2 in H as (y & Hy & H). eauto.
    + intros (y & (z & Hz & Hy) & H). exists z. split; [assumption|].
      apply IH2. eauto.
  - rewrite orb_true_iff, IH1, IH2. split.
    + intros [(y & Hy & H) | (y & Hy & H)]; eauto.
    + intros (y & [Hy | Hy] & H); eauto.
  - rewrite orb_true_iff, IH1. split.
    + intros [(y & Hy & H) | H]; eauto.
    + intros (y & [Hy | ->] & H); eauto.
  - destruct s as [|d s].
    + split; [discriminate|].
      intros ([j t] & (run & Hne & _ & E & _) & _). simpl in E.
      symmetry in E. apply app_eq_nil in E as [-> _]. congruence.
    + rewrite andb_true_iff, star_class_spec. split.
      * intros [Hd (run & s' & Hrun & -> & H)].
        exists ((S i + List.length run)%nat, s'). split; [|assumption].
        exists (d :: run). simpl. repeat split; auto. discriminate.
      * intros ([j t] & (run & Hne & Hrun & E & Ej) & H). simpl in *.
        destruct run as [|d' run]; [congruence|]. simpl in E.
        inversion E; subst. inversion Hrun; subst. split; [assumption|].
        exists run, t. simpl in H. rewrite Nat.add_succ_r in H. auto.
  - rewrite andb_true_iff, Nat.eqb_eq. split.
    + intros [-> H]. exists (0%nat, s). auto.
    + intros (y & [E ->] & H). auto.
  - destruct s as [|d s].
    + split; [intros H; eauto | intros (y & [_ ->] & H); exact H].
    + split; [discriminate | intros (y & [E _] & _); discriminate E].
Qed.

(** [test] succeeds exactly when the pattern matches at some index. *)
Lemma search_matches (r : regex) (s : jsstring) :
  forall i : nat,
    search r i s = true <->
    exists pre suf y, s = pre ++ suf /\
                      matches r ((i + List.length pre)%nat, suf) y.
Proof.
  induction s as [|c s IH]; intros i; simpl;
    rewrite orb_true_iff, matcher_matches.
  - split.
    + intros [(y & Hy & _) | H]; [|discriminate].
      exists [], [], y. simpl. rewrite Nat.add_0_r. auto.
    + intros (pre & suf & y & E & Hy).
      symmetry in E. apply app_eq_nil in E as [-> ->].
      simpl in Hy. rewrite Nat.add_0_r in Hy. left; eauto.
  - rewrite IH. split.
    + intros [(y & Hy & _) | (pre & suf & y & -> & Hy)].
      * exists [], (c :: s), y. simpl. rewrite Nat.add_0_r. auto.
      * exists (c :: pre), suf, y. simpl. rewrite Nat.add_succ_r. auto.
    + intros (pre & suf & y & E & Hy). destruct pre as [|d pre]; simpl in *.
      * subst suf. rewrite Nat.add_0_r in Hy. left; eauto.
      * inversion E; subst. right. exists pre, suf, y.
        rewrite Nat.add_succ_r in Hy. auto.
Qed.

(** A pattern anchored with [^] can only match at index 0. *)
Lemma test_anchored (r : regex) (s : jsstring) :
  test (Seq Bol r) s = true <-> exists y, matches r (0%nat, s) y.
Proof.
  unfold test. rewrite search_matches. split.
  - intros (pre & suf & y & -> & (z & [E ->] & Hy)). simpl in E.
    destruct pre; [|discriminate]. exists y. exact Hy.
  - intros (y & Hy). exists [], s, y. split; [reflexivity|].
    exists (0%nat, s). simpl. auto.
Qed.

(** A literal matches itself and nothing else. *)
Lemma matches_lit (l : jsstring) :
  forall x y : mstate,
    matches (lit_units l) x y <->
    snd x = l ++ snd y /\ fst y = (fst x + List.length l)%nat.
Proof.
  induction l as [|c l IH]; intros [i s] [j t]; simpl.
  - rewrite Nat.add_0_r. split.
    + intros E; inversion E; auto.
    + intros [-> ->]; reflexivity.
  - destruct l as [|c' l].
    + simpl. rewrite Nat.add_1_r. tauto.
    + change (matches (Seq (Char c) (lit_units (c' :: l))) (i, s) (j, t) <->
              s = c :: (c' :: l) ++ t /\ j = (i + S (List.length (c' :: l)))%nat).
      simpl matches at 1. split.
      * intros ([i1 s1] & [E1 E2] & H). apply IH in H as [H1 H2].
        simpl in *. subst. split; [reflexivity | lia].
      * intros [-> ->]. exists (S i, (c' :: l) ++ t). split; [simpl; auto|].
        apply IH. simpl. split; [reflexivity | lia].
Qed.

(** Without anchors, matching from a state consumes a string of the
    pattern's language and nothing more is asked of the input. *)
Theorem matches_lang (r : regex) :
  anchorFree r = true ->
  forall x y : mstate,
    matches r x y <->
    exists w, lang r w /\ snd x = w ++ snd y /\
              fst y = (fst x + List.length w)%nat.
Proof.
  induction r as [|c|p|r1 IH1 r2 IH2|r1 IH1 r2 IH2|r1 IH1|p| |];
    simpl; intros Hfree [i s] [j t]; simpl; try discriminate.
  - split.
    + intros E; inversion E; subst. exists []. simpl. auto with arith.
    + intros (w & -> & -> & ->). simpl. f_equal; lia.
  - split.
    + intros [-> ->]. exists [c]. simpl. repeat split; lia.
    + intros (w & -> & -> & ->). simpl. split; [reflexivity | lia].
  - split.
    + intros (d & Hd & -> & ->). exists [d]. simpl. repeat split; eauto; lia.
    + intros (w & (d & Hd & ->) & -> & ->). exists d. simpl.
      repeat split; auto; lia.
  - apply andb_true_iff in Hfree as [F1 F2]. split.
    + intros ([i1 s1] & H1 & H2).
      apply (IH1 F1) in H1 as (w1 & L1 & E1 & N1).
      apply (IH2 F2) in H2 as (w2 & L2 & E2 & N2). simpl in *. subst.
      exists (w1 ++ w2). rewrite <- app_assoc, length_app.
      repeat split; eauto; lia.
    + intros (w & (w1 & w2 & -> & L1 & L2) & -> & ->).
      exists ((i + List.length w1)%nat, w2 ++ t). split.
      * apply (IH1 F1). exists w1. simpl. rewrite <- app_assoc. auto.
      * apply (IH2 F2). exists w2. simpl. rewrite length_app.
        repeat split; auto; lia.
  - apply andb_true_iff in Hfree as [F1 F2].
    rewrite (IH1 F1), (IH2 F2). simpl. split.
    + intros [(w & L & E) | (w & L & E)]; exists w; tauto.
    + intros (w & [L | L] & E); [left | right]; exists w; tauto.
  - rewrite (IH1 Hfree). simpl. split.
    + intros [(w & L & E) | E]; [exists w; tauto|].
      inversion E; subst. exists []. simpl. repeat split; auto; lia.
    + intros (w & [L | ->] & E1 & E2); [left; exists w; tauto|].
      right. simpl in *. subst. f_equal; lia.
  - split.
    + intros (run & Hne & Hrun & -> & ->). exists run. auto.
    + intros (w & [Hne Hrun] & -> & ->). exists w. auto.
Qed.

(** [test] of [^r$] decides the language of [r]. *)
Theorem test_lang (r : regex) (s : jsstring) :
  anchorFree r = true ->
  (test (Seq Bol (Seq r Eol)) s = true <-> lang r s).
Proof.
  intros Hfree. rewrite test_anchored. simpl. split.
  - intros (y & z & Hz & Hend & ->).
    apply (matches_lang r Hfree) in Hz as (w & L & E & _). simpl in E.
    rewrite Hend, app_nil_r in E. subst. exact L.
  - intros L. exists (List.length s, []), (List.length s, []).
    split; [|auto]. apply (matches_lang r Hfree). exists s.
    simpl. rewrite app_nil_r. auto.
Qed.

Lemma lang_lit (l w : jsstring) : lang (lit_units l) w <-> w = l.
Proof.
  revert w; induction l as [|c l IH]; intros w; simpl; [tauto|].
  destruct l as [|c' l]; [simpl; tauto|].
  change (lang (Seq (Char c) (lit_units (c' :: l))) w <-> w = c :: c' :: l).
  simpl lang at 1. split.
  - intros (w1 & w2 & -> & -> & H). apply IH in H. subst. reflexivity.
  - intros ->. exists [c], (c' :: l). repeat split. apply IH. reflexivity.
Qed.

End RegExpFacts.

(** ** Catalog links *)

Module LinkProps.
Import JS RegExp Utils Spec RegExpFacts.

Ltac lit_ok := apply lang_lit; reflexivity.

Lemma lang_protocolGroup (w : jsstring) :
  lang protocolGroup w <-> In w protocols.
Proof.
  unfold protocolGroup, lit. cbn [lang]. split.
  - intros [(w1 & w2 & -> & H1 & w3 & w4 & -> & [-> | ->] & H) | ->];
      [apply lang_lit in H1, H; subst; simpl; auto .. | simpl; auto].
  - intros [<- | [<- | [<- | []]]].
    + right; reflexivity.
    + left. exists (js "http"), (js "://").
      split; [reflexivity|]. split; [lit_ok|].
      exists [], (js "://").
      split; [reflexivity|]. split; [right; reflexivity | lit_ok].
    + left. exists (js "http"), (js "s://").
      split; [reflexivity|]. split; [lit_ok|].
      exists (js "s"), (js "://").
      split; [reflexivity|]. split; [left; reflexivity | lit_ok].
Qed.

Lemma lang_wwwGroup (w : jsstring) : lang wwwGroup w <-> wwwPrefix w.
Proof.
  unfold wwwGroup, wwwPrefix, lit. cbn [lang]. split.
  - intros [(w1 & w2 & -> & H & d & Hd & ->) | ->]; [|auto].
    apply lang_lit in H. subst. right. exists d. auto.
  - intros [-> | (c & Hc & ->)]; [auto|]. left.
    exists (js "www"), [c]. split; [reflexivity|]. split; [lit_ok|].
    exists c. auto.
Qed.

Lemma lang_hostLiteral (w : jsstring) :
  lang hostLiteral w <-> w = js "jiosaavn.com/".
Proof.
  unfold hostLiteral, lit. cbn [lang]. split.
  - intros (w1 & w2 & -> & H1 & w3 & w4 & -> & -> & w5 & w6 & -> & H5 & ->).
    apply lang_lit in H1, H5. subst. reflexivity.
  - intros ->. exists (js "jiosaavn"), (js ".com/").
    split; [reflexivity|]. split; [lit_ok|].
    exists (js "."), (js "com/"). split; [reflexivity|]. split; [reflexivity|].
    exists (js "com"), (js "/"). split; [reflexivity|]. split; [lit_ok | reflexivity].
Qed.

Lemma lang_sectionGroup (w : jsstring) :
  lang sectionGroup w <-> In w segments.
Proof.
  unfold sectionGroup, lit. cbn [lang]. rewrite !lang_lit.
  unfold segments. simpl In. intuition congruence.
Qed.

Lemma lang_linkBody (u : jsstring) : lang linkBody u <-> matchesLinkPattern u.
Proof.
  unfold linkBody, matchesLinkPattern. cbn [lang]. split.
  - intros (proto & r1 & -> & Hp & www & r2 & -> & Hw & host & r3 & -> & Hh &
            seg & r4 & -> & Hs & sl & rest & -> & -> & Hr).
    apply lang_protocolGroup in Hp. apply lang_wwwGroup in Hw.
    apply lang_hostLiteral in Hh. apply lang_sectionGroup in Hs. subst host.
    exists proto, www, seg, rest. 
    split; [reflexivity|]. repeat (split; [assumption|]). exact Hr.
  - intros (proto & www & seg & rest & -> & Hp & Hw & Hs & Hr).
    exists proto, (www ++ js "jiosaavn.com/" ++ seg ++ js "/" ++ rest).
    split; [reflexivity|]. split; [apply lang_protocolGroup; assumption|].
    exists www, (js "jiosaavn.com/" ++ seg ++ js "/" ++ rest).
    split; [reflexivity|]. split; [apply lang_wwwGroup; assumption|].
    exists (js "jiosaavn.com/"), (seg ++ js "/" ++ rest).
    split; [reflexivity|]. split; [apply lang_hostLiteral; reflexivity|].
    exists seg, (js "/" ++ rest).
    split; [reflexivity|]. split; [apply lang_sectionGroup; assumption|].
    exists (js "/"), rest. split; [reflexivity|]. split; [reflexivity|]. exact Hr.
Qed.

Lemma isJioSaavnLink_iff (u : jsstring) :
  isJioSaavnLink u = true <-> matchesLinkPattern u.
Proof.
  unfold isJioSaavnLink, linkRegex.
  rewrite test_lang by reflexivity. apply lang_linkBody.
Qed.

(** C7 as the specification states it, with the protocol and host compared
    up to case, fails: an upper-case link matches the pattern in that
    reading and is refused. *)
Lemma isJioSaavnLink_is_case_sensitive :
  matchesLinkPatternAnyCase (js "HTTPS://WWW.JIOSAAVN.COM/song/abc") /\
  isJioSaavnLink (js "HTTPS://WWW.JIOSAAVN.COM/song/abc") = false.
Proof.
  split; [|reflexivity].
  exists (js "HTTPS://"), (js "WWW."), (js "JIOSAAVN.COM"), (js "song"), (js "abc").
  split; [reflexivity|]. split.
  { exists (js "https://"). split; [simpl; auto | reflexivity]. }
  split.
  { right. exists (js "WWW"), 46. repeat split. }
  split; [reflexivity|]. split; [simpl; auto|].
  split; [discriminate|]. repeat constructor.
Qed.

(** C7, amended.  [isJioSaavnLink] returns true exactly for the strings
    that match the pattern with every literal compared exactly, case
    included: an optional [http://] or [https://], an optional [www] and
    one character, [jiosaavn.com/], one of the five sections, [/], and a
    non-empty remainder without line terminators.  The four examples of
    the specification come out as stated. *)
Theorem isJioSaavnLink_exact :
  (forall u : jsstring, isJioSaavnLink u = true <-> matchesLinkPattern u) /\
  isJioSaavnLink (js "https://www.jiosaavn.com/song/abc") = true /\
  isJioSaavnLink (js "http://jiosaavn.com/album/xyz") = true /\
  isJioSaavnLink (js "https://jiosaavn.com/artist/") = false /\
  isJioSaavnLink (js "https://spotify.com/song/abc") = false.
Proof.
  split; [exact isJioSaavnLink_iff|]. repeat split.
Qed.

(** C10.  The dot after [www] matches any character that is not a line
    terminator, so links to other hosts are accepted:
    [https://wwwxjiosaavn.com/song/abc] is. *)
Theorem isJioSaavnLink_accepts_other_hosts :
  isJioSaavnLink (js "https://wwwxjiosaavn.com/song/abc") = true /\
  (forall c : Z,
     isLineTerminator c = false ->
     isJioSaavnLink (js "https://www" ++ [c] ++ js "jiosaavn.com/song/abc") = true).
Proof.
  split; [reflexivity|]. intros c Hc. apply isJioSaavnLink_iff.
  exists (js "https://"), (js "www" ++ [c]), (js "song"), (js "abc").
  split; [reflexivity|]. split; [simpl; auto|]. split.
  { right. exists c. split; [unfold class_dot; rewrite Hc|]; reflexivity. }
  split; [simpl; auto|]. split; [discriminate|]. repeat constructor.
Qed.

Lemma isJioSaavnLink_accepts_other_hosts_witness :
  isJioSaavnLink (js "https://www-jiosaavn.com/song/abc") = true.
Proof.
  apply (proj2 isJioSaavnLink_accepts_other_hosts 45). reflexivity.
Defined.

End LinkProps.

(** ** Arithmetic tactics *)

Module Tactics.

(** Division and remainder by constants, then linear arithmetic. *)
Ltac divmod := Z.div_mod_to_equations; lia.

(** Decide the comparisons of the goal that linear arithmetic settles. *)
Ltac zbool_step :=
  match goal with
  | |- context [?a <? ?b] =>
    first [ replace (a <? b) with true by (symmetry; apply Z.ltb_lt; divmod)
          | replace (a <? b) with false by (symmetry; apply Z.ltb_ge; divmod) ]
  | |- context [?a <=? ?b] =>
    first [ replace (a <=? b) with true by (symmetry; apply Z.leb_le; divmod)
          | replace (a <=? b) with false by (symmetry; apply Z.leb_gt; divmod) ]
  | |- context [?a =? ?b] =>
    first [ replace (a =? b) with true by (symmetry; apply Z.eqb_eq; divmod)
          | replace (a =? b) with false by (symmetry; apply Z.eqb_neq; divmod) ]
  end.

Ltac zbool := repeat (zbool_step; cbn [andb orb negb]).

End Tactics.

(** ** Base64 *)

Module Base64Facts.
Import JS Base64 Aux Tactics.

(** Induction over a list three elements at a time. *)
Lemma list_ind3 {A} (P : list A -> Prop) :
  P [] -> (forall a, P [a]) -> (forall a b, P [a; b]) ->
  (forall a b c l, P l -> P (a :: b :: c :: l)) ->
  forall l, P l.
Proof.
  intros H0 H1 H2 H3 l.
  assert (H : P l /\ (forall a, P (a :: l)) /\ (forall a b, P (a :: b :: l))).
  { induction l as [|x l (IH0 & IH1 & IH2)]; auto. }
  apply H.
Qed.

Lemma sextet_cases (i : Z) :
  0 <= i < 64 ->
  i < 26 \/ 26 <= i < 52 \/ 52 <= i < 62 \/ i = 62 \/ i = 63.
Proof. lia. Qed.

Lemma b64val_b64char (i : Z) : 0 <= i < 64 -> b64val (b64char i) = Some i.
Proof.
  intros Hi. unfold b64char.
  destruct (sextet_cases i Hi) as [H | [H | [H | [H | H]]]];
    zbool; unfold b64val; zbool; f_equal; lia.
Qed.

Lemma b64char_plain (i : Z) :
  0 <= i < 64 -> isAsciiWhitespace (b64char i) = false /\ b64char i <> 61.
Proof.
  intros Hi. unfold b64char.
  destruct (sextet_cases i Hi) as [H | [H | [H | [H | H]]]];
    zbool; unfold isAsciiWhitespace; zbool; split; (reflexivity || lia).
Qed.

Lemma byte_sextets (a b c : Z) :
  0 <= a <= 255 -> 0 <= b <= 255 -> 0 <= c <= 255 ->
  0 <= a / 4 < 64 /\ 0 <= (a mod 4) * 16 + b / 16 < 64 /\
  0 <= (b mod 16) * 4 + c / 64 < 64 /\ 0 <= c mod 64 < 64 /\
  0 <= (a mod 4) * 16 < 64 /\ 0 <= (b mod 16) * 4 < 64.
Proof. intros. repeat split; divmod. Qed.

Lemma isByte_range (c : Z) : isByte c = true <-> 0 <= c <= 255.
Proof. unfold isByte. rewrite andb_true_iff, Z.leb_le, Z.leb_le. tauto. Qed.

Local Abbreviation bytes s := (Forall (fun c => 0 <= c <= 255) s).

(** The characters of an encoding are not whitespace. *)
Lemma encode_no_whitespace :
  forall s, bytes s ->
    filter (fun c => negb (isAsciiWhitespace c)) (encode s) = encode s.
Proof.
  intros s. induction s as [|a|a b|a b c s IH] using list_ind3; intros Hs.
  - reflexivity.
  - inversion Hs as [|? ? Ha _]; subst.
    destruct (byte_sextets a 0 0 Ha) as (H1 & _ & _ & _ & H2 & _); try lia.
    cbn [encode filter].
    rewrite (proj1 (b64char_plain _ H1)), (proj1 (b64char_plain _ H2)).
    reflexivity.
  - inversion Hs as [|? ? Ha Hs1]; subst. inversion Hs1 as [|? ? Hb _]; subst.
    destruct (byte_sextets a b 0 Ha Hb) as (H1 & H2 & _ & _ & _ & H3); try lia.
    cbn [encode filter].
    rewrite (proj1 (b64char_plain _ H1)), (proj1 (b64char_plain _ H2)),
            (proj1 (b64char_plain _ H3)).
    reflexivity.
  - inversion Hs as [|? ? Ha Hs1]; subst. inversion Hs1 as [|? ? Hb Hs2]; subst.
    inversion Hs2 as [|? ? Hc Hs3]; subst.
    destruct (byte_sextets a b c Ha Hb Hc) as (H1 & H2 & H3 & H4 & _ & _).
    cbn [encode filter].
    rewrite (proj1 (b64char_plain _ H1)), (proj1 (b64char_plain _ H2)),
            (proj1 (b64char_plain _ H3)), (proj1 (b64char_plain _ H4)).
    cbn [negb]. rewrite (IH Hs3). reflexivity.
Qed.

Lemma encode_length (s : list Z) :
  Z.of_nat (List.length (encode s)) mod 4 = 0.
Proof.
  induction s as [|a|a b|a b c s IH] using list_ind3; try reflexivity.
  cbn [encode List.length]. rewrite !Nat2Z.inj_succ. divmod.
Qed.

(** Stripping the padding of an encoding leaves its characters. *)
Lemma stripPadding_encode :
  forall s, bytes s ->
  forall pre,
    Z.of_nat (List.length pre) mod 4 = 0 ->
    Forall (fun c => c <> 61) pre ->
    stripPadding (pre ++ encode s) = pre ++ encodeUnpadded s.
Proof.
  intros s. induction s as [|a|a b|a b c s IH] using list_ind3;
    intros Hs pre Hlen Hpre.
  - cbn [encode encodeUnpadded]. rewrite app_nil_r. unfold stripPadding.
    rewrite Hlen. cbn [Z.eqb].
    destruct (rev pre) as [|x [|y r]] eqn:E; try reflexivity.
    + assert (Hx : x <> 61).
      { rewrite Forall_forall in Hpre. apply Hpre, in_rev. rewrite E. left; reflexivity. }
      apply Z.eqb_neq in Hx. rewrite Hx. reflexivity.
    + assert (Hx : x <> 61).
      { rewrite Forall_forall in Hpre. apply Hpre, in_rev. rewrite E. left; reflexivity. }
      apply Z.eqb_neq in Hx. rewrite Hx. reflexivity.
  - unfold stripPadding.
    replace (Z.of_nat (List.length (pre ++ encode [a])) mod 4 =? 0) with true
      by (symmetry; apply Z.eqb_eq; rewrite length_app, Nat2Z.inj_add;
          cbn [encode List.length]; divmod).
    cbn [encode encodeUnpadded]. rewrite rev_app_distr. simpl.
    rewrite rev_involutive, <- app_assoc. reflexivity.
  - inversion Hs as [|? ? Ha Hs1]; subst. inversion Hs1 as [|? ? Hb _]; subst.
    destruct (byte_sextets a b 0 Ha Hb) as (_ & _ & _ & _ & _ & H3); try lia.
    unfold stripPadding.
    replace (Z.of_nat (List.length (pre ++ encode [a; b])) mod 4 =? 0) with true
      by (symmetry; apply Z.eqb_eq; rewrite length_app, Nat2Z.inj_add;
          cbn [encode List.length]; divmod).
    cbn [encode encodeUnpadded]. rewrite rev_app_distr. cbn [rev app].
    destruct (b64char_plain _ H3) as [_ Hne]. apply Z.eqb_neq in Hne.
    rewrite Hne. simpl. rewrite rev_involutive, <- !app_assoc.
    reflexivity.
  - inversion Hs as [|? ? Ha Hs1]; subst. inversion Hs1 as [|? ? Hb Hs2]; subst.
    inversion Hs2 as [|? ? Hc Hs3]; subst.
    destruct (byte_sextets a b c Ha Hb Hc) as (H1 & H2 & H3 & H4 & _ & _).
    cbn [encode encodeUnpadded].
    change (?c1 :: ?c2 :: ?c3 :: ?c4 :: encode s)
      with ([c1; c2; c3; c4] ++ encode s).
    change (?c1 :: ?c2 :: ?c3 :: ?c4 :: encodeUnpadded s)
      with ([c1; c2; c3; c4] ++ encodeUnpadded s).
    rewrite !app_assoc. apply IH; [assumption| |].
    + rewrite length_app, Nat2Z.inj_add. cbn [List.length].
      rewrite !Nat2Z.inj_succ. divmod.
    + apply Forall_app. split; [assumption|].
      repeat constructor; apply b64char_plain; assumption.
Qed.

Lemma encodeUnpadded_length (s : list Z) :
  Z.of_nat (List.length (encodeUnpadded s)) mod 4 <> 1.
Proof.
  induction s as [|a|a b|a b c s IH] using list_ind3;
    try (cbn; discriminate).
  cbn [encodeUnpadded List.length]. rewrite !Nat2Z.inj_succ.
  revert IH. generalize (Z.of_nat (List.length (encodeUnpadded s))).
  intros n IH. divmod.
Qed.

(** The characters are in the alphabet, and their values decode to the
    octets. *)
Lemma decode_encodeUnpadded :
  forall s, bytes s ->
    exists v, sextets (encodeUnpadded s) = Some v /\ decode v = s.
Proof.
  intros s. induction s as [|a|a b|a b c s IH] using list_ind3; intros Hs.
  - exists []. split; reflexivity.
  - inversion Hs as [|? ? Ha _]; subst.
    destruct (byte_sextets a 0 0 Ha) as (H1 & _ & _ & _ & H2 & _); try lia.
    eexists. cbn [encodeUnpadded sextets].
    rewrite (b64val_b64char _ H1), (b64val_b64char _ H2).
    split; [reflexivity|]. cbn [decode]. f_equal. divmod.
  - inversion Hs as [|? ? Ha Hs1]; subst. inversion Hs1 as [|? ? Hb _]; subst.
    destruct (byte_sextets a b 0 Ha Hb) as (H1 & H2 & _ & _ & _ & H3); try lia.
    eexists. cbn [encodeUnpadded sextets].
    rewrite (b64val_b64char _ H1), (b64val_b64char _ H2), (b64val_b64char _ H3).
    split; [reflexivity|]. cbn [decode]. f_equal; [|f_equal]; divmod.
  - inversion Hs as [|? ? Ha Hs1]; subst. inversion Hs1 as [|? ? Hb Hs2]; subst.
    inversion Hs2 as [|? ? Hc Hs3]; subst.
    destruct (byte_sextets a b c Ha Hb Hc) as (H1 & H2 & H3 & H4 & _ & _).
    destruct (IH Hs3) as (v & Hv & Hd).
    eexists. cbn [encodeUnpadded sextets].
    rewrite (b64val_b64char _ H1), (b64val_b64char _ H2),
            (b64val_b64char _ H3), (b64val_b64char _ H4), Hv.
    split; [reflexivity|]. cbn [decode]. rewrite Hd.
    f_equal; [|f_equal; [|f_equal]]; divmod.
Qed.

(** [atob] undoes [btoa]. *)
Theorem atob_btoa (s : jsstring) :
  bytes s -> btoa s = Normal (encode s) /\ atob (encode s) = Normal s.
Proof.
  intros Hs. split.
  - unfold btoa.
    replace (forallb (fun c => (0 <=? c) && (c <=? 255)) s) with true;
      [reflexivity|].
    symmetry. apply forallb_forall. rewrite Forall_forall in Hs.
    intros c Hc. apply isByte_range, Hs, Hc.
  - unfold atob. rewrite (encode_no_whitespace s Hs).
    pose proof (stripPadding_encode s Hs [] eq_refl (Forall_nil _)) as Hstrip.
    cbn [app] in Hstrip. rewrite Hstrip.
    destruct (Z.eqb_spec (Z.of_nat (List.length (encodeUnpadded s)) mod 4) 1)
      as [E | _]; [destruct (encodeUnpadded_length s E)|].
    destruct (decode_encodeUnpadded s Hs) as (v & -> & ->). reflexivity.
Qed.

End Base64Facts.

(** ** URI component coding *)

Module URIFacts.
Import JS URI Aux Tactics.

Local Abbreviation bytes s := (Forall (fun c => 0 <= c <= 255) s).

Lemma hexval_hexdigit (d : Z) : 0 <= d < 16 -> hexval (hexdigit d) = Some d.
Proof.
  intros Hd. unfold hexdigit.
  assert (H : d < 10 \/ 10 <= d) by lia.
  destruct H; zbool; unfold hexval; zbool; f_equal; lia.
Qed.

Lemma hexdigit_ascii (d : Z) : 0 <= d < 16 -> 0 <= hexdigit d <= 255.
Proof. intros Hd. unfold hexdigit. destruct (d <? 10); lia. Qed.

Lemma parse_percent (b : Z) (rest : jsstring) :
  0 <= b <= 255 ->
  parseHexOctet (hexdigit (b / 16) :: hexdigit (b mod 16) :: rest) =
  Some (b, rest).
Proof.
  intros Hb. unfold parseHexOctet.
  rewrite !hexval_hexdigit by divmod. do 2 f_equal. divmod.
Qed.

Lemma percent_bytes (bs : list Z) : bytes bs -> bytes (flat_map percent bs).
Proof.
  induction 1 as [|b bs Hb _ IH]; simpl; [constructor|].
  repeat constructor; try assumption; try lia; apply hexdigit_ascii; divmod.
Qed.

Lemma readEscapes_percent (bs : list Z) (rest : jsstring) :
  bytes bs ->
  readEscapes (List.length bs) (flat_map percent bs ++ rest) = Some (bs, rest).
Proof.
  induction 1 as [|b bs Hb _ IH]; [reflexivity|].
  cbn [List.length flat_map percent app readEscapes Z.eqb Pos.eqb].
  rewrite parse_percent by assumption. rewrite IH. reflexivity.
Qed.

(** *** UTF-8, by length of the sequence *)

Lemma utf8_two (cp : Z) :
  128 <= cp < 2048 ->
  utf8 cp = [192 + cp / 64; 128 + cp mod 64] /\
  bytes (utf8 cp) /\
  leadingOnes (192 + cp / 64) = 2%nat /\
  utf8_decode (utf8 cp) = Some cp.
Proof.
  intros H. assert (E : utf8 cp = [192 + cp / 64; 128 + cp mod 64]).
  { unfold utf8. zbool. reflexivity. }
  rewrite E. repeat split.
  - repeat constructor; divmod.
  - unfold leadingOnes. zbool. reflexivity.
  - unfold utf8_decode, isContinuation. zbool. f_equal. divmod.
Qed.

Lemma utf8_three (cp : Z) :
  2048 <= cp < 65536 -> ~ (55296 <= cp <= 57343) ->
  utf8 cp = [224 + cp / 4096; 128 + (cp / 64) mod 64; 128 + cp mod 64] /\
  bytes (utf8 cp) /\
  leadingOnes (224 + cp / 4096) = 3%nat /\
  utf8_decode (utf8 cp) = Some cp.
Proof.
  intros H Hs.
  assert (E : utf8 cp =
              [224 + cp / 4096; 128 + (cp / 64) mod 64; 128 + cp mod 64]).
  { unfold utf8. zbool. reflexivity. }
  rewrite E. repeat split.
  - repeat constructor; divmod.
  - unfold leadingOnes. zbool. reflexivity.
  - unfold utf8_decode, isContinuation.
    replace ((224 + cp / 4096 - 224) * 4096 + (128 + (cp / 64) mod 64 - 128) * 64 +
             (128 + cp mod 64 - 128)) with cp by divmod.
    zbool.
    assert (Hsur : (55296 <=? cp) && (cp <=? 57343) = false).
    { apply andb_false_iff. destruct (Z.leb_spec 55296 cp); [|auto].
      right. apply Z.leb_gt. lia. }
    rewrite Hsur. reflexivity.
Qed.

Lemma utf8_four (cp : Z) :
  65536 <= cp <= 1114111 ->
  utf8 cp = [240 + cp / 262144; 128 + (cp / 4096) mod 64;
             128 + (cp / 64) mod 64; 128 + cp mod 64] /\
  bytes (utf8 cp) /\
  leadingOnes (240 + cp / 262144) = 4%nat /\
  utf8_decode (utf8 cp) = Some cp.
Proof.
  intros H.
  assert (E : utf8 cp = [240 + cp / 262144; 128 + (cp / 4096) mod 64;
                         128 + (cp / 64) mod 64; 128 + cp mod 64]).
  { unfold utf8. zbool. reflexivity. }
  rewrite E. repeat split.
  - repeat constructor; divmod.
  - unfold leadingOnes. zbool. reflexivity.
  - unfold utf8_decode, isContinuation.
    replace ((240 + cp / 262144 - 240) * 262144 +
             (128 + (cp / 4096) mod 64 - 128) * 4096 +
             (128 + (cp / 64) mod 64 - 128) * 64 + (128 + cp mod 64 - 128))
      with cp by divmod.
    zbool. reflexivity.
Qed.

(** *** UTF-16 *)

Lemma surrogate_ranges (c d : Z) :
  isLeadingSurrogate c = true -> isTrailingSurrogate d = true ->
  55296 <= c <= 56319 /\ 56320 <= d <= 57343.
Proof.
  unfold isLeadingSurrogate, isTrailingSurrogate.
  rewrite !andb_true_iff, !Z.leb_le. tauto.
Qed.

Lemma utf16_pair (c d : Z) :
  isLeadingSurrogate c = true -> isTrailingSurrogate d = true ->
  65536 <= pairCodePoint c d <= 1114111 /\
  utf16 (pairCodePoint c d) = [c; d].
Proof.
  intros Hc Hd. destruct (surrogate_ranges c d Hc Hd) as [Rc Rd].
  unfold pairCodePoint. split; [lia|].
  unfold utf16. zbool. f_equal; [|f_equal]; divmod.
Qed.

(** *** One iteration of the decoding loop *)

Lemma decode_literal (f : nat) (c : Z) (rest : jsstring) :
  c <> 37 ->
  decode_loop (S f) (c :: rest) =
  bind (decode_loop f rest) (fun r => Normal (c :: r)).
Proof.
  intros Hc. cbn [decode_loop]. apply Z.eqb_neq in Hc. rewrite Hc. reflexivity.
Qed.

Lemma decode_ascii_escape (f : nat) (b : Z) (rest : jsstring) :
  0 <= b < 128 ->
  decode_loop (S f) (percent b ++ rest) =
  bind (decode_loop f rest) (fun r => Normal (b :: r)).
Proof.
  intros Hb. cbn [percent app decode_loop Z.eqb Pos.eqb negb].
  rewrite parse_percent by lia.
  unfold leadingOnes. zbool. reflexivity.
Qed.

Lemma decode_sequence (f : nat) (cp b0 : Z) (bs : list Z) (rest : jsstring)
      (n : nat) :
  utf8 cp = b0 :: bs -> bytes (utf8 cp) ->
  leadingOnes b0 = S (S n) -> (n <= 2)%nat -> List.length bs = S n ->
  utf8_decode (utf8 cp) = Some cp ->
  decode_loop (S f) (flat_map percent (utf8 cp) ++ rest) =
  bind (decode_loop f rest) (fun r => Normal (utf16 cp ++ r)).
Proof.
  intros E Hbytes Hlead Hn Hlen Hdec. rewrite E in *.
  inversion Hbytes as [|? ? Hb0 Hbs]; subst.
  cbn [flat_map percent app decode_loop Z.eqb Pos.eqb negb].
  rewrite parse_percent by assumption. rewrite Hlead.
  rewrite <- Hlen, readEscapes_percent by assumption. rewrite Hdec.
  destruct n as [|[|[|n]]]; try reflexivity. lia.
Qed.

Lemma decode_code_point (f : nat) (cp : Z) (rest : jsstring) :
  128 <= cp <= 1114111 -> ~ (55296 <= cp <= 57343) ->
  bytes (utf8 cp) /\
  decode_loop (S f) (flat_map percent (utf8 cp) ++ rest) =
  bind (decode_loop f rest) (fun r => Normal (utf16 cp ++ r)).
Proof.
  intros Hcp Hs.
  assert (C : cp < 2048 \/ 2048 <= cp < 65536 \/ 65536 <= cp) by lia.
  destruct C as [C | [C | C]].
  - destruct (utf8_two cp) as (E & B & L & D); [lia|]. split; [exact B|].
    apply (decode_sequence f cp _ _ rest 0 E B L); auto.
  - destruct (utf8_three cp) as (E & B & L & D); [lia | exact Hs |].
    split; [exact B|].
    apply (decode_sequence f cp _ _ rest 1 E B L); auto.
  - destruct (utf8_four cp) as (E & B & L & D); [lia|]. split; [exact B|].
    apply (decode_sequence f cp _ _ rest 2 E B L); auto.
Qed.

Lemma isUnescaped_ascii (c : Z) :
  isUnescaped c = true -> 0 <= c < 128 /\ c <> 37.
Proof.
  unfold isUnescaped, RegExp.class_w.
  rewrite !orb_true_iff, !andb_true_iff, !Z.leb_le, !Z.eqb_eq. lia.
Qed.

Lemma percent_length (bs : list Z) :
  List.length (flat_map percent bs) = (3 * List.length bs)%nat.
Proof. induction bs; simpl; lia. Qed.

(** *** The round trip *)

Lemma decode_encode_bounded (n : nat) :
  forall s : jsstring,
    (List.length s <= n)%nat ->
    Forall code_unit s ->
    isWellFormed s = true ->
    exists e,
      encodeURIComponent s = Normal e /\
      bytes e /\
      forall fuel, (List.length e <= fuel)%nat -> decode_loop fuel e = Normal s.
Proof.
  induction n as [|n IH]; intros s Hlen Hunits Hwf.
  { destruct s; [|simpl in Hlen; lia]. exists []. repeat split; auto.
    intros [|f] _; reflexivity. }
  destruct s as [|c rest].
  { exists []. repeat split; auto. intros [|f] _; reflexivity. }
  inversion Hunits as [|? ? Hc Hrest]; subst. unfold code_unit in Hc.
  cbn [encodeURIComponent]. cbn [isWellFormed] in Hwf.
  destruct (isUnescaped c) eqn:Hun.
  - (* copied as it is *)
    destruct (isUnescaped_ascii c Hun) as [Hascii H37].
    assert (Hwf' : isWellFormed rest = true).
    { destruct (isLeadingSurrogate c) eqn:Hl.
      - unfold isLeadingSurrogate in Hl.
        apply andb_true_iff in Hl as [Hl _]. apply Z.leb_le in Hl. lia.
      - apply andb_true_iff in Hwf as [_ Hwf]. exact Hwf. }
    destruct (IH rest ltac:(simpl in Hlen; lia) Hrest Hwf')
      as (e & He & Hb & Hd).
    exists (c :: e). rewrite He. split; [reflexivity|].
    split; [constructor; [lia | assumption]|].
    intros [|f] Hf; [simpl in Hf; lia|].
    rewrite decode_literal by assumption.
    rewrite Hd by (simpl in Hf; lia). reflexivity.
  - destruct (isLeadingSurrogate c) eqn:Hl.
    + (* a surrogate pair *)
      destruct rest as [|d rest']; [discriminate|].
      apply andb_true_iff in Hwf as [Ht Hwf']. rewrite Ht.
      assert (Hct : isTrailingSurrogate c = false).
      { destruct (surrogate_ranges c d Hl Ht) as [Rc _].
        unfold isTrailingSurrogate. zbool. reflexivity. }
      rewrite Hct.
      inversion Hrest as [|? ? _ Hrest']; subst.
      destruct (IH rest' ltac:(simpl in Hlen; lia) Hrest' Hwf')
        as (e & He & Hb & Hd).
      destruct (utf16_pair c d Hl Ht) as [Rcp E16].
      rewrite He. cbn [bind]. eexists. split; [reflexivity|].
      destruct (decode_code_point 0 (pairCodePoint c d) e) as [B _];
        [lia | lia |].
      split; [apply Forall_app; split; [apply percent_bytes|]; assumption|].
      intros [|f] Hf.
      { rewrite length_app, percent_length in Hf.
        destruct (utf8_four _ Rcp) as (E & _). rewrite E in Hf.
        simpl in Hf. lia. }
      destruct (decode_code_point f (pairCodePoint c d) e) as [_ ->];
        [lia | lia |].
      rewrite Hd, E16; [reflexivity|].
      rewrite length_app in Hf. destruct (utf8_four _ Rcp) as (E & _).
      rewrite percent_length, E in Hf. simpl in Hf. lia.
    + (* any other code unit *)
      apply andb_true_iff in Hwf as [Hnt Hwf'].
      apply negb_true_iff in Hnt. rewrite Hnt.
      assert (Hns : ~ (55296 <= c <= 57343)).
      { unfold isLeadingSurrogate in Hl. unfold isTrailingSurrogate in Hnt.
        apply andb_false_iff in Hl, Hnt.
        rewrite !Z.leb_gt in Hl, Hnt. lia. }
      destruct (IH rest ltac:(simpl in Hlen; lia) Hrest Hwf')
        as (e & He & Hb & Hd).
      rewrite He. cbn [bind]. eexists. split; [reflexivity|].
      assert (E16 : utf16 c = [c]) by (unfold utf16; zbool; reflexivity).
      assert (C : c < 128 \/ 128 <= c) by lia. destruct C as [C | C].
      * assert (E8 : utf8 c = [c]) by (unfold utf8; zbool; reflexivity).
        rewrite E8. cbn [flat_map]. rewrite app_nil_r.
        split.
        { apply Forall_app. split; [|assumption].
          apply (percent_bytes [c]). repeat constructor; lia. }
        intros [|f] Hf; [simpl in Hf; lia|].
        rewrite decode_ascii_escape by lia.
        rewrite Hd by (simpl in Hf; lia). reflexivity.
      * destruct (decode_code_point 0 c e) as [B _]; [lia | exact Hns |].
        split; [apply Forall_app; split; [apply percent_bytes|]; assumption|].
        intros [|f] Hf.
        { rewrite length_app, percent_length in Hf.
          destruct (utf8 c) eqn:E8; [|simpl in Hf; lia].
          unfold utf8 in E8.
          destruct (c <? 128), (c <? 2048), (c <? 65536); discriminate. }
        destruct (decode_code_point f c e) as [_ ->]; [lia | exact Hns |].
        rewrite Hd, E16; [reflexivity|].
        rewrite length_app, percent_length in Hf.
        destruct (utf8 c) eqn:E8; [|simpl in Hf; lia].
        unfold utf8 in E8.
        destruct (c <? 128), (c <? 2048), (c <? 65536); discriminate.
Qed.

(** Encoding a well-formed string succeeds with ASCII output, and decoding
    the output gives the string back. *)
Theorem decode_encode (s : jsstring) :
  Forall code_unit s ->
  isWellFormed s = true ->
  exists e,
    encodeURIComponent s = Normal e /\ bytes e /\
    decodeURIComponent e = Normal s.
Proof.
  intros Hunits Hwf.
  destruct (decode_encode_bounded (List.length s) s (le_n _) Hunits Hwf)
    as (e & He & Hb & Hd).
  exists e. repeat split; try assumption. apply Hd. apply le_n.
Qed.

(** An unpaired surrogate makes the encoding throw. *)
Lemma encode_lone_surrogate (c : Z) :
  isLeadingSurrogate c = true \/ isTrailingSurrogate c = true ->
  encodeURIComponent [c] = Throw URIError.
Proof.
  intros H. cbn [encodeURIComponent].
  assert (Hun : isUnescaped c = false).
  { destruct (isUnescaped c) eqn:E; [|reflexivity].
    apply isUnescaped_ascii in E.
    unfold isLeadingSurrogate, isTrailingSurrogate in H.
    rewrite !andb_true_iff, !Z.leb_le in H. lia. }
  rewrite Hun. destruct (isTrailingSurrogate c); [reflexivity|].
  destruct H as [-> | H]; [reflexivity | discriminate].
Qed.

(** So does any string that is not well formed. *)
Lemma encode_ill_formed (n : nat) :
  forall s : jsstring,
    (List.length s <= n)%nat ->
    isWellFormed s = false ->
    encodeURIComponent s = Throw URIError.
Proof.
  induction n as [|n IH]; intros s Hlen Hwf.
  { destruct s; [discriminate | simpl in Hlen; lia]. }
  destruct s as [|c rest]; [discriminate|].
  cbn [encodeURIComponent]. cbn [isWellFormed] in Hwf.
  destruct (isUnescaped c) eqn:Hun.
  - destruct (isUnescaped_ascii c Hun) as [Hascii _].
    assert (Hl : isLeadingSurrogate c = false)
      by (unfold isLeadingSurrogate; zbool; reflexivity).
    assert (Ht : isTrailingSurrogate c = false)
      by (unfold isTrailingSurrogate; zbool; reflexivity).
    rewrite Hl, Ht in Hwf. cbn [negb andb] in Hwf.
    rewrite (IH rest) by (assumption || simpl in Hlen; lia). reflexivity.
  - destruct (isTrailingSurrogate c) eqn:Ht; [reflexivity|].
    destruct (isLeadingSurrogate c) eqn:Hl.
    + destruct rest as [|d rest']; [reflexivity|].
      destruct (isTrailingSurrogate d); [|reflexivity].
      cbn [andb] in Hwf.
      rewrite (IH rest') by (assumption || simpl in Hlen; lia). reflexivity.
    + cbn [negb andb] in Hwf.
      rewrite (IH rest) by (assumption || simpl in Hlen; lia). reflexivity.
Qed.

End URIFacts.

(** ** Opaque encoding *)

Module Base64Props.
Import JS Utils Base64Facts URIFacts.

(** C4 as the specification states it, for every string, fails: a string
    may hold a surrogate code unit on its own, and [strToBase64] throws on
    it. *)
Lemma strToBase64_lone_surrogate :
  Forall code_unit [55357] /\
  strToBase64 [55357] = Throw URIError /\
  bind (strToBase64 [55357]) base64ToStr <> Normal [55357].
Proof.
  split; [repeat constructor; unfold code_unit; lia|].
  split; [reflexivity | discriminate].
Qed.

(** C4, amended.  For every string without unpaired surrogates, the empty
    string, text outside ASCII and special characters included,
    [strToBase64] returns an encoding and [base64ToStr] maps it back to the
    string.  On every other string [strToBase64] throws. *)
Theorem base64ToStr_strToBase64 :
  forall s : jsstring,
    Forall code_unit s ->
    (URI.isWellFormed s = true ->
     exists b, strToBase64 s = Normal b /\ base64ToStr b = Normal s) /\
    (URI.isWellFormed s = false -> strToBase64 s = Throw URIError).
Proof.
  intros s Hunits. split; intros Hwf.
  - destruct (decode_encode s Hunits Hwf) as (e & He & Hb & Hd).
    destruct (atob_btoa e Hb) as [Hbtoa Hatob].
    exists (Base64.encode e). unfold strToBase64, base64ToStr.
    rewrite He. cbn [bind]. rewrite Hbtoa, Hatob. cbn [bind]. auto.
  - unfold strToBase64.
    rewrite (encode_ill_formed (List.length s) s (le_n _) Hwf). reflexivity.
Qed.

(** "Caf<e-acute> <euro> <grinning face> 100%" *)
Lemma base64ToStr_strToBase64_witness :
  exists b,
    strToBase64 (js "Caf" ++ [233; 32; 8364; 32; 55357; 56832] ++ js " 100%")
      = Normal b /\
    base64ToStr b =
      Normal (js "Caf" ++ [233; 32; 8364; 32; 55357; 56832] ++ js " 100%").
Proof.
  apply base64ToStr_strToBase64.
  - repeat constructor; unfold code_unit; lia.
  - reflexivity.
Defined.

End Base64Props.

(** ** Binary64 arithmetic on integers *)

Module NumFacts.
Import JS Num Tactics.

(** *** Digits *)

Lemma digits2_log2 (p : positive) :
  Zpos (digits2_pos p) = Z.log2 (Zpos p) + 1.
Proof.
  assert (S : forall q, digits2_pos q = Pos.size q).
  { induction q; simpl; congruence. }
  rewrite S. destruct p; simpl; lia.
Qed.

(** [d] is the number of binary digits of [z]. *)
Lemma digits2_bounds (p : positive) :
  2 ^ (Zpos (digits2_pos p) - 1) <= Zpos p < 2 ^ Zpos (digits2_pos p).
Proof.
  rewrite digits2_log2.
  replace (Z.log2 (Zpos p) + 1 - 1) with (Z.log2 (Zpos p)) by lia.
  apply Z.log2_spec. lia.
Qed.

Lemma digits2_unique (p : positive) (d : Z) :
  2 ^ (d - 1) <= Zpos p < 2 ^ d -> Zpos (digits2_pos p) = d.
Proof.
  intros H. rewrite digits2_log2.
  assert (0 <= d - 1).
  { destruct (Z.le_gt_cases 0 (d - 1)) as [|Hneg]; [assumption|].
    destruct (Z.eq_dec d 0) as [->|]; [simpl in H; lia|].
    rewrite (Z.pow_neg_r 2 d) in H by lia. lia. }
  rewrite (Z.log2_unique (Zpos p) (d - 1)); [lia | assumption |].
  replace (Z.succ (d - 1)) with d by lia. exact H.
Qed.

Lemma iter_xO (p d : positive) :
  Zpos (Pos.iter xO p d) = Zpos p * 2 ^ Zpos d.
Proof.
  induction d as [|d IH] using Pos.peano_ind.
  - simpl. lia.
  - rewrite Pos.iter_succ, Pos2Z.inj_xO, IH, Pos2Z.inj_succ, Z.pow_succ_r by lia.
    lia.
Qed.

Lemma pow2_pos (k : Z) : 0 <= k -> 0 < 2 ^ k.
Proof. intros. apply Z.pow_pos_nonneg; lia. Qed.

Lemma pow2_split (a b : Z) : 0 <= a -> 0 <= b -> 2 ^ (a + b) = 2 ^ a * 2 ^ b.
Proof. intros. apply Z.pow_add_r; assumption. Qed.

(** *** Rounding a value that needs no rounding *)

Lemma fexp_normal (x : Z) : -1021 <= x -> fexp prec emax x = x - 53.
Proof. intros H. unfold fexp, emin, prec, emax. lia. Qed.

(** A mantissa of 53 digits in the exponent range is kept as it is. *)
Lemma binary_round_aux_exact (sx : bool) (m : positive) (e : Z) :
  Zpos (digits2_pos m) = 53 -> -1074 <= e <= 971 ->
  binary_round_aux prec emax sx (Zpos m) e loc_Exact = S754_finite sx m e.
Proof.
  intros Hd He. unfold binary_round_aux, shr_fexp.
  cbn [Zdigits2 shr_record_of_loc]. rewrite Hd.
  rewrite fexp_normal by lia. replace (53 + e - 53 - e) with 0 by lia.
  cbn [shr shr_m loc_of_shr_record round_nearest_even Zdigits2].
  rewrite Hd, fexp_normal by lia. replace (53 + e - 53 - e) with 0 by lia.
  cbn [shr shr_m]. unfold prec, emax.
  replace (e <=? 1024 - 53) with true by (symmetry; apply Z.leb_le; lia).
  reflexivity.
Qed.

(** The Number of an integer below 2^53 scaled by a power of two: the
    mantissa is shifted up to 53 digits, nothing is lost. *)
Lemma binary_normalize_exact (z e0 : Z) (sz : bool) :
  0 < z < 2 ^ 53 -> -1000 <= e0 <= 900 ->
  exists (m : positive) (e : Z),
    binary_normalize prec emax z e0 sz = S754_finite false m e /\
    Zpos (digits2_pos m) = 53 /\
    e <= e0 /\ e0 - e <= 52 /\
    Zpos m = z * 2 ^ (e0 - e).
Proof.
  intros Hz He0. destruct z as [|p|p]; try lia.
  unfold binary_normalize, binary_round, shl_align.
  pose proof (digits2_bounds p) as Hb.
  assert (Hd : 1 <= Zpos (digits2_pos p) <= 53).
  { split; [lia|]. destruct (Z.le_gt_cases (Zpos (digits2_pos p)) 53); [assumption|].
    assert (2 ^ 53 <= 2 ^ (Zpos (digits2_pos p) - 1))
      by (apply Z.pow_le_mono_r; lia). lia. }
  rewrite fexp_normal by lia.
  destruct (Zpos (digits2_pos p) + e0 - 53 - e0) as [|k|k] eqn:Ek; try lia.
  - exists p, e0. rewrite binary_round_aux_exact by lia.
    replace (e0 - e0) with 0 by lia. repeat split; lia.
  - exists (Pos.iter xO p k), (Zpos (digits2_pos p) + e0 - 53).
    assert (Hv : Zpos (Pos.iter xO p k) = Zpos p * 2 ^ Zpos k)
      by apply iter_xO.
    assert (Hk : Zpos k = 53 - Zpos (digits2_pos p)) by lia.
    assert (Hdig : Zpos (digits2_pos (Pos.iter xO p k)) = 53).
    { apply digits2_unique. rewrite Hv, Hk.
      assert (E52 : 2 ^ (53 - 1) =
                    2 ^ (Zpos (digits2_pos p) - 1) * 2 ^ (53 - Zpos (digits2_pos p))).
      { rewrite <- pow2_split by lia. f_equal. lia. }
      assert (E53 : 2 ^ 53 =
                    2 ^ Zpos (digits2_pos p) * 2 ^ (53 - Zpos (digits2_pos p))).
      { rewrite <- pow2_split by lia. f_equal. lia. }
      rewrite E52, E53.
      assert (0 < 2 ^ (53 - Zpos (digits2_pos p))) by (apply pow2_pos; lia).
      nia. }
    rewrite binary_round_aux_exact by lia.
    repeat split; try lia.
    rewrite Hv. f_equal. f_equal. lia.
Qed.

(** *** Integers as Numbers *)

Lemma ofZ_pos (s : Z) :
  0 < s < 2 ^ 53 ->
  exists (m : positive) (e : Z),
    ofZ s = S754_finite false m e /\
    Zpos (digits2_pos m) = 53 /\ -52 <= e <= 0 /\
    Zpos m = s * 2 ^ (- e).
Proof.
  intros Hs. unfold ofZ.
  destruct (binary_normalize_exact s 0 false Hs ltac:(lia))
    as (m & e & E & Hd & He1 & He2 & Hm).
  exists m, e. repeat split; try assumption; lia.
Qed.

Lemma ofZ_canonical (m : positive) :
  Zpos (digits2_pos m) = 53 -> ofZ (Zpos m) = S754_finite false m 0.
Proof.
  intros Hd. unfold ofZ, binary_normalize, binary_round, shl_align.
  rewrite Hd, fexp_normal by lia. cbn [Z.add Z.sub Z.opp Pos.sub Z.pos_sub].
  replace (53 + 0 - 53 - 0) with 0 by lia.
  apply binary_round_aux_exact; [assumption | lia].
Qed.

(** [Math.floor] of a positive Number with a full mantissa. *)
Lemma floor_finite (m : positive) (e : Z) :
  Zpos (digits2_pos m) = 53 -> e <= 0 ->
  floor (S754_finite false m e) = ofZ (Zpos m / 2 ^ (- e)).
Proof.
  intros Hd He. unfold floor. destruct (Z.leb_spec 0 e) as [H0 | Hneg].
  - assert (e = 0) by lia. subst e. cbn [Z.opp Z.pow].
    rewrite Z.div_1_r. symmetry. apply ofZ_canonical. assumption.
  - reflexivity.
Qed.

Lemma integerValue_ofZ (a : Z) :
  0 <= a < 2 ^ 53 -> integerValue (ofZ a) = Some a.
Proof.
  intros Ha. destruct (Z.eq_dec a 0) as [-> | Hne]; [reflexivity|].
  destruct (ofZ_pos a ltac:(lia)) as (m & e & -> & Hd & He & Hm).
  unfold integerValue. cbn [cond_Zopp].
  assert (Hp : 0 < 2 ^ (- e)) by (apply pow2_pos; lia).
  destruct (Z.leb_spec 0 e) as [H0 | Hneg].
  - assert (e = 0) by lia. subst e. rewrite Hm. f_equal. simpl. lia.
  - rewrite Hm, Z.mod_mul by lia. cbn [Z.eqb].
    rewrite Z.div_mul by lia. reflexivity.
Qed.

(** An integer below 2^53 prints as its decimal digits. *)
Lemma toString_ofZ (other : number -> jsstring) (a : Z) :
  0 <= a < 2 ^ 53 -> toString other (ofZ a) = decimal a.
Proof.
  intros Ha. unfold toString.
  rewrite (integerValue_ofZ a Ha).
  replace (Z.abs a <=? 2 ^ 53) with true by (symmetry; apply Z.leb_le; lia).
  destruct (Z.eq_dec a 0) as [-> | Hne]; [reflexivity|].
  destruct (ofZ_pos a ltac:(lia)) as (m & e & -> & _). reflexivity.
Qed.

(** *** The remainder by 60 *)

Lemma ofZ_60 : ofZ 60 = S754_finite false 8444249301319680 (-47).
Proof. reflexivity. Qed.

Lemma remainder_60 (s : Z) :
  0 < s < 2 ^ 53 ->
  floor (remainder (ofZ s) (ofZ 60)) = ofZ (s mod 60).
Proof.
  intros Hs. rewrite ofZ_60.
  destruct (ofZ_pos s Hs) as (m & e & -> & Hd & He & Hm).
  unfold remainder. cbn [cond_Zopp].
  set (e' := Z.min e (-47)).
  assert (He' : e' <= e /\ e' <= -47 /\ -52 <= e') by (unfold e'; lia).
  assert (Hp : 0 < 2 ^ (- e')) by (apply pow2_pos; lia).
  assert (Ea : Zpos m * 2 ^ (e - e') = s * 2 ^ (- e')).
  { rewrite Hm, <- Z.mul_assoc, <- pow2_split by lia. do 2 f_equal. lia. }
  assert (Eb : 8444249301319680 * 2 ^ (-47 - e') = 60 * 2 ^ (- e')).
  { replace (- e') with (47 + (-47 - e')) by lia.
    rewrite pow2_split by lia. change (2 ^ 47) with 140737488355328. lia. }
  rewrite Ea, Eb, Z.mul_mod_distr_r by lia.
  assert (Hr : 0 <= s mod 60 < 60) by (apply Z.mod_pos_bound; lia).
  destruct (Z.eq_dec (s mod 60) 0) as [E0 | Hne].
  { rewrite E0. reflexivity. }
  (* the remainder, scaled, still fits in 53 bits *)
  assert (Hfit : s mod 60 * 2 ^ (- e') < 2 ^ 53).
  { destruct (Z.eq_dec e' (-47)) as [E47 | Hlow].
    - rewrite E47. change (2 ^ (- -47)) with 140737488355328.
      change (2 ^ 53) with 9007199254740992. lia.
    - assert (e' = e) by (unfold e' in *; lia).
      pose proof (digits2_bounds m) as Hb. rewrite Hd in Hb.
      assert (s mod 60 <= s) by (apply Z.mod_le; lia).
      subst e'. rewrite H in *. nia. }
  destruct (binary_normalize_exact (s mod 60 * 2 ^ (- e')) e' false)
    as (m2 & e2 & E & Hd2 & He2 & He2' & Hm2); [nia | lia |].
  rewrite E.
  assert (Hv : Zpos m2 = s mod 60 * 2 ^ (- e2)).
  { rewrite Hm2, <- Z.mul_assoc, <- pow2_split by lia. do 2 f_equal. lia. }
  rewrite floor_finite by (assumption || lia).
  rewrite Hv, Z.div_mul; [reflexivity|].
  assert (0 < 2 ^ (- e2)) by (apply pow2_pos; lia). lia.
Qed.

(** *** The quotient by 60 *)

Lemma loc_of_record_of_loc (m : Z) (l : location) :
  loc_of_shr_record (shr_record_of_loc m l) = l /\
  shr_m (shr_record_of_loc m l) = m.
Proof. destruct l as [|[| |]]; split; reflexivity. Qed.

(** One step of right shift halves the mantissa, remembers the bit that is
    shifted out and accumulates what was lost before. *)
Lemma shr_1_record_of_loc (q : positive) (l : location) :
  shr_1 (shr_record_of_loc (Zpos q) l) =
  {| shr_m := Z.div2 (Zpos q);
     shr_r := Z.odd (Zpos q);
     shr_s := match l with loc_Exact => false | _ => true end |}.
Proof. destruct l as [|[| |]], q; reflexivity. Qed.

(** The location of the exact quotient between [q] and [q + 1]. *)
Lemma new_location_cases (d r : Z) :
  Z.even d = true -> 0 <= r < d ->
  (r = 0 /\ new_location d r = loc_Exact) \/
  (0 < 2 * r < d /\ new_location d r = loc_Inexact Lt) \/
  (2 * r = d /\ new_location d r = loc_Inexact Eq) \/
  (d < 2 * r /\ new_location d r = loc_Inexact Gt).
Proof.
  intros He Hr. unfold new_location. rewrite He. unfold new_location_even.
  destruct (Z.eqb_spec r 0) as [-> | Hne]; [left; auto|].
  right. destruct (Z.compare_spec (2 * r) d) as [E | L | G].
  - right; left. auto.
  - left. split; [lia | reflexivity].
  - right; right. auto.
Qed.

(** Rounding to nearest picks an integer at distance at most one half. *)
Lemma round_nearest_close (q d r : Z) :
  Z.even d = true -> 0 <= r < d ->
  let mr := round_nearest_even q (new_location d r) in
  q <= mr <= q + 1 /\ - d <= 2 * (mr * d - (q * d + r)) <= d.
Proof.
  intros He Hr mr. subst mr.
  destruct (new_location_cases d r He Hr)
    as [[H ->] | [[H ->] | [[H ->] | [H ->]]]]; cbn [round_nearest_even];
    try (destruct (Z.even q)); lia.
Qed.

(** The same after one step of shift: the nearest integer to half the
    exact quotient. *)
Lemma round_nearest_close_shifted (q : positive) (d r : Z) :
  Z.even d = true -> 0 <= r < d ->
  let mrs := shr_1 (shr_record_of_loc (Zpos q) (new_location d r)) in
  let mr := round_nearest_even (shr_m mrs) (loc_of_shr_record mrs) in
  Zpos q / 2 <= mr <= Zpos q / 2 + 1 /\
  - (2 * d) <= 2 * (mr * (2 * d) - (Zpos q * d + r)) <= 2 * d.
Proof.
  intros He Hr mrs mr. subst mr mrs. rewrite shr_1_record_of_loc.
  cbn [shr_m]. rewrite Z.div2_div.
  pose proof (Z.div_mod (Zpos q) 2 ltac:(lia)) as Hq.
  pose proof (Z.mod_pos_bound (Zpos q) 2 ltac:(lia)) as Hb.
  rewrite Zmod_odd in Hq, Hb.
  set (h := Zpos q / 2) in *.
  destruct (new_location_cases d r He Hr)
    as [[H ->] | [[H ->] | [[H ->] | [H ->]]]];
    destruct (Z.odd (Zpos q)); cbn [loc_of_shr_record round_nearest_even];
    try (destruct (Z.even h)); nia.
Qed.

(** If [mr] is within one half of [s * P / 60] and [P] is at least 32,
    then [mr / P] is the integer quotient of [s] by 60. *)
Lemma nearest_floor (s P mr : Z) :
  0 <= s -> 32 <= P ->
  -60 <= 2 * (60 * mr - s * P) <= 60 ->
  mr / P = s / 60.
Proof.
  intros Hs HP Hn.
  pose proof (Z.div_mod s 60 ltac:(lia)) as Hd.
  pose proof (Z.mod_pos_bound s 60 ltac:(lia)) as Hb.
  set (a := s / 60) in *. set (rho := s mod 60) in *.
  symmetry. apply Z.div_unique with (r := mr - a * P); [|lia].
  left. nia.
Qed.

Lemma div_core_60 (m : positive) (e : Z) :
  Zpos (digits2_pos m) = 53 -> -52 <= e <= 0 ->
  SFdiv_core_binary prec emax (Zpos m) e 8444249301319680 (-47) =
  ((Zpos m * 2 ^ 53) / 8444249301319680, e - 6,
   new_location 8444249301319680 ((Zpos m * 2 ^ 53) mod 8444249301319680)).
Proof.
  intros Hd He. unfold SFdiv_core_binary. cbv zeta. cbn [Zdigits2].
  rewrite Hd. change (Zpos (digits2_pos 8444249301319680)) with 53.
  rewrite fexp_normal by lia.
  replace (Z.min (53 + e - (53 + -47) - 53) (e - -47)) with (e - 6) by lia.
  replace (e - -47 - (e - 6)) with 53 by lia.
  rewrite Z.shiftl_mul_pow2 by lia.
  unfold Z.div, Z.modulo.
  destruct (Z.div_eucl (Zpos m * 2 ^ 53) 8444249301319680). reflexivity.
Qed.

Lemma pow2_scaled (e k : Z) :
  e <= 0 -> 0 <= k -> 2 ^ (- (e - k)) = 2 ^ k * 2 ^ (- e).
Proof.
  intros. replace (- (e - k)) with (k + - e) by lia. apply pow2_split; lia.
Qed.

Lemma div_60 (s : Z) :
  0 < s < 2 ^ 53 ->
  floor (div (ofZ s) (ofZ 60)) = ofZ (s / 60).
Proof.
  intros Hs. rewrite ofZ_60.
  destruct (ofZ_pos s Hs) as (m & e & -> & Hd & He & Hm).
  unfold div, SFdiv. rewrite div_core_60 by assumption. cbn [xorb].
  pose proof (digits2_bounds m) as Hmb. rewrite Hd in Hmb.
  change (2 ^ (53 - 1)) with 4503599627370496 in Hmb.
  change (2 ^ 53) with 9007199254740992 in *.
  set (K := 2 ^ (- e)) in *.
  assert (HK : 1 <= K) by (pose proof (pow2_pos (- e)); unfold K; lia).
  set (N := Zpos m * 9007199254740992).
  pose proof (Z.div_mod N 8444249301319680 ltac:(lia)) as HN.
  pose proof (Z.mod_pos_bound N 8444249301319680 ltac:(lia)) as Hr.
  set (q := N / 8444249301319680) in *.
  set (r := N mod 8444249301319680) in *.
  assert (Hq : 4503599627370496 <= q < 18014398509481984) by (unfold N in HN; lia).
  destruct q as [|qp|qp] eqn:Eq; try lia.
  unfold binary_round_aux, shr_fexp. cbn [Zdigits2].
  destruct (Z.lt_ge_cases (Zpos qp) 9007199254740992) as [Hlow | Hhigh].
  - (* the quotient has 53 digits *)
    rewrite (digits2_unique qp 53) by (simpl; lia).
    rewrite fexp_normal by lia.
    replace (53 + (e - 6) - 53 - (e - 6)) with 0 by lia. cbn [shr].
    destruct (loc_of_record_of_loc (Zpos qp) (new_location 8444249301319680 r))
      as [-> ->].
    destruct (round_nearest_close (Zpos qp) 8444249301319680 r eq_refl Hr)
      as [Hmr Hnear].
    set (mr := round_nearest_even (Zpos qp) (new_location 8444249301319680 r)) in *.
    destruct mr as [|mp|mp] eqn:Emr; try lia. cbn [Zdigits2].
    destruct (Z.lt_ge_cases (Zpos mp) 9007199254740992) as [Hlow' | Hhigh'].
    + rewrite (digits2_unique mp 53) by (simpl; lia).
      rewrite fexp_normal by lia.
      replace (53 + (e - 6) - 53 - (e - 6)) with 0 by lia. cbn [shr shr_m shr_record_of_loc].
      unfold prec, emax.
      replace (e - 6 <=? 1024 - 53) with true by (symmetry; apply Z.leb_le; lia).
      rewrite floor_finite by (try apply digits2_unique; simpl; lia).
      f_equal. rewrite pow2_scaled by lia. fold K.
      change (2 ^ 6) with 64.
      apply nearest_floor; unfold N in *; lia.
    + assert (Emp : mp = 9007199254740992%positive) by lia. subst mp.
      change (Zpos (digits2_pos 9007199254740992)) with 54.
      rewrite fexp_normal by lia.
      replace (54 + (e - 6) - 53 - (e - 6)) with 1 by lia.
      cbn [shr iter_pos shr_record_of_loc shr_1 shr_m].
      unfold prec, emax.
      replace (e - 6 + 1 <=? 1024 - 53) with true by (symmetry; apply Z.leb_le; lia).
      rewrite floor_finite by (reflexivity || lia).
      f_equal. replace (e - 6 + 1) with (e - 5) by lia.
      rewrite pow2_scaled by lia. fold K. change (2 ^ 5) with 32.
      apply nearest_floor; unfold N in *; lia.
  - (* the quotient has 54 digits and loses one *)
    rewrite (digits2_unique qp 54) by (simpl; lia).
    rewrite fexp_normal by lia.
    replace (54 + (e - 6) - 53 - (e - 6)) with 1 by lia. cbn [shr iter_pos].
    destruct (round_nearest_close_shifted qp 8444249301319680 r eq_refl Hr)
      as [Hmr Hnear].
    set (mrs := shr_1 (shr_record_of_loc (Zpos qp) (new_location 8444249301319680 r))) in *.
    set (mr := round_nearest_even (shr_m mrs) (loc_of_shr_record mrs)) in *.
    assert (Hh : 4503599627370496 <= Zpos qp / 2 < 9007199254740992 - 1)
      by (Z.div_mod_to_equations; lia).
    destruct mr as [|mp|mp] eqn:Emr; try lia. cbn [Zdigits2].
    rewrite (digits2_unique mp 53) by (simpl; lia).
    rewrite fexp_normal by lia.
    replace (53 + (e - 6 + 1) - 53 - (e - 6 + 1)) with 0 by lia.
    cbn [shr shr_m shr_record_of_loc].
    unfold prec, emax.
    replace (e - 6 + 1 <=? 1024 - 53) with true by (symmetry; apply Z.leb_le; lia).
    rewrite floor_finite by (try apply digits2_unique; simpl; lia).
    f_equal. replace (e - 6 + 1) with (e - 5) by lia.
    rewrite pow2_scaled by lia. fold K. change (2 ^ 5) with 32.
    apply nearest_floor; unfold N in *; lia.
Qed.

(** *** Seconds *)

Lemma seconds_two_digits (other : number -> jsstring) (r : Z) :
  0 <= r < 60 ->
  (if ltb (ofZ r) (ofZ 10)
   then js "0" ++ toString other (ofZ r)
   else toString other (ofZ r)) = Spec.twoDigits r.
Proof.
  intros Hr. destruct r as [|p|p]; try lia; [reflexivity|].
  do 6 (try destruct p as [p|p|]; try lia); reflexivity.
Qed.

End NumFacts.

(** ** Time Formatter *)

Module FormatTimeProps.
Import JS Num Utils Spec NumFacts.

(** C5 as the specification states it, for every integer from 0 on,
    fails.  The Number 67553994410557496 is an integer; dividing it by 60
    rounds 1125899906842624.93... up to the next Number, and the minutes
    come out one too many. *)
Lemma formatTime_large_integer :
  integerValue (ofZ 67553994410557496) = Some 67553994410557496 /\
  formatTime (fun _ => S754_nan) (fun _ => [])
             (inl (ofZ 67553994410557496)) = js "1125899906842625:56" /\
  formatDuration 67553994410557496 = js "1125899906842624:56".
Proof. repeat split; vm_compute; reflexivity. Qed.

(** C5, amended.  For every integer [s] with 0 <= s <= 2^53 - 1, the
    integers a Number holds exactly, [formatTime] returns the minutes
    [floor(s/60)] in decimal without padding, a colon, and the seconds
    [s mod 60] as two digits; so 0 gives "0:00", 59 gives "0:59", 60 gives
    "1:00", 225 gives "3:45" and 3661 gives "61:01". *)
Theorem formatTime_minutes_seconds :
  forall (stringToNumber : jsstring -> number)
         (numberToStringOther : number -> jsstring),
    (forall s : Z,
       0 <= s <= 2 ^ 53 - 1 ->
       formatTime stringToNumber numberToStringOther (inl (ofZ s)) =
       decimal (s / 60) ++ js ":" ++ twoDigits (s mod 60)) /\
    formatTime stringToNumber numberToStringOther (inl (ofZ 0)) = js "0:00" /\
    formatTime stringToNumber numberToStringOther (inl (ofZ 59)) = js "0:59" /\
    formatTime stringToNumber numberToStringOther (inl (ofZ 60)) = js "1:00" /\
    formatTime stringToNumber numberToStringOther (inl (ofZ 225)) = js "3:45" /\
    formatTime stringToNumber numberToStringOther (inl (ofZ 3661)) = js "61:01".
Proof.
  intros stn other. split; [|repeat split; reflexivity].
  intros s Hs. unfold formatTime, toNumber.
  destruct (Z.eq_dec s 0) as [-> | Hne]; [reflexivity|].
  assert (Hs' : 0 < s < 2 ^ 53) by lia.
  rewrite (div_60 s Hs'), (remainder_60 s Hs').
  assert (Hq : 0 <= s / 60 < 2 ^ 53).
  { change (2 ^ 53) with 9007199254740992 in *. Z.div_mod_to_equations. lia. }
  rewrite (toString_ofZ other (s / 60) Hq).
  rewrite (seconds_two_digits other (s mod 60))
    by (apply Z.mod_pos_bound; lia).
  reflexivity.
Qed.

Lemma formatTime_minutes_seconds_witness :
  formatTime (fun _ => S754_nan) (fun _ => []) (inl (ofZ 7384)) = js "123:04".
Proof.
  rewrite (proj1 (formatTime_minutes_seconds (fun _ => S754_nan) (fun _ => []))
                 7384 ltac:(lia)).
  reflexivity.
Defined.

End FormatTimeProps.

(** ** More on slugs *)

Module SlugProps.
Import JS Utils More ClearUrlFacts Tactics.

Lemma replaceAll_from_Forall (P : Z -> Prop) (pat rep : jsstring) :
  Forall P rep ->
  forall (s : jsstring) (k : nat),
    Forall P s -> Forall P (replaceAll_from pat rep s k).
Proof.
  intros Hrep s. induction s as [|c s IH]; intros k Hs; [constructor|].
  inversion Hs as [|? ? Hc Hs']; subst. cbn [replaceAll_from].
  destruct k; [|auto].
  destruct (starts_with pat (c :: s)).
  - apply Forall_app. auto.
  - constructor; auto.
Qed.

(** Replacing the spaces leaves none. *)
Lemma replace_spaces_slugChar (s : jsstring) :
  Forall (fun c => RegExp.class_w c || RegExp.class_s c = true) s ->
  Forall (fun c => slugChar c = true) (replaceAll (js " ") (js "-") s).
Proof.
  unfold replaceAll. cbn [js list_ascii_of_string map].
  change (Z.of_N (N_of_ascii " ")) with 32.
  change (Z.of_N (N_of_ascii "-")) with 45.
  induction 1 as [|c s Hc _ IH]; [constructor|].
  cbn [replaceAll_from starts_with List.length Nat.sub].
  rewrite andb_true_r. destruct (Z.eqb_spec 32 c) as [<- | Hne].
  - constructor; [reflexivity | exact IH].
  - constructor; [|exact IH]. unfold slugChar.
    apply Z.eqb_neq in Hne. rewrite Z.eqb_sym in Hne. rewrite Hne.
    cbn [negb]. rewrite andb_true_r.
    apply orb_true_iff in Hc as [-> | ->]; [reflexivity|].
    rewrite !orb_true_r. reflexivity.
Qed.

Lemma strip_class (s : jsstring) :
  Forall (fun c => RegExp.class_w c || RegExp.class_s c = true)
         (RegExp.replaceClassGlobal notWordNorSpace [] s).
Proof.
  unfold RegExp.replaceClassGlobal, notWordNorSpace.
  induction s as [|c s IH]; [constructor|]. cbn [flat_map].
  destruct (RegExp.class_w c || RegExp.class_s c) eqn:E; cbn [negb app].
  - constructor; assumption.
  - exact IH.
Qed.

Lemma strip_class_Forall (P : Z -> Prop) (p : Z -> bool) (s : jsstring) :
  Forall P s -> Forall P (RegExp.replaceClassGlobal p [] s).
Proof.
  unfold RegExp.replaceClassGlobal. induction 1 as [|c s Hc _ IH]; [constructor|].
  cbn [flat_map]. destruct (p c); cbn [app]; [assumption | constructor; assumption].
Qed.

Lemma asciiLower_not_upper (c : Z) : isUpper (Case.asciiLower c) = false.
Proof.
  unfold Case.asciiLower, isUpper.
  destruct ((65 <=? c) && (c <=? 90)) eqn:E; [|exact E].
  apply andb_true_iff in E as [H1 H2]. apply Z.leb_le in H1, H2.
  zbool. reflexivity.
Qed.

(** X1.  Whatever the input and the host's lower-casing, a slug holds no
    space: each of its characters is a word character, a hyphen, or
    whitespace other than the space.  For ASCII input it holds no
    upper-case letter either. *)
Theorem clearUrl_alphabet :
  forall (unicodeLower : jsstring -> jsstring) (url : jsstring),
    Forall (fun c => slugChar c = true) (clearUrl unicodeLower url) /\
    ~ In 32 (clearUrl unicodeLower url) /\
    (forallb Case.isASCII url = true ->
     Forall (fun c => isUpper c = false) (clearUrl unicodeLower url)).
Proof.
  intros lower url.
  assert (H : Forall (fun c => slugChar c = true) (clearUrl lower url)).
  { unfold clearUrl. unfold replaceAll at 1. cbn [js list_ascii_of_string map].
    apply replaceAll_from_Forall; [repeat constructor|].
    apply replace_spaces_slugChar, strip_class. }
  split; [exact H|]. split.
  - intros Hin. rewrite Forall_forall in H. specialize (H 32 Hin).
    discriminate H.
  - intros Hascii. unfold clearUrl, Case.toLowerCase. rewrite Hascii.
    unfold replaceAll. cbn [js list_ascii_of_string map].
    repeat (apply replaceAll_from_Forall; [repeat constructor|]).
    apply strip_class_Forall. apply Forall_forall.
    intros c Hc. apply in_map_iff in Hc as (d & <- & _).
    apply asciiLower_not_upper.
Qed.

Lemma clearUrl_alphabet_witness :
  Forall (fun c => isUpper c = false) (clearUrl (fun s => s) (js "Tum Hi Ho")).
Proof.
  apply (proj2 (proj2 (clearUrl_alphabet (fun s => s) (js "Tum Hi Ho")))).
  reflexivity.
Defined.

Lemma replaceAll_from_prefix (h : Z) (pt rep a rest : jsstring) :
  Forall (fun c => c <> h) a ->
  replaceAll_from (h :: pt) rep (a ++ rest) 0 =
  a ++ replaceAll_from (h :: pt) rep rest 0.
Proof.
  induction 1 as [|c a Hc _ IH]; [reflexivity|].
  cbn [app replaceAll_from starts_with].
  replace (h =? c) with false by (symmetry; apply Z.eqb_neq; congruence).
  cbn [andb]. rewrite IH. reflexivity.
Qed.

Lemma replaceAll_from_untouched (h : Z) (pt rep a : jsstring) :
  Forall (fun c => c <> h) a ->
  replaceAll_from (h :: pt) rep a 0 = a.
Proof.
  intros H. pose proof (replaceAll_from_prefix h pt rep a [] H) as E.
  rewrite !app_nil_r in E. exact E.
Qed.

Lemma word_char_facts (c : Z) :
  RegExp.class_w c = true ->
  c <> 32 /\ c <> 45 /\ Case.isASCII c = true /\
  RegExp.class_w (Case.asciiLower c) = true.
Proof.
  intros Hw.
  assert (R : ((65 <= c <= 90 \/ 97 <= c <= 122) \/ 48 <= c <= 57) \/ c = 95).
  { unfold RegExp.class_w in Hw.
    rewrite !orb_true_iff, !andb_true_iff, !Z.leb_le, Z.eqb_eq in Hw.
    exact Hw. }
  split; [lia|]. split; [lia|]. split.
  - unfold Case.isASCII. zbool. reflexivity.
  - unfold Case.asciiLower.
    destruct ((65 <=? c) && (c <=? 90)) eqn:E; [|exact Hw].
    apply andb_true_iff in E as [H1 H2]. apply Z.leb_le in H1, H2.
    unfold RegExp.class_w. zbool. reflexivity.
Qed.

Lemma strip_keeps (s : jsstring) :
  Forall (fun c => notWordNorSpace c = false) s ->
  RegExp.replaceClassGlobal notWordNorSpace [] s = s.
Proof.
  unfold RegExp.replaceClassGlobal.
  induction 1 as [|c s Hc _ IH]; [reflexivity|].
  cbn [flat_map]. rewrite Hc, IH. reflexivity.
Qed.

(** X2.  Between two words, a run of [n] spaces becomes [n/2] rounded up
    hyphens: hyphens are collapsed pairwise, once, so three spaces leave
    two hyphens and five leave three.  The words are lower-cased and
    otherwise kept. *)
Theorem clearUrl_words_and_spaces :
  forall (unicodeLower : jsstring -> jsstring) (a b : jsstring) (n : nat),
    Forall (fun c => RegExp.class_w c = true) a ->
    Forall (fun c => RegExp.class_w c = true) b ->
    clearUrl unicodeLower (a ++ repeat 32 n ++ b) =
    map Case.asciiLower a ++ repeat 45 ((n + 1) / 2) ++ map Case.asciiLower b.
Proof.
  intros lower a b n Ha Hb.
  assert (Hlow : forall w, Forall (fun c => RegExp.class_w c = true) w ->
             Forall (fun c => RegExp.class_w c = true) (map Case.asciiLower w)).
  { intros w Hw. rewrite Forall_forall in *. intros c Hc.
    apply in_map_iff in Hc as (d & <- & Hd). apply word_char_facts; auto. }
  assert (Hne : forall (h : Z) w, h = 32 \/ h = 45 ->
             Forall (fun c => RegExp.class_w c = true) w ->
             Forall (fun c => c <> h) w).
  { intros h w Hh Hw. rewrite Forall_forall in *. intros c Hc.
    destruct (word_char_facts c (Hw c Hc)) as (H1 & H2 & _).
    destruct Hh; subst; assumption. }
  unfold clearUrl, Case.toLowerCase.
  assert (Hascii : forallb Case.isASCII (a ++ repeat 32 n ++ b) = true).
  { apply forallb_forall. intros c Hc.
    apply in_app_or in Hc as [Hc | Hc];
      [|apply in_app_or in Hc as [Hc | Hc]].
    - rewrite Forall_forall in Ha. apply word_char_facts; auto.
    - apply repeat_spec in Hc. subst c. reflexivity.
    - rewrite Forall_forall in Hb. apply word_char_facts; auto. }
  rewrite Hascii, !map_app, map_repeat.
  change (Case.asciiLower 32) with 32.
  set (a' := map Case.asciiLower a). set (b' := map Case.asciiLower b).
  pose proof (Hlow a Ha) as Ha'. pose proof (Hlow b Hb) as Hb'.
  fold a' in Ha'. fold b' in Hb'.
  rewrite strip_keeps.
  2:{ apply Forall_forall. intros c Hc. unfold notWordNorSpace.
      apply in_app_or in Hc as [Hc | Hc];
        [|apply in_app_or in Hc as [Hc | Hc]].
      - rewrite Forall_forall in Ha'. rewrite (Ha' c Hc). reflexivity.
      - apply repeat_spec in Hc. subst c. reflexivity.
      - rewrite Forall_forall in Hb'. rewrite (Hb' c Hc). reflexivity. }
  assert (Espace : replaceAll (js " ") (js "-") (a' ++ repeat 32 n ++ b') =
                   a' ++ repeat 45 n ++ b').
  { change (replaceAll (js " ") (js "-") (a' ++ repeat 32 n ++ b'))
      with (replaceAll_from [32] [45] (a' ++ repeat 32 n ++ b') 0).
    rewrite replaceAll_from_prefix by (apply Hne; auto).
    f_equal.
    change (replaceAll_from [32] [45] (repeat 32 n ++ b') 0)
      with (replaceAll (js " ") (js "-") (repeat 32 n ++ b')).
    rewrite replace_spaces_run. f_equal.
    change (replaceAll (js " ") (js "-") b')
      with (replaceAll_from [32] [45] b' 0).
    apply replaceAll_from_untouched, Hne; auto. }
  rewrite Espace.
  change (replaceAll (js "--") (js "-") (a' ++ repeat 45 n ++ b'))
    with (replaceAll_from [45; 45] [45] (a' ++ repeat 45 n ++ b') 0).
  rewrite replaceAll_from_prefix by (apply Hne; auto). f_equal.
  change (replaceAll_from [45; 45] [45] (repeat 45 n ++ b') 0)
    with (replaceAll (js "--") (js "-") (repeat 45 n ++ b')).
  rewrite (collapse_hyphen_run n); [|lia|].
  - f_equal.
    change (replaceAll (js "--") (js "-") b')
      with (replaceAll_from [45; 45] [45] b' 0).
    apply replaceAll_from_untouched, Hne; auto.
  - destruct b' as [|c b'']; [reflexivity|].
    inversion Hb' as [|? ? Hc _]; subst.
    destruct (word_char_facts c Hc) as (_ & H45 & _).
    cbn [js list_ascii_of_string map starts_with].
    change (Z.of_N (N_of_ascii "-")) with 45.
    replace (45 =? c) with false by (symmetry; apply Z.eqb_neq; congruence).
    reflexivity.
Qed.

Lemma clearUrl_words_and_spaces_witness :
  clearUrl (fun s => s) (js "Tum_Hi" ++ repeat 32 3 ++ js "Ho2") =
  js "tum_hi--ho2".
Proof.
  rewrite clearUrl_words_and_spaces; [reflexivity | |];
    repeat constructor.
Defined.

End SlugProps.

(** ** More on the opaque encoding *)

Module EncodingProps.
Import JS Utils More Aux Base64 Base64Facts URIFacts Tactics.

Local Abbreviation bytes s := (Forall (fun c => 0 <= c <= 255) s).

Lemma base64Char_b64char (i : Z) : 0 <= i < 64 -> base64Char (b64char i) = true.
Proof. intros Hi. unfold base64Char. rewrite b64val_b64char by assumption. reflexivity. Qed.

Lemma encode_base64Char (e : list Z) :
  bytes e -> Forall (fun c => base64Char c = true) (encode e).
Proof.
  induction e as [|a|a b|a b c e IH] using list_ind3; intros He.
  - constructor.
  - inversion He as [|? ? Ha _]; subst.
    destruct (byte_sextets a 0 0 Ha) as (H1 & _ & _ & _ & H2 & _); try lia.
    cbn [encode]. repeat constructor; apply base64Char_b64char; assumption.
  - inversion He as [|? ? Ha He1]; subst. inversion He1 as [|? ? Hb _]; subst.
    destruct (byte_sextets a b 0 Ha Hb) as (H1 & H2 & _ & _ & _ & H3); try lia.
    cbn [encode]. repeat constructor; apply base64Char_b64char; assumption.
  - inversion He as [|? ? Ha He1]; subst. inversion He1 as [|? ? Hb He2]; subst.
    inversion He2 as [|? ? Hc He3]; subst.
    destruct (byte_sextets a b c Ha Hb Hc) as (H1 & H2 & H3 & H4 & _ & _).
    cbn [encode]. repeat (constructor; [apply base64Char_b64char; assumption|]).
    apply IH; assumption.
Qed.

(** What [strToBase64] returns is an encoding of octets. *)
Lemma strToBase64_inv (s b : jsstring) :
  strToBase64 s = Normal b ->
  exists e, URI.encodeURIComponent s = Normal e /\ bytes e /\ b = encode e.
Proof.
  unfold strToBase64. destruct (URI.encodeURIComponent s) as [e|x]; [|discriminate].
  cbn [bind]. unfold btoa.
  destruct (forallb (fun c => (0 <=? c) && (c <=? 255)) e) eqn:E; [|discriminate].
  intros H. inversion H; subst. exists e. repeat split.
  rewrite forallb_forall in E. apply Forall_forall. intros c Hc.
  apply isByte_range, E, Hc.
Qed.

(** X3.  Whenever [strToBase64] returns, what it returns is made of
    characters of the Base64 alphabet and the padding [=], and its length
    is a multiple of four. *)
Theorem strToBase64_shape :
  forall s b : jsstring,
    strToBase64 s = Normal b ->
    Forall (fun c => base64Char c = true) b /\
    Z.of_nat (List.length b) mod 4 = 0.
Proof.
  intros s b H. destruct (strToBase64_inv s b H) as (e & _ & He & ->).
  split; [apply encode_base64Char; assumption | apply encode_length].
Qed.

Lemma strToBase64_shape_witness :
  Forall (fun c => base64Char c = true) (js "JTNGcSUzRGE=") /\
  Z.of_nat (List.length (js "JTNGcSUzRGE=")) mod 4 = 0.
Proof.
  apply (strToBase64_shape (js "?q=a")). reflexivity.
Defined.

Lemma round_trip (s : jsstring) :
  Forall code_unit s -> URI.isWellFormed s = true ->
  bind (strToBase64 s) base64ToStr = Normal s.
Proof.
  intros Hu Hwf. destruct (decode_encode s Hu Hwf) as (e & He & Hb & Hd).
  destruct (atob_btoa e Hb) as [Hbtoa Hatob].
  unfold strToBase64, base64ToStr. rewrite He. cbn [bind].
  rewrite Hbtoa. cbn [bind]. rewrite Hatob. cbn [bind]. exact Hd.
Qed.

(** X4.  Two strings without unpaired surrogates that have the same
    encoding are the same string. *)
Theorem strToBase64_injective :
  forall s1 s2 : jsstring,
    Forall code_unit s1 -> URI.isWellFormed s1 = true ->
    Forall code_unit s2 -> URI.isWellFormed s2 = true ->
    strToBase64 s1 = strToBase64 s2 ->
    s1 = s2.
Proof.
  intros s1 s2 U1 W1 U2 W2 E.
  pose proof (round_trip s1 U1 W1) as R1.
  pose proof (round_trip s2 U2 W2) as R2.
  rewrite E in R1. rewrite R1 in R2. inversion R2. reflexivity.
Qed.

Lemma strToBase64_injective_witness :
  [233; 55357; 56832] = [233; 55357; 56832].
Proof.
  apply strToBase64_injective;
    try (repeat constructor; unfold code_unit; lia); reflexivity.
Defined.

(** *** Bad input to [base64ToStr] *)

Lemma stripPadding_keeps (c : Z) (d : jsstring) :
  In c d -> c <> 61 -> In c (stripPadding d).
Proof.
  intros Hin Hc. unfold stripPadding.
  destruct (Z.of_nat (List.length d) mod 4 =? 0); [|assumption].
  apply in_rev in Hin.
  destruct (rev d) as [|x [|y r]] eqn:E.
  - destruct Hin.
  - destruct (Z.eqb_spec x 61) as [-> | _].
    + destruct Hin as [<- | []]. congruence.
    + apply in_rev. rewrite E. exact Hin.
  - destruct (Z.eqb_spec x 61) as [-> | _].
    + destruct Hin as [<- | Hin]; [congruence|].
      destruct (Z.eqb_spec y 61) as [-> | _].
      * destruct Hin as [<- | Hin]; [congruence|]. apply in_rev in Hin. exact Hin.
      * apply in_rev in Hin. exact Hin.
    + apply in_rev. rewrite E. exact Hin.
Qed.

Lemma sextets_bad (c : Z) (d : jsstring) :
  In c d -> b64val c = None -> sextets d = None.
Proof.
  induction d as [|x d IH]; intros Hin Hc; [destruct Hin|].
  cbn [sextets]. destruct Hin as [-> | Hin].
  - rewrite Hc. reflexivity.
  - rewrite (IH Hin Hc). destruct (b64val x); reflexivity.
Qed.

(** X5.  A character that is neither of the Base64 alphabet, nor the
    padding, nor ASCII whitespace makes [base64ToStr] throw
    InvalidCharacterError, wherever it stands. *)
Theorem base64ToStr_invalid_character :
  forall (s : jsstring) (c : Z),
    In c s -> base64Char c = false -> isAsciiWhitespace c = false ->
    base64ToStr s = Throw InvalidCharacterError.
Proof.
  intros s c Hin Hbad Hws. unfold base64Char in Hbad.
  destruct (b64val c) eqn:Hval; [discriminate|].
  apply Z.eqb_neq in Hbad.
  unfold base64ToStr, atob.
  set (d := stripPadding (filter (fun c => negb (isAsciiWhitespace c)) s)).
  assert (Hd : In c d).
  { apply stripPadding_keeps; [|assumption].
    apply filter_In. split; [assumption|]. rewrite Hws. reflexivity. }
  destruct (Z.of_nat (List.length d) mod 4 =? 1); [reflexivity|].
  rewrite (sextets_bad c d Hd Hval). reflexivity.
Qed.

Lemma base64ToStr_invalid_character_witness :
  base64ToStr (js "SGVs-G8=") = Throw InvalidCharacterError.
Proof.
  apply (base64ToStr_invalid_character _ 45); [simpl; tauto | reflexivity ..].
Defined.

(** *** Decoding without the padding *)

Lemma encodeUnpadded_plain (e : list Z) :
  bytes e ->
  Forall (fun c => isAsciiWhitespace c = false /\ c <> 61) (encodeUnpadded e).
Proof.
  induction e as [|a|a b|a b c e IH] using list_ind3; intros He.
  - constructor.
  - inversion He as [|? ? Ha _]; subst.
    destruct (byte_sextets a 0 0 Ha) as (H1 & _ & _ & _ & H2 & _); try lia.
    cbn [encodeUnpadded]. repeat constructor; apply b64char_plain; assumption.
  - inversion He as [|? ? Ha He1]; subst. inversion He1 as [|? ? Hb _]; subst.
    destruct (byte_sextets a b 0 Ha Hb) as (H1 & H2 & _ & _ & _ & H3); try lia.
    cbn [encodeUnpadded]. repeat constructor; apply b64char_plain; assumption.
  - inversion He as [|? ? Ha He1]; subst. inversion He1 as [|? ? Hb He2]; subst.
    inversion He2 as [|? ? Hc He3]; subst.
    destruct (byte_sextets a b c Ha Hb Hc) as (H1 & H2 & H3 & H4 & _ & _).
    cbn [encodeUnpadded].
    repeat (constructor; [apply b64char_plain; assumption|]).
    apply IH; assumption.
Qed.

Lemma stripPadding_none (d : jsstring) :
  Forall (fun c => c <> 61) d -> stripPadding d = d.
Proof.
  intros H. unfold stripPadding.
  destruct (Z.of_nat (List.length d) mod 4 =? 0); [|reflexivity].
  destruct (rev d) as [|x r] eqn:E; [reflexivity|].
  assert (Hx : x <> 61).
  { rewrite Forall_forall in H. apply H, in_rev. rewrite E. left; reflexivity. }
  apply Z.eqb_neq in Hx. rewrite Hx. destruct r; reflexivity.
Qed.

Lemma atob_unpadded (e : list Z) :
  bytes e -> atob (encodeUnpadded e) = Normal e.
Proof.
  intros He. pose proof (encodeUnpadded_plain e He) as Hp. unfold atob.
  assert (Hf : filter (fun c => negb (isAsciiWhitespace c)) (encodeUnpadded e) =
               encodeUnpadded e).
  { apply ArtistFacts.filter_all. rewrite Forall_forall in Hp.
    intros c Hc. destruct (Hp c Hc) as [-> _]. reflexivity. }
  rewrite Hf, stripPadding_none
    by (eapply Forall_impl; [|exact Hp]; cbn; tauto).
  destruct (Z.eqb_spec (Z.of_nat (List.length (encodeUnpadded e)) mod 4) 1)
    as [E | _]; [destruct (encodeUnpadded_length e E)|].
  destruct (decode_encodeUnpadded e He) as (v & -> & ->). reflexivity.
Qed.

(** X6.  The padding is optional when decoding: for a string without
    unpaired surrogates [base64ToStr] gives the string back from its
    encoding with the trailing [=] removed as well. *)
Theorem base64ToStr_without_padding :
  forall s b : jsstring,
    Forall code_unit s -> URI.isWellFormed s = true ->
    strToBase64 s = Normal b ->
    base64ToStr (stripPadding b) = Normal s /\
    Forall (fun c => c <> 61) (stripPadding b).
Proof.
  intros s b Hu Hwf Hb.
  destruct (strToBase64_inv s b Hb) as (e & He & Hbytes & ->).
  pose proof (stripPadding_encode e Hbytes [] eq_refl (Forall_nil _)) as Hs.
  cbn [app] in Hs. rewrite Hs. split.
  - unfold base64ToStr. rewrite atob_unpadded by assumption. cbn [bind].
    destruct (decode_encode s Hu Hwf) as (e' & He' & _ & Hd).
    rewrite He in He'. inversion He'; subst. exact Hd.
  - eapply Forall_impl; [|apply encodeUnpadded_plain; assumption]. cbn. tauto.
Qed.

Lemma base64ToStr_without_padding_witness :
  base64ToStr (js "JTNGcSUzRGE") = Normal (js "?q=a").
Proof.
  apply (base64ToStr_without_padding (js "?q=a") (js "JTNGcSUzRGE="));
    [repeat constructor; unfold code_unit; lia | reflexivity | reflexivity].
Defined.

End EncodingProps.

(** ** More on catalog links *)

Module LinkMore.
Import JS RegExp Utils Spec More RegExpFacts LinkProps.

Local Abbreviation oneLine s := (Forall (fun c => class_dot c = true) s).

Lemma protocols_oneLine (p : jsstring) : In p protocols -> oneLine p.
Proof.
  intros [<- | [<- | [<- | []]]]; repeat constructor.
Qed.

Lemma segments_oneLine (p : jsstring) : In p segments -> oneLine p.
Proof.
  intros [<- | [<- | [<- | [<- | [<- | []]]]]]; repeat constructor.
Qed.

(** X7.  A link that is accepted holds no line terminator: no LF, CR,
    U+2028 or U+2029 anywhere. *)
Theorem isJioSaavnLink_single_line :
  forall u : jsstring,
    isJioSaavnLink u = true ->
    Forall (fun c => isLineTerminator c = false) u.
Proof.
  intros u H. apply isJioSaavnLink_iff in H
    as (proto & www & seg & rest & -> & Hp & Hw & Hs & [_ Hr]).
  assert (Hu : oneLine (proto ++ www ++ js "jiosaavn.com/" ++ seg ++ js "/" ++ rest)).
  { apply Forall_app; split; [apply protocols_oneLine; assumption|].
    apply Forall_app; split.
    { destruct Hw as [-> | (c & Hc & ->)]; repeat constructor. assumption. }
    apply Forall_app; split; [repeat constructor|].
    apply Forall_app; split; [apply segments_oneLine; assumption|].
    apply Forall_app; split; [repeat constructor | assumption]. }
  eapply Forall_impl; [|exact Hu]. intros c Hc. unfold class_dot in Hc.
  apply negb_true_iff in Hc. exact Hc.
Qed.

Lemma isJioSaavnLink_single_line_witness :
  Forall (fun c => isLineTerminator c = false)
         (js "jiosaavn.com/shows/a-b/c?d=1").
Proof.
  apply isJioSaavnLink_single_line. reflexivity.
Defined.

(** X8.  Nothing is asked of what follows the section: an accepted link
    stays accepted when any text without line terminators is appended. *)
Theorem isJioSaavnLink_extends :
  forall u v : jsstring,
    isJioSaavnLink u = true ->
    Forall (fun c => isLineTerminator c = false) v ->
    isJioSaavnLink (u ++ v) = true.
Proof.
  intros u v H Hv. apply isJioSaavnLink_iff in H
    as (proto & www & seg & rest & -> & Hp & Hw & Hs & [Hne Hr]).
  apply isJioSaavnLink_iff. exists proto, www, seg, (rest ++ v).
  split; [rewrite <- !app_assoc; reflexivity|].
  repeat (split; [assumption|]). split.
  - destruct rest; [congruence | discriminate].
  - apply Forall_app. split; [assumption|].
    eapply Forall_impl; [|exact Hv]. intros c Hc. unfold class_dot.
    rewrite Hc. reflexivity.
Qed.

Lemma isJioSaavnLink_extends_witness :
  isJioSaavnLink (js "https://www.jiosaavn.com/song/x" ++ js " <script>") = true.
Proof.
  apply isJioSaavnLink_extends; [reflexivity | repeat constructor].
Defined.

End LinkMore.

(** ** More on the time formatter *)

Module FormatTimeMore.
Import JS Num Utils Spec NumFacts.

(** X9.  A time that is not a finite Number is not rejected: when
    [Number(time)] is NaN, as for a string that is not numeric,
    [formatTime] returns "NaN:NaN"; for the infinities the minutes print
    as the infinity and the seconds as NaN, without a padding zero. *)
Theorem formatTime_not_finite :
  forall (stringToNumber : jsstring -> number)
         (numberToStringOther : number -> jsstring)
         (time : number + jsstring),
    (toNumber stringToNumber time = S754_nan ->
     formatTime stringToNumber numberToStringOther time = js "NaN:NaN") /\
    (toNumber stringToNumber time = S754_infinity false ->
     formatTime stringToNumber numberToStringOther time = js "Infinity:NaN") /\
    (toNumber stringToNumber time = S754_infinity true ->
     formatTime stringToNumber numberToStringOther time = js "-Infinity:NaN").
Proof.
  intros stn other time. unfold formatTime.
  repeat split; intros ->; reflexivity.
Qed.

Lemma formatTime_not_finite_witness :
  formatTime (fun _ => S754_nan) (fun _ => []) (inr (js "3:45")) = js "NaN:NaN" /\
  formatTime (fun _ => S754_nan) (fun _ => []) (inl (S754_infinity true)) =
  js "-Infinity:NaN".
Proof.
  split.
  - apply (proj1 (formatTime_not_finite (fun _ => S754_nan) (fun _ => [])
                    (inr (js "3:45")))). reflexivity.
  - apply (proj2 (proj2 (formatTime_not_finite (fun _ => S754_nan) (fun _ => [])
                    (inl (S754_infinity true))))). reflexivity.
Defined.

End FormatTimeMore.

(** ** More on the home-data cache *)

Module HomeDataMore.
Import JS Utils More HomeDataProps.

Section Calls.
Context {Album Song Playlist Chart : Type}.
Variable api : nat -> completion (option (HomeData Album Song Playlist Chart)).

Let world := World Album Song Playlist Chart.

Lemma getHomeData_hit (w : world) payload :
homeData (root w) = Some payload ->
getHomeData api w = (Normal (Some (reshape payload)), w).
Proof.
intros Hhit. unfold getHomeData, Eff.seq, getState. rewrite Hhit.
reflexivity.
Qed.

Lemma getHomeData_miss_stored (w : world) payload :
homeData (root w) = None ->
api (apiCalls w) = Normal (Some payload) ->
getHomeData api w =
(Normal (Some (reshape payload)),
 {| root := {| homeData := Some payload |}; apiCalls := S (apiCalls w) |}).
Proof.
intros Hmiss Hapi. unfold getHomeData, Eff.seq, getState, api_getHomeData.
rewrite Hmiss, Hapi. reflexivity.
Qed.

Lemma getHomeData_miss_nothing (w : world) :
homeData (root w) = None ->
api (apiCalls w) = Normal None ->
getHomeData api w =
(Normal None, {| root := root w; apiCalls := S (apiCalls w) |}).
Proof.
intros Hmiss Hapi. unfold getHomeData, Eff.seq, getState, api_getHomeData.
rewrite Hmiss, Hapi. reflexivity.
Qed.

(** X10.  A fetch that fails is not remembered.  With an empty cache, a
  rejection of the API goes to the caller and an answer without a
  payload gives no view; either way the cache stays empty, and the next
  call asks the API again and caches what it then gets. *)
Theorem getHomeData_failure_not_cached :
forall w : world,
  homeData (root w) = None ->
  (forall e,
     api (apiCalls w) = Throw e ->
     getHomeData api w =
     (Throw e, {| root := root w; apiCalls := S (apiCalls w) |})) /\
  (api (apiCalls w) = Normal None ->
   getHomeData api w =
   (Normal None, {| root := root w; apiCalls := S (apiCalls w) |})) /\
  (forall payload,
     api (S (apiCalls w)) = Normal (Some payload) ->
     getHomeData api {| root := root w; apiCalls := S (apiCalls w) |} =
     (Normal (Some (reshape payload)),
      {| root := {| homeData := Some payload |};
         apiCalls := S (S (apiCalls w)) |})).
Proof.
intros w Hmiss. split; [|split].
- intros e Hapi. apply getHomeData_miss_rejected; assumption.
- apply getHomeData_miss_nothing; assumption.
- intros payload Hapi. apply getHomeData_miss_stored; assumption.
Qed.

(** X11.  Once the cache holds a payload, any number of calls in a row
  return the same view and leave the world as it is: the API is not
  called again and the cache is not replaced. *)
Theorem getHomeData_repeated_hits :
forall (w : world) payload (n : nat),
  homeData (root w) = Some payload ->
  getHomeDataTimes api n w = (repeat (Normal (Some (reshape payload))) n, w).
Proof.
intros w payload n Hhit. induction n as [|n IH]; [reflexivity|].
cbn [getHomeDataTimes repeat].
rewrite (getHomeData_hit w payload Hhit), IH. reflexivity.
Qed.

Lemma getHomeDataTimes_miss (n : nat) (w : world) :
homeData (root w) = None ->
getHomeDataTimes api (S n) w =
match api (apiCalls w) with
| Normal (Some payload) =>
  (repeat (Normal (Some (reshape payload))) (S n),
   {| root := {| homeData := Some payload |}; apiCalls := S (apiCalls w) |})
| Normal None =>
  (Normal None ::
   fst (getHomeDataTimes api n {| root := root w; apiCalls := S (apiCalls w) |}),
   snd (getHomeDataTimes api n {| root := root w; apiCalls := S (apiCalls w) |}))
| Throw e =>
  (Throw e ::
   fst (getHomeDataTimes api n {| root := root w; apiCalls := S (apiCalls w) |}),
   snd (getHomeDataTimes api n {| root := root w; apiCalls := S (apiCalls w) |}))
end.
Proof.
intros Hmiss. cbn [getHomeDataTimes].
destruct (api (apiCalls w)) as [[payload|]|e] eqn:Hapi.
- rewrite (getHomeData_miss_stored w payload Hmiss Hapi).
  rewrite (getHomeData_repeated_hits
             {| root := {| homeData := Some payload |};
                apiCalls := S (apiCalls w) |} payload n eq_refl).
  reflexivity.
- rewrite (getHomeData_miss_nothing w Hmiss Hapi).
  destruct (getHomeDataTimes api n _); reflexivity.
- rewrite (getHomeData_miss_rejected api w e Hmiss Hapi).
  destruct (getHomeDataTimes api n _); reflexivity.
Qed.

(** X12.  For calls made one after another, each one completed before
  the next begins, so that no two calls overlap at the [await]:
  whatever the API answers and however often it fails, all the calls
  of such a run that return a view return the same view.  Calls that
  overlap are another matter, see X26. *)
Theorem getHomeData_one_view :
forall (n : nat) (w : world) v1 v2,
  In (Normal (Some v1)) (fst (getHomeDataTimes api n w)) ->
  In (Normal (Some v2)) (fst (getHomeDataTimes api n w)) ->
  v1 = v2.
Proof.
assert (Hrep : forall (v v' : HomeView Album Song Playlist Chart) k,
           In (Normal (Some v)) (repeat (Normal (Some v')) k) -> v = v').
{ intros v v' k Hin. apply repeat_spec in Hin. congruence. }
induction n as [|n IH]; intros w v1 v2 H1 H2; [destruct H1|].
destruct (homeData (root w)) as [payload|] eqn:Hc.
- rewrite (getHomeData_repeated_hits w payload (S n) Hc) in H1, H2.
  cbn [fst] in H1, H2. apply Hrep in H1, H2. congruence.
- rewrite (getHomeDataTimes_miss n w Hc) in H1, H2.
  destruct (api (apiCalls w)) as [[payload|]|e]; cbn [fst] in H1, H2.
  + apply Hrep in H1, H2. congruence.
  + destruct H1 as [H1|H1]; [discriminate|].
    destruct H2 as [H2|H2]; [discriminate|]. eapply IH; eassumption.
  + destruct H1 as [H1|H1]; [discriminate|].
    destruct H2 as [H2|H2]; [discriminate|]. eapply IH; eassumption.
Qed.

(** The call as a whole is its first step followed, on a miss, by its
  resumption with nothing in between. *)
Lemma getHomeData_start_resume (w : world) :
getHomeData api w =
match getHomeData_start w with
| (Returned r, w1) => (r, w1)
| (Awaiting ticket, w1) => getHomeData_resume api ticket w1
end.
Proof.
unfold getHomeData, getHomeData_start, getHomeData_resume, Eff.seq,
  Eff.lift, getState, api_getHomeData.
destruct (homeData (root w)) as [cached|] eqn:Hc; [reflexivity|].
cbn [root apiCalls].
destruct (api (apiCalls w)) as [[payload|]|e]; reflexivity.
Qed.

Lemma getHomeData_resume_cases (ticket : nat) (w : world) :
getHomeData_resume api ticket w =
match api ticket with
| Normal (Some payload) =>
  (Normal (Some (reshape payload)),
   {| root := {| homeData := Some payload |}; apiCalls := apiCalls w |})
| Normal None => (Normal None, w)
| Throw e => (Throw e, w)
end.
Proof.
unfold getHomeData_resume, Eff.seq, Eff.lift.
destruct (api ticket) as [[payload|]|e]; reflexivity.
Qed.

(** X13.  What a call returns is what the cache holds when the call
  completes, also when other calls ran during its [await].  A call that
  finds a payload in the cache returns at once, without an [await], the
  reshaping of that payload and leaves the world as it is.  A call that
  resumes from its [await] with a payload stores it whatever the cache
  holds by then, so it replaces a payload that another call has cached
  in the meantime, and returns the reshaping of its own payload.  Hence
  the view of the call as a whole is the reshaping of the payload in
  the cache after it. *)
Theorem getHomeData_view_is_cached :
(forall (w : world) payload,
   homeData (root w) = Some payload ->
   getHomeData_start w = (Returned (Normal (Some (reshape payload))), w)) /\
(forall (ticket : nat) (w : world) v,
   fst (getHomeData_resume api ticket w) = Normal (Some v) ->
   exists payload,
     api ticket = Normal (Some payload) /\
     v = reshape payload /\
     snd (getHomeData_resume api ticket w) =
     {| root := {| homeData := Some payload |}; apiCalls := apiCalls w |}) /\
(forall (w : world) v,
   fst (getHomeData api w) = Normal (Some v) ->
   exists payload,
     homeData (root (snd (getHomeData api w))) = Some payload /\
     v = reshape payload).
Proof.
assert (Hres : forall (ticket : nat) (w : world) v,
           fst (getHomeData_resume api ticket w) = Normal (Some v) ->
           exists payload,
             api ticket = Normal (Some payload) /\
             v = reshape payload /\
             snd (getHomeData_resume api ticket w) =
             {| root := {| homeData := Some payload |};
                apiCalls := apiCalls w |}).
{ intros ticket w v. rewrite getHomeData_resume_cases.
  destruct (api ticket) as [[payload|]|e]; cbn [fst snd]; intros H;
    try discriminate H.
  exists payload. repeat split. congruence. }
split; [|split; [exact Hres|]].
- intros w payload Hc. unfold getHomeData_start. rewrite Hc. reflexivity.
- intros w v. rewrite getHomeData_start_resume. unfold getHomeData_start.
  destruct (homeData (root w)) as [cached|] eqn:Hc.
  + cbn [fst snd]. intros H. exists cached. split; [assumption|congruence].
  + intros H. destruct (Hres _ _ _ H) as (payload & _ & -> & ->).
    exists payload. split; reflexivity.
Qed.

End Calls.

Lemma getHomeData_failure_not_cached_witness :
  let payload : HomeData nat nat nat nat :=
    {| hd_trending := {| t_albums := [7%nat]; t_songs := [] |};
       hd_albums := []; hd_playlists := [8%nat]; hd_charts := [] |} in
  let api := fun n : nat =>
    match n with
    | O => Throw (HostError "503")
    | _ => Normal (Some payload)
    end in
  let w0 := {| root := {| homeData := None |}; apiCalls := 0 |} in
  getHomeData api w0 =
    (Throw (HostError "503"), {| root := {| homeData := None |}; apiCalls := 1 |}) /\
  getHomeData api {| root := {| homeData := None |}; apiCalls := 1 |} =
    (Normal (Some (reshape payload)),
     {| root := {| homeData := Some payload |}; apiCalls := 2 |}).
Proof.
  intros payload api w0. split.
  - apply (proj1 (getHomeData_failure_not_cached api w0 eq_refl)). reflexivity.
  - apply (proj2 (proj2 (getHomeData_failure_not_cached api w0 eq_refl))).
    reflexivity.
Defined.

Lemma getHomeData_repeated_hits_witness :
  let payload : HomeData nat nat nat nat :=
    {| hd_trending := {| t_albums := [7%nat]; t_songs := [9%nat] |};
       hd_albums := []; hd_playlists := [8%nat]; hd_charts := [] |} in
  let w := {| root := {| homeData := Some payload |}; apiCalls := 1 |} in
  getHomeDataTimes (fun _ => Throw (HostError "offline")) 3 w =
  (repeat (Normal (Some (reshape payload))) 3, w).
Proof.
  intros payload w.
  apply (getHomeData_repeated_hits (fun _ => Throw (HostError "offline"))
           w payload 3). reflexivity.
Defined.

Lemma getHomeData_one_view_witness :
  let first : HomeData nat nat nat nat :=
    {| hd_trending := {| t_albums := [1%nat]; t_songs := [2%nat] |};
       hd_albums := [3%nat]; hd_playlists := []; hd_charts := [] |} in
  let second : HomeData nat nat nat nat :=
    {| hd_trending := {| t_albums := [4%nat]; t_songs := [] |};
       hd_albums := []; hd_playlists := []; hd_charts := [] |} in
  let api := fun n : nat =>
    match n with
    | O => Normal None
    | S O => Normal (Some first)
    | _ => Normal (Some second)
    end in
  let w0 := {| root := {| homeData := None |}; apiCalls := 0 |} in
  fst (getHomeDataTimes api 4 w0) =
  [Normal None; Normal (Some (reshape first)); Normal (Some (reshape first));
   Normal (Some (reshape first))] /\
  reshape first =
  {| trending := [inl 1%nat; inr 2%nat]; albums := [3%nat];
     playlists := []; charts := [] |}.
Proof.
  intros first second api w0. split; [reflexivity|].
  apply (getHomeData_one_view api 4 w0 (reshape first)
           {| trending := [inl 1%nat; inr 2%nat]; albums := [3%nat];
              playlists := []; charts := [] |});
    vm_compute; tauto.
Defined.

Lemma getHomeData_view_is_cached_witness :
  let cached : HomeData nat nat nat nat :=
    {| hd_trending := {| t_albums := [1%nat]; t_songs := [] |};
       hd_albums := []; hd_playlists := []; hd_charts := [] |} in
  let late : HomeData nat nat nat nat :=
    {| hd_trending := {| t_albums := []; t_songs := [2%nat] |};
       hd_albums := []; hd_playlists := []; hd_charts := [] |} in
  let api := fun _ : nat => Normal (Some late) in
  let w := {| root := {| homeData := Some cached |}; apiCalls := 2 |} in
  getHomeData_start w = (Returned (Normal (Some (reshape cached))), w) /\
  exists payload,
    api 0%nat = Normal (Some payload) /\
    reshape late = reshape payload /\
    snd (getHomeData_resume api 0 w) =
    {| root := {| homeData := Some payload |}; apiCalls := 2 |}.
Proof.
  intros cached late api w. split.
  - apply (proj1 (getHomeData_view_is_cached api) w cached). reflexivity.
  - apply (proj1 (proj2 (getHomeData_view_is_cached api)) 0%nat w (reshape late)).
    reflexivity.
Defined.


End HomeDataMore.

(** ** More on the image selector *)

Module ImageMore.
Import JS Utils More StringFacts.

(** The three tests of [getImage] read the entry at [imageIndex]. *)
Lemma getImage_linkAt (l : list QualityLink) (q : option jsstring) :
  getImage (ImageList l) q = linkAt l (imageIndex q).
Proof.
  destruct q as [q|]; [|reflexivity]. unfold getImage, imageIndex.
  destruct (str_eqb q (js "large")) eqn:El.
  - apply str_eqb_eq in El; subst q. reflexivity.
  - destruct (str_eqb q (js "medium")) eqn:Em.
    + apply str_eqb_eq in Em; subst q. reflexivity.
    + destruct (str_eqb q (js "small")); reflexivity.
Qed.

(** X14.  On a list of variants [getImage] throws [TypeError] exactly
    when the list is too short for the index it reads: 0 for "small", 1
    for "medium", and 2 for "large", for no quality and for any other
    quality.  So the empty list always throws, and a list of fewer than
    three variants throws when no quality is given.  When the list is long
    enough the link of the entry at that index is returned. *)
Theorem getImage_short_list :
  forall (l : list QualityLink) (q : option jsstring),
    (getImage (ImageList l) q = Throw TypeError <->
     (List.length l <= imageIndex q)%nat) /\
    ((imageIndex q < List.length l)%nat ->
     exists v, nth_error l (imageIndex q) = Some v /\
               getImage (ImageList l) q = Normal (link v)) /\
    getImage (ImageList []) q = Throw TypeError /\
    ((List.length l < 3)%nat -> getImage (ImageList l) None = Throw TypeError).
Proof.
  intros l q. rewrite !getImage_linkAt. unfold linkAt.
  split; [|split; [|split]].
  - destruct (nth_error l (imageIndex q)) as [v|] eqn:E.
    + split; [discriminate|]. intros Hle.
      apply nth_error_None in Hle. congruence.
    + split; [|reflexivity]. intros _. apply nth_error_None. assumption.
  - intros Hlt. destruct (nth_error l (imageIndex q)) as [v|] eqn:E.
    + exists v. split; reflexivity.
    + apply nth_error_None in E. lia.
  - destruct (imageIndex q); reflexivity.
  - intros Hlt. unfold imageIndex.
    destruct (nth_error l 2) as [v|] eqn:E; [|reflexivity].
    assert (nth_error l 2 <> None) as Hn by congruence.
    apply nth_error_Some in Hn. lia.
Qed.

Lemma getImage_short_list_witness :
  getImage (ImageList [ {| quality := js "50x50"; link := js "s" |};
                        {| quality := js "150x150"; link := js "m" |} ]) None =
  Throw TypeError /\
  exists v,
    nth_error [ {| quality := js "50x50"; link := js "s" |};
                {| quality := js "150x150"; link := js "m" |} ]
              (imageIndex (Some (js "medium"))) = Some v /\
    getImage (ImageList [ {| quality := js "50x50"; link := js "s" |};
                          {| quality := js "150x150"; link := js "m" |} ])
             (Some (js "medium")) = Normal (link v).
Proof.
  split.
  - apply (proj2 (proj2 (proj2 (getImage_short_list
             [ {| quality := js "50x50"; link := js "s" |};
               {| quality := js "150x150"; link := js "m" |} ] None)))).
    simpl. lia.
  - apply (proj1 (proj2 (getImage_short_list
             [ {| quality := js "50x50"; link := js "s" |};
               {| quality := js "150x150"; link := js "m" |} ]
             (Some (js "medium"))))).
    simpl. lia.
Defined.

(** X15.  [getImage] invents no link: what it returns is the placeholder
    path, for a boolean image, or the link of one of the variants of the
    list. *)
Theorem getImage_returns_a_variant :
  forall (image : Image) (q : option jsstring) (s : jsstring),
    getImage image q = Normal s ->
    match image with
    | ImageFlag _ => s = js "/images/logo512.png"
    | ImageList l => In s (map link l)
    end.
Proof.
  intros [b|l] q s H.
  - simpl in H. congruence.
  - rewrite getImage_linkAt in H. unfold linkAt in H.
    destruct (nth_error l (imageIndex q)) as [v|] eqn:E; [|discriminate].
    apply nth_error_In in E. injection H as <-. apply in_map. assumption.
Qed.

Lemma getImage_returns_a_variant_witness :
  In (js "l")
     (map link [ {| quality := js "50x50"; link := js "s" |};
                 {| quality := js "150x150"; link := js "m" |};
                 {| quality := js "500x500"; link := js "l" |} ]).
Proof.
  apply (getImage_returns_a_variant
           (ImageList [ {| quality := js "50x50"; link := js "s" |};
                        {| quality := js "150x150"; link := js "m" |};
                        {| quality := js "500x500"; link := js "l" |} ])
           (Some (js "large")) (js "l")).
  reflexivity.
Defined.

End ImageMore.

(** ** More on the artist resolver *)

Module ArtistMore.
Import JS Utils Spec StringFacts ArtistFacts ArtistProps.

Lemma fieldNames_orEmpty (f : ArtistField) :
  fieldNames f = orEmpty (getArtistsFromList f).
Proof. destruct f as [[|c s]|l|]; reflexivity. Qed.

Lemma filter_nothing {A} (f : A -> bool) (l : list A) :
  (forall x, In x l -> f x = false) -> filter f l = [].
Proof.
  induction l as [|x l IH]; intros H; simpl; [reflexivity|].
  rewrite (H x (or_introl eq_refl)). apply IH.
  intros y Hy; apply H; right; assumption.
Qed.

Lemma NoDup_by_dedup (l : list jsstring) : dedupFirst l = l -> NoDup l.
Proof. intros <-. apply dedupFirst_NoDup. Qed.

(** Names that all occur before add nothing. *)
Lemma dedupFirst_absorbs (l1 l2 : list jsstring) :
  incl l2 l1 -> dedupFirst (l1 ++ l2) = dedupFirst l1.
Proof.
  intros Hincl. rewrite dedupFirst_app, filter_nothing, app_nil_r;
    [reflexivity|].
  intros x Hx. apply (proj1 (dedupFirst_In _ _)) in Hx. apply Hincl in Hx.
  apply negb_false_iff. apply (proj2 (has_In _ _)).
  apply (proj2 (dedupFirst_In _ _)). assumption.
Qed.


(** X17.  A string of distinct names passes through unchanged: when
    [artists] is a string whose pieces between [", "] are all different,
    and the other two fields name nobody new (they are missing, empty, or
    repeat names of [artists]), [getArtists] returns that string as it
    is. *)
Theorem getArtists_passes_through :
  forall (s : jsstring) (p f : ArtistField) (ids : jsstring),
    NoDup (split (js ", ") s) ->
    incl (orEmpty (getArtistsFromList p))
         (orEmpty (getArtistsFromList (ArtistString s))) ->
    incl (orEmpty (getArtistsFromList f))
         (orEmpty (getArtistsFromList (ArtistString s))) ->
    getArtists {| artists := ArtistString s; primaryArtists := p;
                  featuredArtists := f; primaryArtistsId := ids |} = s.
Proof.
  intros s p f ids Hnd Hp Hf. rewrite getArtists_eq_resolveArtists.
  unfold resolveArtists. cbn [artists primaryArtists featuredArtists].
  rewrite <- !fieldNames_orEmpty in Hp, Hf.
  rewrite dedupFirst_absorbs by (apply incl_app; assumption).
  destruct s as [|c s]; [reflexivity|].
  cbn [fieldNames]. rewrite dedupFirst_id by assumption.
  apply join_split. discriminate.
Qed.

Lemma getArtists_passes_through_witness :
  getArtists
    {| artists := ArtistString (js "Arijit Singh, Pritam, Amitabh Bhattacharya");
       primaryArtists := ArtistList [ {| name := js "Pritam"; url := js "/p" |} ];
       featuredArtists := ArtistMissing;
       primaryArtistsId := js "456323" |} =
  js "Arijit Singh, Pritam, Amitabh Bhattacharya".
Proof.
  apply (getArtists_passes_through
           (js "Arijit Singh, Pritam, Amitabh Bhattacharya")
           (ArtistList [ {| name := js "Pritam"; url := js "/p" |} ])
           ArtistMissing (js "456323")).
  - apply NoDup_by_dedup. vm_compute. reflexivity.
  - intros x [<- | []]. vm_compute. right; left. reflexivity.
  - intros x [].
Defined.

End ArtistMore.

(** ** More on the artist identifiers *)

Module ArtistIdsMore.
Import JS Utils StringFacts.

Lemma split_nonempty (s : jsstring) : split (js ", ") s <> [].
Proof. apply split_from_nonempty. Qed.

(** X18.  [getArtistIds] never returns the empty list: the split of
    [primaryArtistsId] gives at least one piece.  For an item without
    primary artist ids that piece is the empty string, which comes first,
    while the pieces always join back to [primaryArtistsId]. *)
Theorem getArtistIds_never_empty :
  forall item : Item,
    getArtistIds item <> [] /\
    (primaryArtistsId item = [] -> exists rest, getArtistIds item = [] :: rest) /\
    exists pieces rest,
      getArtistIds item = pieces ++ rest /\
      pieces <> [] /\
      join (js ", ") pieces = primaryArtistsId item.
Proof.
  intros item. unfold getArtistIds. split; [|split].
  - intros H. apply app_eq_nil in H as [H _]. exact (split_nonempty _ H).
  - intros ->. eexists. reflexivity.
  - do 2 eexists. split; [reflexivity|]. split; [apply split_nonempty|].
    apply join_split. discriminate.
Qed.

Lemma getArtistIds_never_empty_witness :
  exists rest,
    getArtistIds {| artists := ArtistMissing;
                    primaryArtists := ArtistList [ {| name := js "Pritam";
                                                      url := js "/artist/pritam" |} ];
                    featuredArtists := ArtistString [];
                    primaryArtistsId := [] |} = [] :: rest.
Proof.
  apply (proj1 (proj2 (getArtistIds_never_empty
           {| artists := ArtistMissing;
              primaryArtists := ArtistList [ {| name := js "Pritam";
                                                url := js "/artist/pritam" |} ];
              featuredArtists := ArtistString [];
              primaryArtistsId := [] |}))).
  reflexivity.
Defined.

End ArtistIdsMore.

(** ** More on the download *)

Module DownloadMore.
Import JS Utils Eff Spec More StringFacts DownloadProps.

(** *** [String.prototype.replace] *)

Lemma replaceFirst_eq (pat rep s : jsstring) :
  replaceFirst pat rep s =
  if starts_with pat s then rep ++ skipn (List.length pat) s
  else match s with
       | [] => []
       | c :: s' => c :: replaceFirst pat rep s'
       end.
Proof. destruct s; reflexivity. Qed.

Lemma starts_with_prefix (pat s : jsstring) : starts_with pat (pat ++ s) = true.
Proof.
  induction pat as [|c pat IH]; simpl; [reflexivity|].
  rewrite Z.eqb_refl. exact IH.
Qed.

Lemma skipn_prefix (pat s : jsstring) : skipn (List.length pat) (pat ++ s) = s.
Proof. induction pat as [|c pat IH]; simpl; [reflexivity | exact IH]. Qed.

(** Replacing a pattern by itself changes nothing. *)
Lemma replaceFirst_same (pat s : jsstring) : replaceFirst pat pat s = s.
Proof.
  induction s as [|c s IH]; rewrite replaceFirst_eq.
  - destruct (starts_with pat []) eqn:E; [|reflexivity].
    apply starts_with_app in E as [s2 E]. rewrite E at 2.
    rewrite E, skipn_prefix. reflexivity.
  - destruct (starts_with pat (c :: s)) eqn:E; [|rewrite IH; reflexivity].
    apply starts_with_app in E as [s2 E]. rewrite E, skipn_prefix.
    reflexivity.
Qed.

(** Without an occurrence nothing is replaced. *)
Lemma replaceFirst_absent (pat rep s : jsstring) :
  (forall i : nat, starts_with pat (skipn i s) = false) ->
  replaceFirst pat rep s = s.
Proof.
  induction s as [|c s IH]; intros H; rewrite replaceFirst_eq;
    pose proof (H 0%nat) as H0; cbn [skipn] in H0; rewrite H0.
  - reflexivity.
  - rewrite IH; [reflexivity|]. intros i. exact (H (S i)).
Qed.

(** The first occurrence is the one replaced, and the only one. *)
Lemma replaceFirst_first (pat rep a b : jsstring) :
  noOccurrenceBefore pat (a ++ pat ++ b) (List.length a) ->
  replaceFirst pat rep (a ++ pat ++ b) = a ++ rep ++ b.
Proof.
  induction a as [|c a IH]; intros H; rewrite replaceFirst_eq.
  - cbn [app]. rewrite starts_with_prefix, skipn_prefix. reflexivity.
  - pose proof (H 0%nat ltac:(simpl; lia)) as H0. cbn [skipn] in H0.
    rewrite H0. cbn [app]. rewrite IH; [reflexivity|].
    intros i Hi. apply (H (S i)). simpl. lia.
Qed.

Section Links.
Context {Browser Response Blob Anchor : Type}.
Variable host : Host Browser Response Blob Anchor.

(** With a first link, [downloadSong] is the guarded attempt on the
  rewritten link. *)
Lemma downloadSong_with_link (song : Song) (quality : SongQuality)
    (p : Page Browser) (first : QualityLink) (others : list QualityLink) :
downloadUrl song = first :: others ->
downloadSong host song quality p =
try_catch
  (downloadAttempt host song
     (replaceFirst (js "_12.mp4") (qualitySuffix quality ++ js ".mp4")
                   (link first)))
  (fun error => console_error errorMessage error) p.
Proof.
intros Hurl. unfold downloadSong, seq, lift, linkAt. rewrite Hurl.
reflexivity.
Qed.

Lemma downloadSong_guarded (song : Song) (l : jsstring) (p : Page Browser) :
exists p',
  try_catch (downloadAttempt host song l)
            (fun error => console_error errorMessage error) p = (Normal tt, p').
Proof.
unfold try_catch. destruct (downloadAttempt host song l p) as [[[]|e] p1].
- exists p1. reflexivity.
- eexists. reflexivity.
Qed.

(** X19.  [downloadSong] throws to its caller exactly when the song has
  no download link at all: the first link is read before the [try].
  The exception is then a [TypeError], and nothing was fetched, logged
  or shown. *)
Theorem downloadSong_throws_iff :
forall (song : Song) (quality : SongQuality) (p : Page Browser),
  ((exists e, fst (downloadSong host song quality p) = Throw e) <->
   downloadUrl song = []) /\
  (downloadUrl song = [] ->
   downloadSong host song quality p = (Throw TypeError, p)).
Proof.
intros song quality p. split; [|apply downloadSong_without_link].
split.
- intros [e He]. destruct (downloadUrl song) as [|first others] eqn:Hurl;
    [reflexivity|].
  rewrite (downloadSong_with_link song quality p first others Hurl) in He.
  destruct (downloadSong_guarded song
              (replaceFirst (js "_12.mp4") (qualitySuffix quality ++ js ".mp4")
                            (link first)) p) as [p' Hp'].
  rewrite Hp' in He. discriminate He.
- intros Hurl. exists TypeError.
  rewrite (downloadSong_without_link host song quality p Hurl). reflexivity.
Qed.

(** X20.  The quality is put in at the first occurrence of "_12.mp4" in
  the first link, and only there: for a link [a ++ "_12.mp4" ++ b]
  with no occurrence starting inside [a], the link that is fetched is
  [a], the suffix of the quality, ".mp4", and [b] as it is. *)
Theorem downloadSong_first_occurrence :
forall (song : Song) (quality : SongQuality) (p : Page Browser)
       (first : QualityLink) (others : list QualityLink) (a b : jsstring),
  downloadUrl song = first :: others ->
  link first = a ++ js "_12.mp4" ++ b ->
  noOccurrenceBefore (js "_12.mp4") (link first) (List.length a) ->
  downloadSong host song quality p =
  try_catch
    (downloadAttempt host song (a ++ (qualitySuffix quality ++ js ".mp4") ++ b))
    (fun error => console_error errorMessage error) p.
Proof.
intros song quality p first others a b Hurl Hlink Hocc.
rewrite (downloadSong_with_link song quality p first others Hurl).
rewrite Hlink in *. rewrite replaceFirst_first by assumption. reflexivity.
Qed.

(** X21.  The link is fetched as it is, whatever quality is asked for,
  when it holds no "_12.mp4"; and for the quality [low] every link is
  fetched as it is. *)
Theorem downloadSong_link_unchanged :
forall (song : Song) (quality : SongQuality) (p : Page Browser)
       (first : QualityLink) (others : list QualityLink),
  downloadUrl song = first :: others ->
  quality = low \/
  (forall i : nat, starts_with (js "_12.mp4") (skipn i (link first)) = false) ->
  downloadSong host song quality p =
  try_catch (downloadAttempt host song (link first))
            (fun error => console_error errorMessage error) p.
Proof.
intros song quality p first others Hurl H.
rewrite (downloadSong_with_link song quality p first others Hurl).
destruct H as [-> | H].
- change (qualitySuffix low ++ js ".mp4") with (js "_12.mp4").
  rewrite replaceFirst_same. reflexivity.
- rewrite replaceFirst_absent by assumption. reflexivity.
Qed.

(** X22.  When the fetch of the rewritten link rejects, nothing else is
  done in the browser: [downloadSong] completes normally with the
  browser as the fetch left it, the rejection logged once on the
  console, and no notification. *)
Theorem downloadSong_fetch_rejected :
forall (song : Song) (quality : SongQuality) (p : Page Browser)
       (first : QualityLink) (others : list QualityLink)
       (e : exn) (b : Browser),
  downloadUrl song = first :: others ->
  fetch host
    (replaceFirst (js "_12.mp4") (qualitySuffix quality ++ js ".mp4")
                  (link first)) (browser p) = (Throw e, b) ->
  downloadSong host song quality p =
  (Normal tt,
   {| browser := b;
      console := console p ++ [(errorMessage, e)];
      toasts := toasts p |}).
Proof.
intros song quality p first others e b Hurl Hfetch.
rewrite (downloadSong_with_link song quality p first others Hurl).
unfold try_catch, downloadAttempt, seq, onBrowser at 1. rewrite Hfetch.
reflexivity.
Qed.
End Links.

Lemma downloadSong_throws_iff_witness :
  downloadSong offline
    {| song_name := js "Tum Hi Ho"; song_year := js "2013"; downloadUrl := [] |}
    best {| browser := tt; console := []; toasts := [] |} =
  (Throw TypeError, {| browser := tt; console := []; toasts := [] |}).
Proof.
  apply (proj2 (downloadSong_throws_iff offline
           {| song_name := js "Tum Hi Ho"; song_year := js "2013";
              downloadUrl := [] |}
           best {| browser := tt; console := []; toasts := [] |})).
  reflexivity.
Defined.

Lemma downloadSong_first_occurrence_witness :
  downloadSong offline
    {| song_name := js "Tum Hi Ho"; song_year := js "2013";
       downloadUrl := [ {| quality := js "12kbps";
                           link := js "/a_12.mp4?b=_12.mp4" |} ] |}
    lossless {| browser := tt; console := []; toasts := [] |} =
  try_catch
    (downloadAttempt offline
       {| song_name := js "Tum Hi Ho"; song_year := js "2013";
          downloadUrl := [ {| quality := js "12kbps";
                              link := js "/a_12.mp4?b=_12.mp4" |} ] |}
       (js "/a" ++ (js "_320" ++ js ".mp4") ++ js "?b=_12.mp4"))
    (fun error => console_error errorMessage error)
    {| browser := tt; console := []; toasts := [] |}.
Proof.
  apply (downloadSong_first_occurrence offline
           {| song_name := js "Tum Hi Ho"; song_year := js "2013";
              downloadUrl := [ {| quality := js "12kbps";
                                  link := js "/a_12.mp4?b=_12.mp4" |} ] |}
           lossless {| browser := tt; console := []; toasts := [] |}
           {| quality := js "12kbps"; link := js "/a_12.mp4?b=_12.mp4" |} []
           (js "/a") (js "?b=_12.mp4")).
  - reflexivity.
  - reflexivity.
  - intros i Hi. destruct i as [|[|i]]; [reflexivity | reflexivity |].
    simpl in Hi. lia.
Defined.

Lemma downloadSong_link_unchanged_witness :
  downloadSong offline
    {| song_name := js "Tum Hi Ho"; song_year := js "2013";
       downloadUrl := [ {| quality := js "12kbps"; link := js "/a_12.mp4" |} ] |}
    low {| browser := tt; console := []; toasts := [] |} =
  try_catch
    (downloadAttempt offline
       {| song_name := js "Tum Hi Ho"; song_year := js "2013";
          downloadUrl := [ {| quality := js "12kbps"; link := js "/a_12.mp4" |} ] |}
       (js "/a_12.mp4"))
    (fun error => console_error errorMessage error)
    {| browser := tt; console := []; toasts := [] |}.
Proof.
  apply (downloadSong_link_unchanged offline
           {| song_name := js "Tum Hi Ho"; song_year := js "2013";
              downloadUrl := [ {| quality := js "12kbps";
                                  link := js "/a_12.mp4" |} ] |}
           low {| browser := tt; console := []; toasts := [] |}
           {| quality := js "12kbps"; link := js "/a_12.mp4" |} []).
  - reflexivity.
  - left. reflexivity.
Defined.

Lemma downloadSong_fetch_rejected_witness :
  downloadSong offline
    {| song_name := js "Tum Hi Ho"; song_year := js "2013";
       downloadUrl := [ {| quality := js "12kbps"; link := js "/a_12.mp4" |} ] |}
    medium {| browser := tt; console := []; toasts := [js "queued"] |} =
  (Normal tt,
   {| browser := tt;
      console := [(errorMessage, HostError "Failed to fetch")];
      toasts := [js "queued"] |}).
Proof.
  apply (downloadSong_fetch_rejected offline
           {| song_name := js "Tum Hi Ho"; song_year := js "2013";
              downloadUrl := [ {| quality := js "12kbps";
                                  link := js "/a_12.mp4" |} ] |}
           medium {| browser := tt; console := []; toasts := [js "queued"] |}
           {| quality := js "12kbps"; link := js "/a_12.mp4" |} []
           (HostError "Failed to fetch") tt).
  - reflexivity.
  - reflexivity.
Defined.

End DownloadMore.

(** ** The sign-in handlers *)

Module OAuthProps.
Import JS Eff OAuth More.

(** The toast a completion of [signIn] leads to. *)
Local Abbreviation toastFor r :=
  (match r with
   | Normal _ => welcomeToast
   | Throw _ => errorToast
   end).

(** X23.  A sign-in handler never throws and never leaves its button
    loading.  [googleSignInHandler] calls [signIn] once, with "google";
    whether the promise resolves or rejects the handler completes
    normally, with exactly one toast added (the welcome toast when it
    resolved, the destructive error toast when it rejected), with
    [isGoogleLoading] false and [isGithubLoading] as it was.
    [githubSignInHandler] does the same with "github" and its own flag. *)
Theorem signInHandlers_complete :
  forall (Auth : Type) (signIn : jsstring -> M Auth unit) (c : Component Auth),
    googleSignInHandler signIn c =
    (Normal tt,
     {| auth := snd (signIn (js "google") (auth c));
        isGithubLoading := isGithubLoading c;
        isGoogleLoading := false;
        toasts := toasts c ++ [toastFor (fst (signIn (js "google") (auth c)))] |}) /\
    githubSignInHandler signIn c =
    (Normal tt,
     {| auth := snd (signIn (js "github") (auth c));
        isGithubLoading := false;
        isGoogleLoading := isGoogleLoading c;
        toasts := toasts c ++ [toastFor (fst (signIn (js "github") (auth c)))] |}).
Proof.
  intros Auth signIn c. split.
  - unfold googleSignInHandler, seq, try_catch, setIsGoogleLoading, onAuth,
      toastNotifier, toast. cbn [auth isGithubLoading isGoogleLoading toasts].
    destruct (signIn (js "google") (auth c)) as [[[]|e] a]; reflexivity.
  - unfold githubSignInHandler, seq, try_catch, setIsGithubLoading, onAuth,
      toastNotifier, toast. cbn [auth isGithubLoading isGoogleLoading toasts].
    destruct (signIn (js "github") (auth c)) as [[[]|e] a]; reflexivity.
Qed.

End OAuthProps.

(** ** Times that are not natural numbers *)

Module FormatTimeFrac.
Import JS Num Utils Spec NumFacts.

(** *** Arithmetic *)

(** If [mr] is within one half of [T * P / 60], with [P] 32 or 64, then
    [mr / (P * K)] is the integer quotient of [T / K] by 60. *)
Lemma nearest_floor_scaled (T K P mr : Z) :
  0 <= T -> 1 <= K -> P = 32 \/ P = 64 ->
  -60 <= 2 * (60 * mr - P * T) <= 60 ->
  mr / (P * K) = T / K / 60.
Proof.
  intros HT HK HP Hn. rewrite Z.div_div by lia.
  pose proof (Z.div_mod T (K * 60) ltac:(lia)) as Hd.
  pose proof (Z.mod_pos_bound T (K * 60) ltac:(lia)) as Hb.
  set (a := T / (K * 60)) in *. set (rho := T mod (K * 60)) in *.
  replace (K * 60 * a) with (60 * (K * a)) in Hd by ring.
  symmetry. apply Z.div_unique with (r := mr - P * (K * a)); [left | ring].
  set (KA := K * a) in *.
  destruct HP; subst P; lia.
Qed.

(** The same for a negative dividend, when [T] is [s * K]. *)
Lemma nearest_floor_neg (s K P mr : Z) :
  0 < s -> 1 <= K -> P = 32 \/ P = 64 ->
  -60 <= 2 * (60 * mr - P * (s * K)) <= 60 ->
  (- mr) / (P * K) = (- s) / 60.
Proof.
  intros Hs HK HP Hn.
  pose proof (Z.div_mod s 60 ltac:(lia)) as Hd.
  pose proof (Z.mod_pos_bound s 60 ltac:(lia)) as Hb.
  set (a := s / 60) in *. set (rho := s mod 60) in *.
  assert (Hq : (- s) / 60 = if rho =? 0 then - a else - a - 1).
  { symmetry. destruct (Z.eqb_spec rho 0) as [E | E].
    - apply Z.div_unique with (r := 0); lia.
    - apply Z.div_unique with (r := 60 - rho); lia. }
  rewrite Hq. symmetry.
  assert (EK : s * K = 60 * (K * a) + rho * K) by (rewrite Hd; ring).
  set (KA := K * a) in *.
  assert (Hrk : rho = 0 \/ K <= rho * K) by nia.
  assert (Hrk' : rho * K <= 59 * K) by nia.
  set (RK := rho * K) in *.
  destruct (Z.eqb_spec rho 0) as [E | E].
  - apply Z.div_unique with (r := 0); [destruct HP; subst P; lia|].
    assert (RK = 0) by (unfold RK; rewrite E; reflexivity).
    replace (P * K * - a) with (- (P * KA)) by (unfold KA; ring).
    destruct HP; subst P; lia.
  - apply Z.div_unique with (r := P * KA + P * K - mr).
    + left. destruct HP; subst P; lia.
    + unfold KA. ring.
Qed.

(** *** The sign is carried along by the rounding *)

Lemma binary_round_aux_sign (sx : bool) (mx ex : Z) (lx : location) :
  binary_round_aux prec emax sx mx ex lx =
  match binary_round_aux prec emax false mx ex lx with
  | S754_zero _ => S754_zero sx
  | S754_infinity _ => S754_infinity sx
  | S754_finite _ m e => S754_finite sx m e
  | S754_nan => S754_nan
  end.
Proof.
  unfold binary_round_aux.
  destruct (shr_fexp prec emax mx ex lx) as [mrs' e'].
  destruct (shr_fexp prec emax _ e' loc_Exact) as [mrs'' e''].
  destruct (shr_m mrs''); [reflexivity | | reflexivity].
  destruct (e'' <=? emax - prec); reflexivity.
Qed.

Lemma binary_normalize_neg (p : positive) (e0 : Z) (sz : bool) (m : positive) (e : Z) :
  binary_normalize prec emax (Zpos p) e0 false = S754_finite false m e ->
  binary_normalize prec emax (Zneg p) e0 sz = S754_finite true m e.
Proof.
  unfold binary_normalize, binary_round.
  destruct (shl_align p e0 _) as [mz ez].
  rewrite (binary_round_aux_sign true). intros ->. reflexivity.
Qed.

Lemma ofZ_neg (s : Z) :
  0 < s < 2 ^ 53 ->
  exists (m : positive) (e : Z),
    ofZ (- s) = S754_finite true m e /\
    Zpos (digits2_pos m) = 53 /\ -52 <= e <= 0 /\
    Zpos m = s * 2 ^ (- e).
Proof.
  intros Hs. destruct (ofZ_pos s Hs) as (m & e & E & Hd & He & Hm).
  exists m, e. repeat split; try assumption; try lia.
  destruct s as [|p|p]; try lia. apply binary_normalize_neg. exact E.
Qed.

(** A negative integer above -2^53 prints as its decimal digits. *)
Lemma toString_ofZ_neg (other : number -> jsstring) (a : Z) :
  0 < a < 2 ^ 53 -> toString other (ofZ (- a)) = decimal (- a).
Proof.
  intros Ha. destruct (ofZ_neg a Ha) as (m & e & -> & Hd & He & Hm).
  unfold toString, integerValue. cbn [cond_Zopp].
  assert (Hp : 0 < 2 ^ (- e)) by (apply pow2_pos; lia).
  assert (Hv : (if 0 <=? e
                then Some (- (Zpos m * 2 ^ e))
                else if Zpos m mod 2 ^ (- e) =? 0
                     then Some (- (Zpos m / 2 ^ (- e)))
                     else None) = Some (- a)).
  { destruct (Z.leb_spec 0 e) as [H0 | Hneg].
    - assert (e = 0) by lia. subst e. rewrite Hm. f_equal. simpl. lia.
    - rewrite Hm, Z.mod_mul by lia. cbn [Z.eqb].
      rewrite Z.div_mul by lia. reflexivity. }
  rewrite Hv.
  replace (Z.abs (- a) <=? 2 ^ 53) with true by (symmetry; apply Z.leb_le; lia).
  reflexivity.
Qed.

(** [Math.floor] of a negative Number with a full mantissa. *)
Lemma floor_finite_neg (m : positive) (e : Z) :
  Zpos (digits2_pos m) = 53 -> e < 0 ->
  floor (S754_finite true m e) = ofZ (- Zpos m / 2 ^ (- e)).
Proof.
  intros Hd He. unfold floor.
  replace (0 <=? e) with false by (symmetry; apply Z.leb_gt; lia).
  cbn [cond_Zopp]. unfold ofZ.
  assert (Hp : 0 < 2 ^ (- e)) by (apply pow2_pos; lia).
  assert (Hn : - Zpos m / 2 ^ (- e) < 0).
  { apply Z.div_lt_upper_bound; lia. }
  change (- Zpos m) with (Zneg m) in *.
  destruct (Zneg m / 2 ^ (- e)) as [|q|q]; try lia. reflexivity.
Qed.

(** *** The quotient by 60, as a Number *)

Lemma div_core_60_wide (m : positive) (e : Z) :
  Zpos (digits2_pos m) = 53 -> -1000 <= e <= 0 ->
  SFdiv_core_binary prec emax (Zpos m) e 8444249301319680 (-47) =
  ((Zpos m * 2 ^ 53) / 8444249301319680, e - 6,
   new_location 8444249301319680 ((Zpos m * 2 ^ 53) mod 8444249301319680)).
Proof.
  intros Hd He. unfold SFdiv_core_binary. cbv zeta. cbn [Zdigits2].
  rewrite Hd. change (Zpos (digits2_pos 8444249301319680)) with 53.
  rewrite fexp_normal by lia.
  replace (Z.min (53 + e - (53 + -47) - 53) (e - -47)) with (e - 6) by lia.
  replace (e - -47 - (e - 6)) with 53 by lia.
  rewrite Z.shiftl_mul_pow2 by lia.
  unfold Z.div, Z.modulo.
  destruct (Z.div_eucl (Zpos m * 2 ^ 53) 8444249301319680). reflexivity.
Qed.

(** The quotient of [m * 2^e] by 60 is a Number [mq * 2^(e - k)] with a
    full mantissa, [k] being 5 or 6, and [mq] is within one half of the
    exact quotient [m * 2^k / 60]. *)
Lemma div_60_value (sx : bool) (m : positive) (e : Z) :
  Zpos (digits2_pos m) = 53 -> -1000 <= e <= 0 ->
  exists (mq : positive) (P k : Z),
    div (S754_finite sx m e) (ofZ 60) = S754_finite sx mq (e - k) /\
    Zpos (digits2_pos mq) = 53 /\
    (k = 5 /\ P = 32 \/ k = 6 /\ P = 64) /\
    -60 <= 2 * (60 * Zpos mq - P * Zpos m) <= 60.
Proof.
  intros Hd He. rewrite ofZ_60.
  unfold div, SFdiv. rewrite div_core_60_wide by assumption.
  rewrite xorb_false_r.
  pose proof (digits2_bounds m) as Hmb. rewrite Hd in Hmb.
  change (2 ^ (53 - 1)) with 4503599627370496 in Hmb.
  change (2 ^ 53) with 9007199254740992 in *.
  set (N := Zpos m * 9007199254740992).
  pose proof (Z.div_mod N 8444249301319680 ltac:(lia)) as HN.
  pose proof (Z.mod_pos_bound N 8444249301319680 ltac:(lia)) as Hr.
  set (q := N / 8444249301319680) in *.
  set (r := N mod 8444249301319680) in *.
  assert (Hq : 4503599627370496 <= q < 18014398509481984) by (unfold N in HN; lia).
  destruct q as [|qp|qp] eqn:Eq; try lia.
  unfold binary_round_aux, shr_fexp. cbn [Zdigits2].
  destruct (Z.lt_ge_cases (Zpos qp) 9007199254740992) as [Hlow | Hhigh].
  - (* the quotient has 53 digits *)
    rewrite (digits2_unique qp 53) by (simpl; lia).
    rewrite fexp_normal by lia.
    replace (53 + (e - 6) - 53 - (e - 6)) with 0 by lia. cbn [shr].
    destruct (loc_of_record_of_loc (Zpos qp) (new_location 8444249301319680 r))
      as [-> ->].
    destruct (round_nearest_close (Zpos qp) 8444249301319680 r eq_refl Hr)
      as [Hmr Hnear].
    set (mr := round_nearest_even (Zpos qp) (new_location 8444249301319680 r)) in *.
    destruct mr as [|mp|mp] eqn:Emr; try lia. cbn [Zdigits2].
    destruct (Z.lt_ge_cases (Zpos mp) 9007199254740992) as [Hlow' | Hhigh'].
    + rewrite (digits2_unique mp 53) by (simpl; lia).
      rewrite fexp_normal by lia.
      replace (53 + (e - 6) - 53 - (e - 6)) with 0 by lia. cbn [shr shr_m shr_record_of_loc].
      unfold prec, emax.
      replace (e - 6 <=? 1024 - 53) with true by (symmetry; apply Z.leb_le; lia).
      exists mp, 64, 6. split; [reflexivity|].
      split; [apply digits2_unique; simpl; lia|].
      split; [right; split; reflexivity|]. unfold N in *. lia.
    + assert (Emp : mp = 9007199254740992%positive) by lia. subst mp.
      change (Zpos (digits2_pos 9007199254740992)) with 54.
      rewrite fexp_normal by lia.
      replace (54 + (e - 6) - 53 - (e - 6)) with 1 by lia.
      cbn [shr iter_pos shr_record_of_loc shr_1 shr_m].
      unfold prec, emax.
      replace (e - 6 + 1 <=? 1024 - 53) with true by (symmetry; apply Z.leb_le; lia).
      exists 4503599627370496%positive, 32, 5.
      split; [replace (e - 6 + 1) with (e - 5) by lia; reflexivity|].
      split; [reflexivity|].
      split; [left; split; reflexivity|]. unfold N in *. lia.
  - (* the quotient has 54 digits and loses one *)
    rewrite (digits2_unique qp 54) by (simpl; lia).
    rewrite fexp_normal by lia.
    replace (54 + (e - 6) - 53 - (e - 6)) with 1 by lia. cbn [shr iter_pos].
    destruct (round_nearest_close_shifted qp 8444249301319680 r eq_refl Hr)
      as [Hmr Hnear].
    set (mrs := shr_1 (shr_record_of_loc (Zpos qp) (new_location 8444249301319680 r))) in *.
    set (mr := round_nearest_even (shr_m mrs) (loc_of_shr_record mrs)) in *.
    assert (Hh : 4503599627370496 <= Zpos qp / 2 < 9007199254740992 - 1)
      by (Z.div_mod_to_equations; lia).
    destruct mr as [|mp|mp] eqn:Emr; try lia. cbn [Zdigits2].
    rewrite (digits2_unique mp 53) by (simpl; lia).
    rewrite fexp_normal by lia.
    replace (53 + (e - 6 + 1) - 53 - (e - 6 + 1)) with 0 by lia.
    cbn [shr shr_m shr_record_of_loc].
    unfold prec, emax.
    replace (e - 6 + 1 <=? 1024 - 53) with true by (symmetry; apply Z.leb_le; lia).
    exists mp, 32, 5.
    split; [replace (e - 6 + 1) with (e - 5) by lia; reflexivity|].
    split; [apply digits2_unique; simpl; lia|].
    split; [left; split; reflexivity|]. unfold N in *. lia.
Qed.

(** *** The remainder by 60, as a Number *)

Lemma scaled_mod (a K : Z) : 0 < K -> a mod (60 * K) / K = (a / K) mod 60.
Proof.
  intros HK. rewrite (Z.mul_comm 60 K), Z.rem_mul_r by lia.
  rewrite (Z.mul_comm K), Z.div_add by lia.
  rewrite Z.div_small by (apply Z.mod_pos_bound; lia). reflexivity.
Qed.

Lemma remainder_60_value (m : positive) (e : Z) :
  Zpos (digits2_pos m) = 53 -> -1000 <= e <= 0 ->
  floor (remainder (S754_finite false m e) (ofZ 60)) =
  ofZ ((Zpos m / 2 ^ (- e)) mod 60).
Proof.
  intros Hd He. rewrite ofZ_60. unfold remainder. cbn [cond_Zopp].
  set (e' := Z.min e (-47)).
  assert (He' : e' <= e /\ e' <= -47 /\ -1000 <= e') by (unfold e'; lia).
  assert (Hp : 0 < 2 ^ (- e')) by (apply pow2_pos; lia).
  assert (HK : 0 < 2 ^ (- e)) by (apply pow2_pos; lia).
  assert (Hs : 0 < 2 ^ (e - e')) by (apply pow2_pos; lia).
  assert (EK : 2 ^ (- e') = 2 ^ (e - e') * 2 ^ (- e)).
  { rewrite <- pow2_split by lia. f_equal. lia. }
  assert (Eb : 8444249301319680 * 2 ^ (-47 - e') = 60 * 2 ^ (- e')).
  { replace (- e') with (47 + (-47 - e')) by lia.
    rewrite pow2_split by lia. change (2 ^ 47) with 140737488355328. lia. }
  rewrite Eb.
  assert (Ev : (Zpos m * 2 ^ (e - e')) mod (60 * 2 ^ (- e')) / 2 ^ (- e') =
               (Zpos m / 2 ^ (- e)) mod 60).
  { rewrite scaled_mod by assumption. f_equal.
    rewrite EK, (Z.mul_comm (2 ^ (e - e'))), Z.div_mul_cancel_r by lia.
    reflexivity. }
  set (z := (Zpos m * 2 ^ (e - e')) mod (60 * 2 ^ (- e'))) in *.
  assert (Hz : 0 <= z < 60 * 2 ^ (- e')) by (apply Z.mod_pos_bound; lia).
  destruct (Z.eq_dec z 0) as [E0 | Hne].
  { rewrite <- Ev, E0. reflexivity. }
  pose proof (digits2_bounds m) as Hb. rewrite Hd in Hb.
  assert (Hfit : z < 2 ^ 53).
  { destruct (Z.eq_dec e' (-47)) as [E47 | Hlow].
    - rewrite E47 in Hz. change (2 ^ (- -47)) with 140737488355328 in Hz.
      change (2 ^ 53) with 9007199254740992. lia.
    - assert (E : e' = e) by (unfold e' in *; lia).
      assert (z <= Zpos m * 2 ^ (e - e')) by (apply Z.mod_le; lia).
      rewrite E, Z.sub_diag in H. simpl in H. lia. }
  destruct (binary_normalize_exact z e' false)
    as (m2 & e2 & E & Hd2 & He2 & He2' & Hm2); [lia | lia |].
  rewrite E, floor_finite by (assumption || lia).
  f_equal. rewrite <- Ev, Hm2.
  assert (0 < 2 ^ (e' - e2)) by (apply pow2_pos; lia).
  replace (2 ^ (- e2)) with (2 ^ (- e') * 2 ^ (e' - e2))
    by (rewrite <- pow2_split by lia; f_equal; lia).
  rewrite Z.div_mul_cancel_r by lia. reflexivity.
Qed.

Lemma remainder_60_neg (s : Z) :
  0 < s < 2 ^ 53 ->
  floor (remainder (ofZ (- s)) (ofZ 60)) =
  if s mod 60 =? 0 then S754_zero true else ofZ (- (s mod 60)).
Proof.
  intros Hs. rewrite ofZ_60.
  destruct (ofZ_neg s Hs) as (m & e & -> & Hd & He & Hm).
  unfold remainder. cbn [cond_Zopp].
  set (e' := Z.min e (-47)).
  assert (He' : e' <= e /\ e' <= -47 /\ -52 <= e') by (unfold e'; lia).
  assert (Hp : 0 < 2 ^ (- e')) by (apply pow2_pos; lia).
  assert (Ea : Zpos m * 2 ^ (e - e') = s * 2 ^ (- e')).
  { rewrite Hm, <- Z.mul_assoc, <- pow2_split by lia. do 2 f_equal. lia. }
  assert (Eb : 8444249301319680 * 2 ^ (-47 - e') = 60 * 2 ^ (- e')).
  { replace (- e') with (47 + (-47 - e')) by lia.
    rewrite pow2_split by lia. change (2 ^ 47) with 140737488355328. lia. }
  rewrite Ea, Eb, Z.mul_mod_distr_r by lia.
  assert (Hr : 0 <= s mod 60 < 60) by (apply Z.mod_pos_bound; lia).
  destruct (Z.eqb_spec (s mod 60) 0) as [E0 | Hne].
  { rewrite E0. reflexivity. }
  assert (Hfit : s mod 60 * 2 ^ (- e') < 2 ^ 53).
  { destruct (Z.eq_dec e' (-47)) as [E47 | Hlow].
    - rewrite E47. change (2 ^ (- -47)) with 140737488355328.
      change (2 ^ 53) with 9007199254740992. lia.
    - assert (e' = e) by (unfold e' in *; lia).
      pose proof (digits2_bounds m) as Hb. rewrite Hd in Hb.
      assert (s mod 60 <= s) by (apply Z.mod_le; lia).
      subst e'. rewrite H in *. nia. }
  destruct (binary_normalize_exact (s mod 60 * 2 ^ (- e')) e' false)
    as (m2 & e2 & E & Hd2 & He2 & He2' & Hm2); [nia | lia |].
  assert (Hpos : 0 < s mod 60 * 2 ^ (- e')) by nia.
  destruct (s mod 60 * 2 ^ (- e')) as [|pz|pz] eqn:Ez; try lia.
  change (- Zpos pz) with (Zneg pz).
  rewrite (binary_normalize_neg pz e' true m2 e2 E).
  assert (Hv : Zpos m2 = s mod 60 * 2 ^ (- e2)).
  { rewrite Hm2, <- Ez, <- Z.mul_assoc, <- pow2_split by lia.
    do 2 f_equal. lia. }
  rewrite floor_finite_neg by (assumption || lia).
  rewrite Hv, <- Z.mul_opp_l, Z.div_mul; [reflexivity|].
  assert (0 < 2 ^ (- e2)) by (apply pow2_pos; lia). lia.
Qed.

(** The seconds of a negative time: a zero, and the remainder with its
    sign. *)
Lemma seconds_negative (other : number -> jsstring) (r : Z) :
  0 <= r < 60 ->
  (if ltb (if r =? 0 then S754_zero true else ofZ (- r)) (ofZ 10)
   then js "0" ++ toString other (if r =? 0 then S754_zero true else ofZ (- r))
   else toString other (if r =? 0 then S754_zero true else ofZ (- r))) =
  js "0" ++ decimal (- r).
Proof.
  intros Hr. destruct r as [|p|p]; try lia; [reflexivity|].
  do 6 (try destruct p as [p|p|]; try lia); reflexivity.
Qed.

(** *** [formatTime] *)

(** X24.  A time need not be a whole number of seconds.  For a Number
    [x = m * 2^e] between 2^(-948) and 2^53, written with its mantissa
    [m] of 53 bits, [formatTime] returns what it returns for the whole
    seconds [floor x = m / 2^(-e)]: the minutes [floor x / 60], a colon,
    and the seconds [floor x mod 60] as two digits.  The division by 60
    never rounds across a whole number of minutes. *)
Theorem formatTime_fractional :
  forall (stringToNumber : jsstring -> number)
         (numberToStringOther : number -> jsstring)
         (m : positive) (e : Z),
    Zpos (digits2_pos m) = 53 -> -1000 <= e <= 0 ->
    formatTime stringToNumber numberToStringOther (inl (S754_finite false m e)) =
    formatDuration (Zpos m / 2 ^ (- e)).
Proof.
  intros stn other m e Hd He. unfold formatTime, toNumber, formatDuration.
  rewrite (remainder_60_value m e Hd He).
  destruct (div_60_value false m e Hd He)
    as (mq & P & k & -> & Hdq & Hk & Hnear).
  assert (HK : 0 < 2 ^ (- e)) by (apply pow2_pos; lia).
  pose proof (digits2_bounds m) as Hb. rewrite Hd in Hb.
  assert (HF : 0 <= Zpos m / 2 ^ (- e) < 2 ^ 53).
  { split; [apply Z.div_pos; lia|].
    apply Z.le_lt_trans with (Zpos m); [|lia].
    apply Z.div_le_upper_bound; [lia|]. nia. }
  assert (Hfl : floor (S754_finite false mq (e - k)) =
                ofZ (Zpos m / 2 ^ (- e) / 60)).
  { rewrite floor_finite by (assumption || lia). f_equal.
    rewrite pow2_scaled by lia.
    replace (2 ^ k) with P
      by (destruct Hk as [[-> ->] | [-> ->]]; reflexivity).
    apply nearest_floor_scaled; lia. }
  rewrite Hfl.
  rewrite toString_ofZ
    by (change (2 ^ 53) with 9007199254740992 in *;
        Z.div_mod_to_equations; lia).
  rewrite (seconds_two_digits other (Zpos m / 2 ^ (- e) mod 60))
    by (apply Z.mod_pos_bound; lia).
  reflexivity.
Qed.

Lemma formatTime_fractional_witness :
  formatTime (fun _ => S754_nan) (fun _ => [])
             (inl (S754_finite false 7934075906031616 (-45))) = js "3:45".
Proof.
  rewrite (formatTime_fractional (fun _ => S754_nan) (fun _ => [])
             7934075906031616 (-45) eq_refl ltac:(lia)).
  reflexivity.
Defined.

(** X25.  A negative time is not rejected either, and comes out
    malformed.  For an integer [s] with 0 < s < 2^53, [formatTime (- s)]
    is the minutes [floor (- s / 60)], negative, a colon, a padding zero,
    and the seconds [- (s mod 60)] with their own sign: -5 gives "-1:0-5"
    and -60 gives "-1:00". *)
Theorem formatTime_negative :
  forall (stringToNumber : jsstring -> number)
         (numberToStringOther : number -> jsstring) (s : Z),
    0 < s < 2 ^ 53 ->
    formatTime stringToNumber numberToStringOther (inl (ofZ (- s))) =
    decimal ((- s) / 60) ++ js ":0" ++ decimal (- (s mod 60)).
Proof.
  intros stn other s Hs. unfold formatTime, toNumber.
  rewrite (remainder_60_neg s Hs).
  rewrite (seconds_negative other (s mod 60))
    by (apply Z.mod_pos_bound; lia).
  destruct (ofZ_neg s Hs) as (m & e & -> & Hd & He & Hm).
  destruct (div_60_value true m e Hd ltac:(lia))
    as (mq & P & k & -> & Hdq & Hk & Hnear).
  assert (HK : 0 < 2 ^ (- e)) by (apply pow2_pos; lia).
  assert (Hfl : floor (S754_finite true mq (e - k)) = ofZ ((- s) / 60)).
  { rewrite floor_finite_neg
      by (try assumption; destruct Hk as [[-> _] | [-> _]]; lia).
    f_equal. rewrite pow2_scaled by (destruct Hk as [[-> _] | [-> _]]; lia).
    replace (2 ^ k) with P
      by (destruct Hk as [[-> ->] | [-> ->]]; reflexivity).
    apply nearest_floor_neg; lia. }
  rewrite Hfl.
  assert (Hq : 0 < - ((- s) / 60) < 2 ^ 53).
  { change (2 ^ 53) with 9007199254740992 in *.
    Z.div_mod_to_equations; lia. }
  replace ((- s) / 60) with (- - ((- s) / 60)) by lia.
  rewrite (toString_ofZ_neg other _ Hq). reflexivity.
Qed.

Lemma formatTime_negative_witness :
  formatTime (fun _ => S754_nan) (fun _ => []) (inl (ofZ (- 5))) = js "-1:0-5".
Proof.
  exact (formatTime_negative (fun _ => S754_nan) (fun _ => []) 5 ltac:(lia)).
Defined.

End FormatTimeFrac.
